(** * OSPF cost synthesis (synet/synthesis/ospf.py): embedding and properties

    The Python class [OSPFSyn] is embedded with explicit state passing.
    Python dictionaries are stdpp [gmap]s (iteration goes through
    [map_to_list], a fixed but arbitrary order, as Python 2 hashing gives),
    exceptions are the [Raise] branch of [Res], the networkx 1.x [DiGraph]
    is its two dictionaries ([node] and [adj]), and Z3 formulas are a small
    syntax with an evaluation under a model.  The read-side methods are
    embedded a second time over a store of objects (module [heap]), to
    follow which objects they write to. *)

From stdpp Require Import gmap strings list fin_maps.
From Stdlib Require Import ZArith Lia.

#[local] Set Warnings "-clear-no-such-hyp".

Open Scope string_scope.
Open Scope Z_scope.
Open Scope list_scope.

(** ** Python exceptions *)

Inductive Exn :=
  | KeyError
  | IndexError
  | AssertionError
  | NetworkXError
  | NetworkXNoPath
  | Z3Exception.

Inductive Res (A : Type) :=
  | Ok (a : A)
  | Raise (e : Exn).
Arguments Ok {A} a.
Arguments Raise {A} e.

#[global] Instance Res_ret : MRet Res := λ A a, Ok a.
#[global] Instance Res_bind : MBind Res := λ A B f m,
  match m with
  | Ok a => f a
  | Raise e => Raise e
  end.

Definition raises {A} (r : Res A) : Prop := ∃ e, r = Raise e.

(** A [for] loop that threads an accumulator and stops at the first
    exception. *)
Fixpoint foldM {A B} (f : B → A → Res B) (b : B) (l : list A) : Res B :=
  match l with
  | [] => Ok b
  | x :: l' => b' ← f b x; foldM f b' l'
  end.

(** A loop that appends one result per element. *)
Fixpoint traverse {A B} (f : A → Res B) (l : list A) : Res (list B) :=
  match l with
  | [] => Ok []
  | x :: l' => y ← f x; ys ← traverse f l'; Ok (y :: ys)
  end.

(** [path[0]] and [path[-1]]. *)
Definition py_first {A} (l : list A) : Res A :=
  match l with
  | [] => Raise IndexError
  | x :: _ => Ok x
  end.

Definition py_last {A} (l : list A) : Res A :=
  match last l with
  | None => Raise IndexError
  | Some x => Ok x
  end.

(** [(path[i], path[i + 1]) for i in range(len(path) - 1)]. *)
Fixpoint consecutive {A} (l : list A) : list (A * A) :=
  match l with
  | x :: (y :: _) as l' => (x, y) :: consecutive l'
  | _ => []
  end.

(** ** networkx 1.x DiGraph

    [G.node] maps a node to its attribute dictionary and [G.adj] (alias
    [G.edge], [G.succ]) maps a node to the dictionary of its successors.
    [G.pred] mirrors [G.adj] and is read by nothing in ospf.py, so it is
    left out. *)

Module nx.

Record EdgeData := {
  cost : option Z;
  edge_attrs : gmap string string
}.

Record DiGraph := {
  graph : gmap string string;
  node : gmap string (gmap string string);
  adj : gmap string (gmap string EdgeData)
}.

(** [nx.DiGraph()] *)
Definition empty : DiGraph :=
  {| graph := ∅; node := ∅; adj := ∅ |}.

(** [len(G)] *)
Definition len (g : DiGraph) : nat := size (node g).

(** [G.nodes(data=True)] and [G.nodes()] *)
Definition nodes_data (g : DiGraph) : list (string * gmap string string) :=
  map_to_list (node g).

Definition nodes (g : DiGraph) : list string := (nodes_data g).*1.

(** [n in G], [G.has_node(n)] *)
Definition has_node (g : DiGraph) (n : string) : bool :=
  bool_decide (is_Some (node g !! n)).

(** [G.has_edge(u, v)]: [v in G.adj[u]], [False] on a [KeyError]. *)
Definition has_edge (g : DiGraph) (u v : string) : bool :=
  match adj g !! u with
  | Some nbrs => bool_decide (is_Some (nbrs !! v))
  | None => false
  end.

(** [G[u][v]], [G.edge[u][v]] *)
Definition get_edge (g : DiGraph) (u v : string) : Res EdgeData :=
  match adj g !! u with
  | Some nbrs =>
      match nbrs !! v with
      | Some d => Ok d
      | None => Raise KeyError
      end
  | None => Raise KeyError
  end.

(** [del G.node[n]]: removes the entry of the attribute dictionary only;
    the adjacency dictionaries are not touched. *)
Definition del_node_entry (g : DiGraph) (n : string) : Res DiGraph :=
  match node g !! n with
  | Some _ =>
      Ok {| graph := graph g; node := delete n (node g); adj := adj g |}
  | None => Raise KeyError
  end.

(** [G.edge[u][v]['cost'] = c] *)
Definition set_edge_cost (g : DiGraph) (u v : string) (c : Z) : Res DiGraph :=
  d ← get_edge g u v;
  let d' := {| cost := Some c; edge_attrs := edge_attrs d |} in
  Ok {| graph := graph g; node := node g;
        adj := <[u := <[v := d']> (default ∅ (adj g !! u))]> (adj g) |}.

(** [G.add_node(n, **attr)] *)
Definition add_node (g : DiGraph) (n : string) (attr : gmap string string)
  : Res DiGraph :=
  match adj g !! n with
  | None =>
      Ok {| graph := graph g; node := <[n := attr]> (node g);
            adj := <[n := ∅]> (adj g) |}
  | Some _ =>
      match node g !! n with
      | Some old =>
          Ok {| graph := graph g; node := <[n := attr ∪ old]> (node g);
                adj := adj g |}
      | None => Raise KeyError
      end
  end.

(** The part of [add_edge] that creates a missing endpoint. *)
Definition ensure_node (g : DiGraph) (n : string) : DiGraph :=
  match adj g !! n with
  | None =>
      {| graph := graph g; node := <[n := ∅]> (node g);
         adj := <[n := ∅]> (adj g) |}
  | Some _ => g
  end.

(** [G.add_edge(u, v, cost=c, **attr)] *)
Definition add_edge (g : DiGraph) (u v : string) (c : Z)
  (attr : gmap string string) : DiGraph :=
  let g1 := ensure_node (ensure_node g u) v in
  let nbrs := default ∅ (adj g1 !! u) in
  let old := default ∅ (edge_attrs <$> nbrs !! v) in
  let d := {| cost := Some c; edge_attrs := attr ∪ old |} in
  {| graph := graph g1; node := node g1;
     adj := <[u := <[v := d]> nbrs]> (adj g1) |}.

(** [iter(G[u])]: the successors of [u].  Every node that occurs as a
    successor has an adjacency entry of its own in a graph built through
    the networkx interface, so the lookup cannot fail during a traversal. *)
Definition successors (g : DiGraph) (u : string) : list string :=
  (map_to_list (default ∅ (adj g !! u))).*1.

(** [_all_simple_paths_graph]: the depth-first enumeration, written by
    recursion on the number [d] of nodes that may still be appended to
    [visited] before [len(visited) == cutoff]. *)
Fixpoint simple_paths_from (g : DiGraph) (target : string) (d : nat)
  (visited : list string) (children : list string) : list (list string) :=
  match d with
  | O =>
      if bool_decide (target ∈ children) then [visited ++ [target]] else []
  | S d' =>
      flat_map (λ child,
        if bool_decide (child = target) then [visited ++ [target]]
        else if bool_decide (child ∈ visited) then []
        else simple_paths_from g target d' (visited ++ [child])
               (successors g child)) children
  end.

(** [nx.all_simple_paths(G, source, target)] with [cutoff = len(G) - 1]. *)
Definition all_simple_paths (g : DiGraph) (source target : string)
  : Res (list (list string)) :=
  if negb (has_node g source) then Raise NetworkXError
  else if negb (has_node g target) then Raise NetworkXError
  else
    match (len g - 1)%nat with
    | O => Ok []
    | S d => Ok (simple_paths_from g target d [source] (successors g source))
    end.

(** A walk from [s] to [t]: consecutive nodes are joined by edges. *)
Definition is_walk (g : DiGraph) (s t : string) (p : list string) : Prop :=
  head p = Some s ∧ last p = Some t ∧
  ∀ u v, (u, v) ∈ consecutive p → has_edge g u v = true.

Definition is_walkb (g : DiGraph) (s t : string) (p : list string) : bool :=
  bool_decide (head p = Some s) && bool_decide (last p = Some t) &&
  forallb (λ uv, has_edge g uv.1 uv.2) (consecutive p).

(** The path queries of the graph library used by the routing trees.
    Their algorithms (bidirectional search, Dijkstra with a heap) are not
    part of this repository; they are taken with their contract: a
    returned path is a walk of the graph between the two nodes. *)
Class PathLibrary := {
  has_path : DiGraph → string → string → Res bool;
  shortest_path : DiGraph → string → string → Res (list string);
  shortest_path_walk : ∀ g s t p,
    shortest_path g s t = Ok p → is_walk g s t p
}.

End nx.

(** ** Z3: the formulas ospf.py builds, models and the solver state *)

Module z3.

(** A value of the enumeration sort ['OSPFVertex']. *)
Inductive Vertex :=
  | EnumVal (i : nat).

#[global] Instance Vertex_eq_dec : EqDecision Vertex.
Proof. solve_decision. Defined.

Inductive ArithRef :=
  | IntVal (z : Z)
  | OSPFEdgeCost (u v : Vertex)
  | Add (a b : ArithRef).

Inductive BoolRef :=
  | BoolVal (b : bool)
  | EdgePhyOSPF (u v : Vertex)
  | Not (b : BoolRef)
  | Eq (a b : ArithRef)
  | Ge (a b : ArithRef)
  | Lt (a b : ArithRef).

(** A model interprets the two uninterpreted functions.  Interpretations
    are total, as Z3's are once a function occurs in an assertion. *)
Record ModelRef := {
  edge_interp : Vertex → Vertex → bool;
  cost_interp : Vertex → Vertex → Z
}.

(** [m.eval(e).as_long()] *)
Fixpoint eval_int (m : ModelRef) (e : ArithRef) : Z :=
  match e with
  | IntVal z => z
  | OSPFEdgeCost u v => cost_interp m u v
  | Add a b => eval_int m a + eval_int m b
  end.

(** [z3.is_true(m.eval(e))] *)
Fixpoint eval_bool (m : ModelRef) (e : BoolRef) : bool :=
  match e with
  | BoolVal b => b
  | EdgePhyOSPF u v => edge_interp m u v
  | Not b => negb (eval_bool m b)
  | Eq a b => eval_int m a =? eval_int m b
  | Ge a b => eval_int m a >=? eval_int m b
  | Lt a b => eval_int m a <? eval_int m b
  end.

(** The assertion stack (innermost scope first) and the model of the last
    satisfiable check, if it is still available. *)
Record Solver := {
  scopes : list (list BoolRef);
  last_model : option ModelRef
}.

(** [z3.Solver()] *)
Definition new_solver : Solver := {| scopes := [[]]; last_model := None |}.

Definition assertions (s : Solver) : list BoolRef := concat (scopes s).

(** [solver.add(c)] *)
Definition add (s : Solver) (c : BoolRef) : Solver :=
  match scopes s with
  | top :: rest => {| scopes := (top ++ [c]) :: rest; last_model := None |}
  | [] => {| scopes := [[c]]; last_model := None |}
  end.

(** [solver.push()] *)
Definition push (s : Solver) : Solver :=
  {| scopes := [] :: scopes s; last_model := None |}.

(** [solver.model()] *)
Definition model (s : Solver) : Res ModelRef :=
  match last_model s with
  | Some m => Ok m
  | None => Raise Z3Exception
  end.

Definition models (m : ModelRef) (s : Solver) : Prop :=
  ∀ c, c ∈ assertions s → eval_bool m c = true.

Definition modelsb (m : ModelRef) (s : Solver) : bool :=
  forallb (eval_bool m) (assertions s).

Definition satisfiable (s : Solver) : Prop := ∃ m, models m s.

(** [solver.check()] returning [sat]: a model of the assertions becomes
    available. *)
Inductive check_sat (s : Solver) : Solver → Prop :=
  | check_sat_model m :
      models m s →
      check_sat s {| scopes := scopes s; last_model := Some m |}.

(** The number-like values of the Python code: [int] or a Z3 term. *)
Inductive PyNum :=
  | PyInt (z : Z)
  | PyExpr (e : ArithRef).

Definition to_arith (n : PyNum) : ArithRef :=
  match n with
  | PyInt z => IntVal z
  | PyExpr e => e
  end.

(** [a + b]: Python adds two ints, Z3 builds a term otherwise. *)
Definition py_add (a b : PyNum) : PyNum :=
  match a, b with
  | PyInt x, PyInt y => PyInt (x + y)
  | _, _ => PyExpr (Add (to_arith a) (to_arith b))
  end.

(** [sum(l)] *)
Definition py_sum (l : list PyNum) : PyNum := fold_left py_add l (PyInt 0).

(** [a < b], as the argument of [solver.add]. *)
Definition py_lt (a b : PyNum) : BoolRef :=
  match a, b with
  | PyInt x, PyInt y => BoolVal (x <? y)
  | _, _ => Lt (to_arith a) (to_arith b)
  end.

Definition eval_num (m : ModelRef) (n : PyNum) : Z := eval_int m (to_arith n).

(** The vertex pairs at which a formula reads the cost function and the
    edge predicate. *)
Fixpoint cost_atoms (e : ArithRef) : list (Vertex * Vertex) :=
  match e with
  | IntVal _ => []
  | OSPFEdgeCost u v => [(u, v)]
  | Add a b => cost_atoms a ++ cost_atoms b
  end.

Fixpoint edge_atoms (e : BoolRef) : list (Vertex * Vertex) :=
  match e with
  | BoolVal _ => []
  | EdgePhyOSPF u v => [(u, v)]
  | Not b => edge_atoms b
  | Eq _ _ | Ge _ _ | Lt _ _ => []
  end.

Fixpoint atoms (e : BoolRef) : list (Vertex * Vertex) :=
  match e with
  | BoolVal _ => []
  | EdgePhyOSPF u v => [(u, v)]
  | Not b => atoms b
  | Eq a b | Ge a b | Lt a b => cost_atoms a ++ cost_atoms b
  end.

(** The model [m] with the edge from [a] to [b] switched on. *)
Definition switch_on (m : ModelRef) (a b : Vertex) : ModelRef :=
  {| edge_interp := λ x y,
       if bool_decide (x = a ∧ y = b) then true else edge_interp m x y;
     cost_interp := cost_interp m |}.

End z3.

(** ** synet.utils.common *)

(** Modelled from the spec: the constants [VERTEX_TYPE] and [NODE_TYPE] of
    synet.utils.common, the key of a node's type tag and the tag of a
    router. *)
Definition VERTEX_TYPE : string := "vertex_type".
Definition NODE_TYPE : string := "node".

(** Configuration objects: [SetOSPFEdgeCost(src, dst, cost)], or any other
    class. *)
Inductive Config :=
  | SetOSPFEdgeCost (src dst : string) (cost : Z)
  | OtherConfig.

#[global] Instance Config_eq_dec : EqDecision Config.
Proof. solve_decision. Defined.

(** Requirement objects: [PathReq] with its [path], or any other class. *)
Inductive Req :=
  | PathReq (path : list string)
  | OtherReq.

(** A node is passed by name or as a vertex. *)
Inductive Ident :=
  | ByName (n : string)
  | ByVertex (v : z3.Vertex).

(** Modelled from the spec: the Vertex Registry that [SynthesisComponent]
    provides and [_create_vertices] fills: the map from names to vertices
    and back, the names and vertices of the destination networks, and the
    attribute lookups used when output graphs are annotated. *)
Record SynthesisComponent := {
  name_to_vertex : gmap string z3.Vertex;
  network_names : list string;
  networks : list z3.Vertex;
  get_name : z3.Vertex → string;
  _get_vertex_attributes : nx.DiGraph → Ident → gmap string string;
  _get_edge_attributes : Ident → Ident → gmap string string
}.

(** Modelled from the spec: [self.get_vertex(name)], the registry's lookup
    of a vertex by its name; an unknown name is a [KeyError]. *)
Definition get_vertex (base : SynthesisComponent) (name : string)
  : Res z3.Vertex :=
  match name_to_vertex base !! name with
  | Some v => Ok v
  | None => Raise KeyError
  end.

(** ** OSPFSyn *)

Record OSPFSyn := {
  base : SynthesisComponent;
  network_graph : nx.DiGraph;
  solver : z3.Solver;
  initial_configs : list Config;
  reqs : list Req
}.

Definition with_solver (self : OSPFSyn) (s : z3.Solver) : OSPFSyn :=
  {| base := base self; network_graph := network_graph self; solver := s;
     initial_configs := initial_configs self; reqs := reqs self |}.

Definition with_graph (self : OSPFSyn) (g : nx.DiGraph) : OSPFSyn :=
  {| base := base self; network_graph := g; solver := solver self;
     initial_configs := initial_configs self; reqs := reqs self |}.

(** One iteration of the loop of [_load_graph]. *)
Definition _load_graph_step (g : nx.DiGraph)
  (nd : string * gmap string string) : Res nx.DiGraph :=
  match nd.2 !! VERTEX_TYPE with
  | None => Raise KeyError
  | Some ty =>
      if bool_decide (ty ≠ NODE_TYPE) then nx.del_node_entry g nd.1
      else Ok g
  end.

(** [_load_graph]: [network_graph] is [None] or a graph; an empty graph
    is falsy and replaced by a fresh one. *)
Definition _load_graph (network_graph : option nx.DiGraph) : Res nx.DiGraph :=
  let g :=
    match network_graph with
    | Some g0 => if (nx.len g0 =? 0)%nat then nx.empty else g0
    | None => nx.empty
    end in
  foldM _load_graph_step g (nx.nodes_data g).

(** First loop of [_read_input_graph]: annotate the graph with given costs. *)
Definition annotate_cost (g : nx.DiGraph) (tmp : Config) : Res nx.DiGraph :=
  match tmp with
  | SetOSPFEdgeCost src dst cost => nx.set_edge_cost g src dst cost
  | OtherConfig => Ok g
  end.

(** Body of the inner loop of [_read_input_graph]. *)
Definition encode_pair (base : SynthesisComponent) (g : nx.DiGraph)
  (src : string) (s : z3.Solver) (dst : string) : Res z3.Solver :=
  if bool_decide (dst ∈ network_names base) then Ok s
  else
    src_v ← get_vertex base src;
    dst_v ← get_vertex base dst;
    if nx.has_edge g src dst then
      d ← nx.get_edge g src dst;
      let s1 := z3.add s (z3.EdgePhyOSPF src_v dst_v) in
      match nx.cost d with
      | Some c =>
          if bool_decide (c ≠ 0) then
            Ok (z3.add s1 (z3.Eq (z3.OSPFEdgeCost src_v dst_v) (z3.IntVal c)))
          else
            Ok (z3.add s1 (z3.Ge (z3.OSPFEdgeCost src_v dst_v) (z3.IntVal 0)))
      | None =>
          Ok (z3.add s1 (z3.Ge (z3.OSPFEdgeCost src_v dst_v) (z3.IntVal 0)))
      end
    else Ok (z3.add s (z3.Not (z3.EdgePhyOSPF src_v dst_v))).

(** Body of the outer loop of [_read_input_graph]. *)
Definition encode_row (base : SynthesisComponent) (g : nx.DiGraph)
  (s : z3.Solver) (src : string) : Res z3.Solver :=
  if bool_decide (src ∈ network_names base) then Ok s
  else foldM (encode_pair base g src) s (nx.nodes g).

Definition _read_input_graph (self : OSPFSyn) : Res OSPFSyn :=
  g ← foldM annotate_cost (network_graph self) (initial_configs self);
  s ← foldM (encode_row (base self) g) (solver self) (nx.nodes g);
  Ok (with_solver (with_graph self g) s).

(** [OSPFSyn(initial_configs, network_graph, solver)].  The inherited
    [_create_vertices] is a parameter: it is given the configurations and
    the filtered graph and yields the registry. *)
Definition __init__
  (_create_vertices : list Config → nx.DiGraph → SynthesisComponent)
  (initial_configs : option (list Config))
  (network_graph : option nx.DiGraph)
  (solver : option z3.Solver) : Res OSPFSyn :=
  g ← _load_graph network_graph;
  let s := default z3.new_solver solver in
  let cfgs := default [] initial_configs in
  let self :=
    {| base := _create_vertices cfgs g; network_graph := g; solver := s;
       initial_configs := cfgs; reqs := [] |} in
  _read_input_graph self.

(** [add_path_req]: the [assert isinstance(req, PathReq)] and the append. *)
Definition add_path_req (self : OSPFSyn) (req : Req) : Res (unit * OSPFSyn) :=
  match req with
  | PathReq _ =>
      Ok (tt, {| base := base self; network_graph := network_graph self;
                 solver := solver self;
                 initial_configs := initial_configs self;
                 reqs := reqs self ++ [req] |})
  | OtherReq => Raise AssertionError
  end.

Definition _get_edge_cost (self : OSPFSyn) (src dst : string) : Res z3.PyNum :=
  d ← nx.get_edge (network_graph self) src dst;
  let cost := default 0 (nx.cost d) in
  if bool_decide (cost > 0) then Ok (z3.PyInt cost)
  else
    src_v ← get_vertex (base self) src;
    dst_v ← get_vertex (base self) dst;
    Ok (z3.PyExpr (z3.OSPFEdgeCost src_v dst_v)).

Definition _get_path_cost (self : OSPFSyn) (path : list string)
  : Res z3.PyNum :=
  edge_costs ← traverse (λ sd, _get_edge_cost self sd.1 sd.2)
                 (consecutive path);
  Ok (z3.py_sum edge_costs).

(** Body of the loop over the simple paths in [push_requirements]. *)
Definition push_alternative (self : OSPFSyn) (path : list string)
  (path_cost : z3.PyNum) (s : z3.Solver) (sp : list string) : Res z3.Solver :=
  if bool_decide (path ≠ sp) then
    simple_path_cost ← _get_path_cost self sp;
    Ok (z3.add s (z3.py_lt path_cost simple_path_cost))
  else Ok s.

(** Body of the loop over the requirements in [push_requirements]. *)
Definition push_req (self : OSPFSyn) (s : z3.Solver) (req : Req)
  : Res z3.Solver :=
  match req with
  | PathReq path =>
      src ← py_first path;
      dst ← py_last path;
      path_cost ← _get_path_cost self path;
      sps ← nx.all_simple_paths (network_graph self) src dst;
      foldM (push_alternative self path path_cost) s sps
  | OtherReq => Ok s
  end.

(** [push_requirements]; the elapsed time it returns is not modelled. *)
Definition push_requirements (self : OSPFSyn) : Res (unit * OSPFSyn) :=
  s ← foldM (push_req self) (z3.push (solver self)) (reqs self);
  Ok (tt, with_solver self s).

(** [self.name_to_vertex.iteritems()] *)
Definition vertex_items (self : OSPFSyn) : list (string * z3.Vertex) :=
  map_to_list (name_to_vertex (base self)).

(** Body of the inner loop of [get_output_configs]. *)
Definition output_config (m : z3.ModelRef) (sv dv : string * z3.Vertex)
  : list Config :=
  if z3.eval_bool m (z3.EdgePhyOSPF sv.2 dv.2) then
    [SetOSPFEdgeCost sv.1 dv.1 (z3.eval_int m (z3.OSPFEdgeCost sv.2 dv.2))]
  else [].

(** [get_output_configs]: the appends of the two nested loops, in order.
    The session is returned as the call leaves it. *)
Definition get_output_configs (self : OSPFSyn)
  : Res (list Config * OSPFSyn) :=
  m ← z3.model (solver self);
  let outputs :=
    flat_map (λ sv, flat_map (output_config m sv) (vertex_items self))
      (vertex_items self) in
  Ok (outputs, self).

(** Body of the inner loop of [get_output_network_graph]. *)
Definition output_graph_pair (self : OSPFSyn) (m : z3.ModelRef)
  (sv : string * z3.Vertex) (g : nx.DiGraph) (dv : string * z3.Vertex)
  : Res nx.DiGraph :=
  g1 ← (if nx.has_node g dv.1 then Ok g
        else nx.add_node g dv.1
               (_get_vertex_attributes (base self) (network_graph self)
                  (ByVertex dv.2)));
  if z3.eval_bool m (z3.EdgePhyOSPF sv.2 dv.2) then
    Ok (nx.add_edge g1 sv.1 dv.1
          (z3.eval_int m (z3.OSPFEdgeCost sv.2 dv.2))
          (_get_edge_attributes (base self) (ByVertex sv.2) (ByVertex dv.2)))
  else Ok g1.

(** Body of the outer loop of [get_output_network_graph]. *)
Definition output_graph_row (self : OSPFSyn) (m : z3.ModelRef)
  (g : nx.DiGraph) (sv : string * z3.Vertex) : Res nx.DiGraph :=
  g1 ← nx.add_node g sv.1
         (_get_vertex_attributes (base self) (network_graph self)
            (ByVertex sv.2));
  foldM (output_graph_pair self m sv) g1 (vertex_items self).

Definition get_output_network_graph (self : OSPFSyn)
  : Res (nx.DiGraph * OSPFSyn) :=
  m ← z3.model (solver self);
  g ← foldM (output_graph_row self m) nx.empty (vertex_items self);
  Ok (g, self).

Section routing.
Context `{nx.PathLibrary}.

(** Body of the loop over the edges of a shortest path. *)
Definition routing_edge (self : OSPFSyn) (m : z3.ModelRef)
  (g_phy : nx.DiGraph) (g : nx.DiGraph) (sd : string * string)
  : Res nx.DiGraph :=
  let src := sd.1 in
  let dst := sd.2 in
  g1 ← (if nx.has_node g src then Ok g
        else nx.add_node g src
               (_get_vertex_attributes (base self) g_phy (ByName src)));
  g2 ← (if nx.has_node g1 dst then Ok g1
        else nx.add_node g1 dst
               (_get_vertex_attributes (base self) g_phy (ByName dst)));
  src_v ← get_vertex (base self) src;
  dst_v ← get_vertex (base self) dst;
  Ok (nx.add_edge g2 src dst
        (z3.eval_int m (z3.OSPFEdgeCost src_v dst_v))
        (_get_edge_attributes (base self) (ByName src) (ByName dst))).

(** Body of the loop over the registered names, for one destination. *)
Definition routing_node (self : OSPFSyn) (m : z3.ModelRef)
  (g_phy : nx.DiGraph) (dst_net_name : string) (g : nx.DiGraph)
  (nv : string * z3.Vertex) : Res nx.DiGraph :=
  reachable ← nx.has_path g_phy nv.1 dst_net_name;
  if negb reachable then Ok g
  else
    path ← nx.shortest_path g_phy nv.1 dst_net_name;
    foldM (routing_edge self m g_phy) g (consecutive path).

(** Body of the loop over [self.networks]. *)
Definition routing_tree (self : OSPFSyn) (m : z3.ModelRef)
  (g_phy : nx.DiGraph) (graphs : gmap string nx.DiGraph)
  (dst_net : z3.Vertex) : Res (gmap string nx.DiGraph) :=
  let dst_net_name := get_name (base self) dst_net in
  let g0 :=
    {| nx.graph := {["dst" := dst_net_name]}; nx.node := ∅; nx.adj := ∅ |} in
  g ← foldM (routing_node self m g_phy dst_net_name) g0 (vertex_items self);
  Ok (<[dst_net_name := g]> graphs).

Definition get_output_routing_graphs (self : OSPFSyn)
  : Res (gmap string nx.DiGraph * OSPFSyn) :=
  m ← z3.model (solver self);
  gs ← get_output_network_graph self;
  graphs ← foldM (routing_tree self m gs.1) ∅ (networks (base self));
  Ok (graphs, self).

End routing.

(** ** The read side on a store of objects

    The three read-side methods build their results in objects they
    create: a list, a [DiGraph], a dictionary of [DiGraph]s.  To follow
    which object each statement writes to, the methods are embedded a
    second time over a store of objects, statement by statement; the
    session's own graph and solver are objects of the same store.  The
    solver's [model()] and the evaluation under a model only read (a model
    is a read-only snapshot), and the registry is only looked up. *)

Module heap.

(** An object is known by its reference, a number; [next] is the first
    reference that is not in use yet. *)
Record Store := {
  next : nat;
  graphs : gmap nat nx.DiGraph;
  solvers : gmap nat z3.Solver;
  lists : gmap nat (list Config);
  dicts : gmap nat (gmap string nat)
}.

(** The attributes of [self] the read side uses: [self.network_graph] and
    [self.solver] refer to objects of the store. *)
Record Self := {
  registry : SynthesisComponent;
  network_graph : nat;
  solver : nat
}.

(** A statement runs on a store and returns a value and the store it
    leaves, or raises. *)
Definition M (A : Type) : Type := Store → Res (A * Store).

#[global] Instance M_ret : MRet M := λ A a σ, Ok (a, σ).
#[global] Instance M_bind : MBind M := λ A B f m σ,
  match m σ with
  | Ok (a, σ') => f a σ'
  | Raise e => Raise e
  end.

(** A call that touches no object. *)
Definition lift {A} (r : Res A) : M A := λ σ,
  match r with
  | Ok a => Ok (a, σ)
  | Raise e => Raise e
  end.

(** A [for] loop whose body is run for its effect on the store. *)
Fixpoint for_ {A} (l : list A) (body : A → M unit) : M unit :=
  match l with
  | [] => mret tt
  | x :: l' => body x ≫= λ _, for_ l' body
  end.

(** The object behind a reference.  A reference comes from an allocation
    or from [self], so the object is there; the default is never read in
    a store where [self] is allocated. *)
Definition graph_at (σ : Store) (r : nat) : nx.DiGraph :=
  default nx.empty (graphs σ !! r).
Definition solver_at (σ : Store) (r : nat) : z3.Solver :=
  default z3.new_solver (solvers σ !! r).
Definition list_at (σ : Store) (r : nat) : list Config :=
  default [] (lists σ !! r).
Definition dict_at (σ : Store) (r : nat) : gmap string nat :=
  default ∅ (dicts σ !! r).

Definition set_graph (σ : Store) (r : nat) (g : nx.DiGraph) : Store :=
  {| next := next σ; graphs := <[r := g]> (graphs σ);
     solvers := solvers σ; lists := lists σ; dicts := dicts σ |}.
Definition set_list (σ : Store) (r : nat) (l : list Config) : Store :=
  {| next := next σ; graphs := graphs σ; solvers := solvers σ;
     lists := <[r := l]> (lists σ); dicts := dicts σ |}.
Definition set_dict (σ : Store) (r : nat) (d : gmap string nat) : Store :=
  {| next := next σ; graphs := graphs σ; solvers := solvers σ;
     lists := lists σ; dicts := <[r := d]> (dicts σ) |}.

(** The reference a constructor call takes. *)
Definition fresh (σ : Store) : Store :=
  {| next := S (next σ); graphs := graphs σ; solvers := solvers σ;
     lists := lists σ; dicts := dicts σ |}.

(** [nx.DiGraph()], [[]] and [{}]: a new object each. *)
Definition new_graph : M nat := λ σ,
  Ok (next σ, set_graph (fresh σ) (next σ) nx.empty).
Definition new_list : M nat := λ σ,
  Ok (next σ, set_list (fresh σ) (next σ) []).
Definition new_dict : M nat := λ σ,
  Ok (next σ, set_dict (fresh σ) (next σ) ∅).

Definition read_graph (r : nat) : M nx.DiGraph := λ σ, Ok (graph_at σ r, σ).

(** A method of a graph object that changes the object in place. *)
Definition update_graph (r : nat) (f : nx.DiGraph → Res nx.DiGraph)
  : M unit := λ σ,
  match f (graph_at σ r) with
  | Ok g' => Ok (tt, set_graph σ r g')
  | Raise e => Raise e
  end.

(** [g.has_node(n)], [g.add_node(n, **attr)], [g.add_edge(u, v, cost=c,
    **attr)] and [g.graph[k] = v] on the graph object [g].  The keyword
    arguments [**attr] reach networkx as a dictionary of their own, so the
    graph keeps no reference to the dictionary the registry returned. *)
Definition has_node (g : nat) (n : string) : M bool :=
  gv ← read_graph g; mret (nx.has_node gv n).
Definition add_node (g : nat) (n : string) (attr : gmap string string)
  : M unit :=
  update_graph g (λ gv, nx.add_node gv n attr).
Definition add_edge (g : nat) (u v : string) (c : Z)
  (attr : gmap string string) : M unit :=
  update_graph g (λ gv, Ok (nx.add_edge gv u v c attr)).
Definition set_graph_attr (g : nat) (k v : string) : M unit :=
  update_graph g (λ gv,
    Ok {| nx.graph := <[k := v]> (nx.graph gv); nx.node := nx.node gv;
          nx.adj := nx.adj gv |}).

(** [outputs.append(x)] and [graphs[k] = g]; the dictionary keeps the
    reference, not a copy of the graph. *)
Definition append (l : nat) (x : Config) : M unit := λ σ,
  Ok (tt, set_list σ l (list_at σ l ++ [x])).
Definition dict_set (d : nat) (k : string) (g : nat) : M unit := λ σ,
  Ok (tt, set_dict σ d (<[k := g]> (dict_at σ d))).

(** [solver.model()] *)
Definition model (s : nat) : M z3.ModelRef := λ σ,
  lift (z3.model (solver_at σ s)) σ.

(** [self.name_to_vertex.iteritems()] *)
Definition vertex_items (self : Self) : list (string * z3.Vertex) :=
  map_to_list (name_to_vertex (registry self)).

(** Body of the inner loop of [get_output_configs]. *)
Definition output_config (m : z3.ModelRef) (outputs : nat)
  (sv dv : string * z3.Vertex) : M unit :=
  if negb (z3.eval_bool m (z3.EdgePhyOSPF sv.2 dv.2)) then mret tt
  else
    append outputs
      (SetOSPFEdgeCost sv.1 dv.1
         (z3.eval_int m (z3.OSPFEdgeCost sv.2 dv.2))).

Definition get_output_configs (self : Self) : M nat :=
  m ← model (solver self);
  outputs ← new_list;
  for_ (vertex_items self) (λ sv,
    for_ (vertex_items self) (output_config m outputs sv));;
  mret outputs.

(** Body of the inner loop of [get_output_network_graph]. *)
Definition output_graph_pair (self : Self) (m : z3.ModelRef) (g : nat)
  (sv dv : string * z3.Vertex) : M unit :=
  present ← has_node g dv.1;
  (if negb present then
     ng ← read_graph (network_graph self);
     add_node g dv.1
       (_get_vertex_attributes (registry self) ng (ByVertex dv.2))
   else mret tt);;
  if z3.eval_bool m (z3.EdgePhyOSPF sv.2 dv.2) then
    add_edge g sv.1 dv.1 (z3.eval_int m (z3.OSPFEdgeCost sv.2 dv.2))
      (_get_edge_attributes (registry self) (ByVertex sv.2) (ByVertex dv.2))
  else mret tt.

(** Body of the outer loop of [get_output_network_graph]. *)
Definition output_graph_row (self : Self) (m : z3.ModelRef) (g : nat)
  (sv : string * z3.Vertex) : M unit :=
  ng ← read_graph (network_graph self);
  add_node g sv.1
    (_get_vertex_attributes (registry self) ng (ByVertex sv.2));;
  for_ (vertex_items self) (output_graph_pair self m g sv).

Definition get_output_network_graph (self : Self) : M nat :=
  m ← model (solver self);
  g ← new_graph;
  for_ (vertex_items self) (output_graph_row self m g);;
  mret g.

Section routing.
Context `{nx.PathLibrary}.

(** Body of the loop over the edges of a shortest path. *)
Definition routing_edge (self : Self) (m : z3.ModelRef) (g_phy g : nat)
  (sd : string * string) : M unit :=
  let src := sd.1 in
  let dst := sd.2 in
  present ← has_node g src;
  (if negb present then
     phy ← read_graph g_phy;
     add_node g src (_get_vertex_attributes (registry self) phy (ByName src))
   else mret tt);;
  present ← has_node g dst;
  (if negb present then
     phy ← read_graph g_phy;
     add_node g dst (_get_vertex_attributes (registry self) phy (ByName dst))
   else mret tt);;
  src_v ← lift (get_vertex (registry self) src);
  dst_v ← lift (get_vertex (registry self) dst);
  add_edge g src dst (z3.eval_int m (z3.OSPFEdgeCost src_v dst_v))
    (_get_edge_attributes (registry self) (ByName src) (ByName dst)).

(** Body of the loop over the registered names, for one destination. *)
Definition routing_node (self : Self) (m : z3.ModelRef) (g_phy : nat)
  (dst_net_name : string) (g : nat) (nv : string * z3.Vertex) : M unit :=
  phy ← read_graph g_phy;
  reachable ← lift (nx.has_path phy nv.1 dst_net_name);
  if negb reachable then mret tt
  else
    path ← lift (nx.shortest_path phy nv.1 dst_net_name);
    for_ (consecutive path) (routing_edge self m g_phy g).

(** Body of the loop over [self.networks]: the new graph is stored in the
    dictionary first and filled afterwards, through the same reference. *)
Definition routing_tree (self : Self) (m : z3.ModelRef) (g_phy graphs : nat)
  (dst_net : z3.Vertex) : M unit :=
  let dst_net_name := get_name (registry self) dst_net in
  g ← new_graph;
  set_graph_attr g "dst" dst_net_name;;
  dict_set graphs dst_net_name g;;
  for_ (vertex_items self) (routing_node self m g_phy dst_net_name g).

Definition get_output_routing_graphs (self : Self) : M nat :=
  m ← model (solver self);
  g_phy ← get_output_network_graph self;
  graphs ← new_dict;
  for_ (networks (registry self)) (routing_tree self m g_phy graphs);;
  mret graphs.

End routing.

(** The graphs a dictionary of the store holds, by name. *)
Definition trees_at (σ : Store) (d : nat) : gmap string nx.DiGraph :=
  graph_at σ <$> dict_at σ d.

(** The objects of [self] exist in the store. *)
Definition allocated (self : Self) (σ : Store) : Prop :=
  (network_graph self < next σ)%nat ∧ (solver self < next σ)%nat ∧
  is_Some (graphs σ !! network_graph self) ∧
  is_Some (solvers σ !! solver self).

(** Every object of [σ] is in [σ'] as it was. *)
Definition unchanged (σ σ' : Store) : Prop :=
  (next σ ≤ next σ')%nat ∧
  ∀ r, (r < next σ)%nat →
    graphs σ' !! r = graphs σ !! r ∧ solvers σ' !! r = solvers σ !! r ∧
    lists σ' !! r = lists σ !! r ∧ dicts σ' !! r = dicts σ !! r.

(** While the dictionary [d] of routing trees is filled: the objects of
    [σb], the store in which [d] was created, are as they were, but for
    [d] itself, which holds [trees] through references to graphs created
    since. *)
Definition filling (σb : Store) (d : nat)
  (trees : gmap string nx.DiGraph) (σ : Store) : Prop :=
  (next σb ≤ next σ)%nat ∧
  (∀ r, (r < next σb)%nat →
     graphs σ !! r = graphs σb !! r ∧ solvers σ !! r = solvers σb !! r ∧
     lists σ !! r = lists σb !! r ∧
     (r ≠ d → dicts σ !! r = dicts σb !! r)) ∧
  trees_at σ d = trees ∧
  (∀ k r, dict_at σ d !! k = Some r → (next σb ≤ r < next σ)%nat).

End heap.

(** The session that a store holds for [self], as the functional embedding
    takes it. *)
Definition session_of (σ : heap.Store) (self : heap.Self) : OSPFSyn :=
  {| base := heap.registry self;
     network_graph := heap.graph_at σ (heap.network_graph self);
     solver := heap.solver_at σ (heap.solver self);
     initial_configs := []; reqs := [] |}.

(** ** A session: what a caller does with the object once it is built *)

Inductive step : OSPFSyn → OSPFSyn → Prop :=
  | step_add_path_req self req self' :
      add_path_req self req = Ok (tt, self') → step self self'
  | step_push_requirements self self' :
      push_requirements self = Ok (tt, self') → step self self'
  | step_check self s' :
      z3.check_sat (solver self) s' → step self (with_solver self s').

Definition session (self0 self : OSPFSyn) : Prop := rtc step self0 self.

(** The nodes the encoding loops of [_read_input_graph] do not skip. *)
Definition router (self : OSPFSyn) (n : string) : Prop :=
  n ∈ nx.nodes (network_graph self) ∧ n ∉ network_names (base self).

(** The cost an output view reports for the pair [(u, v)]:
    [m.eval(self.edge_cost(u_v, v_v)).as_long()]. *)
Definition resolved_edge_cost (self : OSPFSyn) (m : z3.ModelRef)
  (uv : string * string) : option Z :=
  match name_to_vertex (base self) !! uv.1,
        name_to_vertex (base self) !! uv.2 with
  | Some a, Some b => Some (z3.cost_interp m a b)
  | _, _ => None
  end.

Fixpoint sum_resolved (self : OSPFSyn) (m : z3.ModelRef)
  (l : list (string * string)) : option Z :=
  match l with
  | [] => Some 0
  | uv :: l' =>
      match resolved_edge_cost self m uv, sum_resolved self m l' with
      | Some c, Some r => Some (c + r)
      | _, _ => None
      end
  end.

(** The sum of the resolved edge costs along a path. *)
Definition resolved_path_cost (self : OSPFSyn) (m : z3.ModelRef)
  (p : list string) : option Z :=
  sum_resolved self m (consecutive p).

(** A simple path of the topology between two nodes: a walk without
    repeated nodes. *)
Definition simple_path (g : nx.DiGraph) (s t : string) (p : list string)
  : Prop :=
  nx.is_walk g s t p ∧ NoDup p.

(** The edges of a graph with their cost attribute. *)
Definition edge_cost_of (g : nx.DiGraph) (u v : string) : option Z :=
  match nx.get_edge g u v with
  | Ok d => nx.cost d
  | Raise _ => None
  end.

(** ** Predicates used to state the properties *)

(** The session after a check that answered [sat] with the model [m]. *)
Definition checked (self : OSPFSyn) (m : z3.ModelRef) : OSPFSyn :=
  with_solver self
    {| z3.scopes := z3.scopes (solver self); z3.last_model := Some m |}.

(** A pair of vertices of two names that are not destination networks. *)
Definition non_network_pair (b : SynthesisComponent)
  (ab : z3.Vertex * z3.Vertex) : Prop :=
  ∃ u v, (u ∉ network_names b) ∧ (v ∉ network_names b) ∧
    name_to_vertex b !! u = Some ab.1 ∧ name_to_vertex b !! v = Some ab.2.

(** Every assertion of the solver reads the two functions (respectively the
    edge predicate) only at pairs without a destination network. *)
Definition only_non_network (b : SynthesisComponent) (s : z3.Solver) : Prop :=
  ∀ c ab, c ∈ z3.assertions s → ab ∈ z3.atoms c → non_network_pair b ab.

Definition edges_non_network (b : SynthesisComponent) (s : z3.Solver) : Prop :=
  ∀ c ab, c ∈ z3.assertions s → ab ∈ z3.edge_atoms c → non_network_pair b ab.

(** A node of the input graph tagged as a router. *)
Definition router_node (g : nx.DiGraph) (n : string) : Prop :=
  ∃ d, nx.node g !! n = Some d ∧ d !! VERTEX_TYPE = Some NODE_TYPE.

(** The last satisfiable check gave the model [m] and nothing was asserted
    since. *)
Definition solved (self : OSPFSyn) (m : z3.ModelRef) : Prop :=
  z3.last_model (solver self) = Some m ∧ z3.models m (solver self).

(** The solver of [s'] holds every assertion of [s]. *)
Definition grows (s s' : z3.Solver) : Prop :=
  ∀ c, c ∈ z3.assertions s → c ∈ z3.assertions s'.

(** What the encoding loops assert for the pair [(u, v)]. *)
Definition pair_encoded (self : OSPFSyn) (u v : string) : Prop :=
  ∃ su sv,
    name_to_vertex (base self) !! u = Some su ∧
    name_to_vertex (base self) !! v = Some sv ∧
    if nx.has_edge (network_graph self) u v then
      z3.EdgePhyOSPF su sv ∈ z3.assertions (solver self) ∧
      match edge_cost_of (network_graph self) u v with
      | Some c =>
          if bool_decide (c ≠ 0) then
            z3.Eq (z3.OSPFEdgeCost su sv) (z3.IntVal c)
              ∈ z3.assertions (solver self)
          else
            z3.Ge (z3.OSPFEdgeCost su sv) (z3.IntVal 0)
              ∈ z3.assertions (solver self)
      | None =>
          z3.Ge (z3.OSPFEdgeCost su sv) (z3.IntVal 0)
            ∈ z3.assertions (solver self)
      end
    else z3.Not (z3.EdgePhyOSPF su sv) ∈ z3.assertions (solver self).

Definition baseline_asserted (self : OSPFSyn) : Prop :=
  ∀ u v, router self u → router self v → pair_encoded self u v.

(** The cost fixed for the edge [(u, v)] before synthesis: the attribute
    of the input graph, overridden by the [SetOSPFEdgeCost] entries of the
    initial configurations in their order. *)
Definition fixed_cost (cfgs : list Config) (g : nx.DiGraph) (u v : string)
  : option Z :=
  fold_left (λ acc cfg,
    match cfg with
    | SetOSPFEdgeCost src dst c =>
        if bool_decide (src = u ∧ dst = v) then Some c else acc
    | OtherConfig => acc
    end) cfgs (edge_cost_of g u v).

(** Every node with an adjacency entry has an attribute entry: what the
    networkx interface maintains, and [del G.node[n]] breaks. *)
Definition consistent (g : nx.DiGraph) : Prop :=
  ∀ n, is_Some (nx.adj g !! n) → is_Some (nx.node g !! n).

(** The edge and cost the model gives the pair of names [(u, v)]. *)
Definition model_edge_cost (self : OSPFSyn) (m : z3.ModelRef) (u v : string)
  : option Z :=
  match name_to_vertex (base self) !! u, name_to_vertex (base self) !! v with
  | Some su, Some sv =>
      if z3.edge_interp m su sv then Some (z3.cost_interp m su sv) else None
  | _, _ => None
  end.

(** [g'] keeps the nodes and the edges of [g]. *)
Definition extends (g g' : nx.DiGraph) : Prop :=
  (∀ n, is_Some (nx.node g !! n) → is_Some (nx.node g' !! n)) ∧
  (∀ u v, nx.has_edge g u v = true → nx.has_edge g' u v = true).

(** A partly built output graph: its nodes are registered names and every
    edge it has is an edge of the model, with the model's cost. *)
Definition output_graph_inv (self : OSPFSyn) (m : z3.ModelRef)
  (g : nx.DiGraph) : Prop :=
  consistent g ∧
  (∀ n, is_Some (nx.node g !! n) → is_Some (name_to_vertex (base self) !! n)) ∧
  (∀ u v d, nx.get_edge g u v = Ok d →
     ∃ c, model_edge_cost self m u v = Some c ∧ nx.cost d = Some c).

(** A partly built routing tree for the destination [dst]: each of its
    nodes has a walk to [dst] in the output graph [g_phy], and each of its
    edges is an edge of [g_phy] with the same cost. *)
Definition routing_tree_inv (g_phy : nx.DiGraph) (dst : string)
  (t : nx.DiGraph) : Prop :=
  (∀ n, is_Some (nx.node t !! n) → ∃ p, nx.is_walk g_phy n dst p) ∧
  (∀ u v, nx.has_edge t u v = true →
     nx.has_edge g_phy u v = true ∧
     is_Some (edge_cost_of t u v) ∧
     edge_cost_of g_phy u v = edge_cost_of t u v).

(** ** Predicates used to state further properties *)

(** What the encoding loops may assert: for an ordered pair of nodes of the
    graph that are not destination networks, the edge literal the graph
    dictates, the equality with a non-zero fixed cost, or a non-negative
    cost. *)
Definition baseline_form (b : SynthesisComponent) (g : nx.DiGraph)
  (c : z3.BoolRef) : Prop :=
  ∃ u v su sv,
    u ∈ nx.nodes g ∧ v ∈ nx.nodes g ∧
    (u ∉ network_names b) ∧ (v ∉ network_names b) ∧
    name_to_vertex b !! u = Some su ∧ name_to_vertex b !! v = Some sv ∧
    ((c = z3.EdgePhyOSPF su sv ∧ nx.has_edge g u v = true) ∨
     (c = z3.Not (z3.EdgePhyOSPF su sv) ∧ nx.has_edge g u v = false) ∨
     (∃ k, c = z3.Eq (z3.OSPFEdgeCost su sv) (z3.IntVal k) ∧
        nx.has_edge g u v = true ∧ edge_cost_of g u v = Some k ∧ k ≠ 0) ∨
     (c = z3.Ge (z3.OSPFEdgeCost su sv) (z3.IntVal 0) ∧
        nx.has_edge g u v = true ∧
        (edge_cost_of g u v = None ∨ edge_cost_of g u v = Some 0))).

(** What [push_requirements] may assert: the cost of a registered path is
    less than the cost of another path that the enumeration between its
    endpoints yields. *)
Definition requirement_constraint (self : OSPFSyn) (c : z3.BoolRef) : Prop :=
  ∃ path sp pc spc src dst sps,
    PathReq path ∈ reqs self ∧
    py_first path = Ok src ∧ py_last path = Ok dst ∧
    nx.all_simple_paths (network_graph self) src dst = Ok sps ∧
    sp ∈ sps ∧ sp ≠ path ∧
    _get_path_cost self path = Ok pc ∧
    _get_path_cost self sp = Ok spc ∧
    c = z3.py_lt pc spc.

(** A partly built output graph carries the registry's attributes: every
    node has an adjacency entry and the vertex attributes of its name, every
    edge the edge attributes of its pair. *)
Definition output_attrs_inv (self : OSPFSyn) (g : nx.DiGraph) : Prop :=
  (∀ n, is_Some (nx.node g !! n) → is_Some (nx.adj g !! n)) ∧
  (∀ n d, nx.node g !! n = Some d →
     ∃ v, name_to_vertex (base self) !! n = Some v ∧
       d = _get_vertex_attributes (base self) (network_graph self)
             (ByVertex v)) ∧
  (∀ u v d, nx.get_edge g u v = Ok d →
     ∃ su sv, name_to_vertex (base self) !! u = Some su ∧
       name_to_vertex (base self) !! v = Some sv ∧
       nx.edge_attrs d
       = _get_edge_attributes (base self) (ByVertex su) (ByVertex sv)).

(** A name registered for the vertex [a], if any. *)
Definition name_of (b : SynthesisComponent) (a : z3.Vertex) : option string :=
  fst <$> find (λ kv, bool_decide (kv.2 = a)) (map_to_list (name_to_vertex b)).

(** The model that reads the edge predicate and the costs off a graph:
    an edge is on when the graph has it, and costs its cost attribute, or 0
    without one. *)
Definition graph_model (b : SynthesisComponent) (g : nx.DiGraph)
  : z3.ModelRef :=
  {| z3.edge_interp := λ x y,
       match name_of b x, name_of b y with
       | Some u, Some v => nx.has_edge g u v
       | _, _ => false
       end;
     z3.cost_interp := λ x y,
       match name_of b x, name_of b y with
       | Some u, Some v => default 0 (edge_cost_of g u v)
       | _, _ => 0
       end |}.

(** ** Concrete inputs *)

Module Examples.

Definition router_data : gmap string string := {[ VERTEX_TYPE := NODE_TYPE ]}.
Definition peer_data : gmap string string := {[ VERTEX_TYPE := "peer" ]}.
Definition no_cost : nx.EdgeData := {| nx.cost := None; nx.edge_attrs := ∅ |}.

(** A registry over the names [a], [b], [c] and the destination network
    [n]; vertex attributes and edge attributes are empty. *)
Definition registry (cfgs : list Config) (g : nx.DiGraph)
  : SynthesisComponent :=
  {| name_to_vertex :=
       <["a" := z3.EnumVal 0]> (<["b" := z3.EnumVal 1]>
         (<["c" := z3.EnumVal 2]> (<["n" := z3.EnumVal 3]> ∅)));
     network_names := ["n"];
     networks := [z3.EnumVal 3];
     get_name := λ v,
       match v with
       | z3.EnumVal 0 => "a"
       | z3.EnumVal 1 => "b"
       | z3.EnumVal 2 => "c"
       | _ => "n"
       end;
     _get_vertex_attributes := λ _ _, ∅;
     _get_edge_attributes := λ _ _, ∅ |}.

(** One node without a type tag. *)
Definition untyped_graph : nx.DiGraph :=
  {| nx.graph := ∅;
     nx.node := <["a" := router_data]> (<["b" := ∅]> ∅);
     nx.adj := <["a" := ∅]> (<["b" := ∅]> ∅) |}.

(** Routers R1, R2, R3 and a peer P, with R1 -> P -> R2 and
    R1 -> R3 -> R2. *)
Definition peer_graph : nx.DiGraph :=
  {| nx.graph := ∅;
     nx.node := <["R1" := router_data]> (<["R2" := router_data]>
                  (<["R3" := router_data]> (<["P" := peer_data]> ∅)));
     nx.adj := <["R1" := <["P" := no_cost]> (<["R3" := no_cost]> ∅)]>
                 (<["P" := {["R2" := no_cost]}]>
                   (<["R3" := {["R2" := no_cost]}]> (<["R2" := ∅]> ∅))) |}.

(** Two routers without any link. *)
Definition unlinked_graph : nx.DiGraph :=
  {| nx.graph := ∅;
     nx.node := <["a" := router_data]> (<["b" := router_data]> ∅);
     nx.adj := <["a" := ∅]> (<["b" := ∅]> ∅) |}.

(** A triangle a -> b -> c and a -> c; the link a -> b carries [cost]. *)
Definition triangle (cost : option Z) : nx.DiGraph :=
  {| nx.graph := ∅;
     nx.node := <["a" := router_data]> (<["b" := router_data]>
                  (<["c" := router_data]> ∅));
     nx.adj := <["a" := <["b" := {| nx.cost := cost; nx.edge_attrs := ∅ |}]>
                           (<["c" := no_cost]> ∅)]>
                 (<["b" := {["c" := no_cost]}]> (<["c" := ∅]> ∅)) |}.

(** The model that switches every edge on and gives every edge the cost
    [k], but the cost [kab] to a -> b. *)
Definition flat_model (kab k : Z) : z3.ModelRef :=
  {| z3.edge_interp := λ _ _, true;
     z3.cost_interp := λ u v,
       match u, v with
       | z3.EnumVal 0, z3.EnumVal 1 => kab
       | _, _ => k
       end |}.

(** The model that reads the edges off the triangle and joins c to the
    destination network n, with the costs [kab] for a -> b, [kac] for
    a -> c and [k] elsewhere. *)
Definition triangle_model (kab kac k : Z) : z3.ModelRef :=
  {| z3.edge_interp := λ u v,
       match u, v with
       | z3.EnumVal 0, z3.EnumVal 1 => true
       | z3.EnumVal 0, z3.EnumVal 2 => true
       | z3.EnumVal 1, z3.EnumVal 2 => true
       | z3.EnumVal 2, z3.EnumVal 3 => true
       | _, _ => false
       end;
     z3.cost_interp := λ u v,
       match u, v with
       | z3.EnumVal 0, z3.EnumVal 1 => kab
       | z3.EnumVal 0, z3.EnumVal 2 => kac
       | _, _ => k
       end |}.

(** A reference implementation of the path queries of the graph library:
    the candidates are the walks among the enumerated simple paths and the
    cheapest one by the ['cost'] attribute (1 when absent) is returned. *)
Definition path_weight (g : nx.DiGraph) (p : list string) : Z :=
  foldr (λ uv acc, default 1 (edge_cost_of g uv.1 uv.2) + acc) 0
    (consecutive p).

Definition candidates (g : nx.DiGraph) (s t : string) : list (list string) :=
  if bool_decide (s = t) then [[s]]
  else
    filter (λ p, nx.is_walkb g s t p = true)
      (nx.simple_paths_from g t (size (nx.adj g)) [s] (nx.successors g s)).

Definition cheapest (g : nx.DiGraph) (p : list string)
  (ps : list (list string)) : list string :=
  fold_left (λ best q,
    if path_weight g q <? path_weight g best then q else best) ps p.

Definition ref_shortest_path (g : nx.DiGraph) (s t : string)
  : Res (list string) :=
  if negb (nx.has_node g s) || negb (nx.has_node g t) then Raise NetworkXError
  else
    match candidates g s t with
    | [] => Raise NetworkXNoPath
    | p :: ps => Ok (cheapest g p ps)
    end.

Definition ref_has_path (g : nx.DiGraph) (s t : string) : Res bool :=
  match ref_shortest_path g s t with
  | Ok _ => Ok true
  | Raise NetworkXNoPath => Ok false
  | Raise e => Raise e
  end.

Definition reference_paths : nx.PathLibrary.
Proof.
  refine {| nx.has_path := ref_has_path;
            nx.shortest_path := ref_shortest_path |}.
  intros g s t p. unfold ref_shortest_path.
  destruct (negb (nx.has_node g s) || negb (nx.has_node g t)); [done|].
  destruct (candidates g s t) as [|q qs] eqn:Hc; [done|]. intros [= <-].
  assert (∀ r, r ∈ q :: qs → nx.is_walk g s t r) as Hwalks.
  { intros r Hr. rewrite <- Hc in Hr. unfold candidates in Hr.
    assert (nx.is_walkb g s t r = true) as Hb.
    { case_bool_decide as Hst.
      - apply list_elem_of_singleton in Hr. subst.
        unfold nx.is_walkb. simpl. by rewrite !bool_decide_eq_true_2.
      - by apply list_elem_of_filter in Hr as [? _]. }
    unfold nx.is_walkb in Hb.
    apply andb_prop in Hb as [[H1 H2]%andb_prop H3].
    apply bool_decide_eq_true in H1, H2. split_and!; [done..|].
    intros u v Huv. rewrite forallb_forall in H3.
    by apply (H3 (u, v)), list_elem_of_In. }
  assert (∀ best, best ∈ q :: qs → ∀ l, (∀ r, r ∈ l → r ∈ q :: qs) →
            cheapest g best l ∈ q :: qs) as Hpick.
  { intros best Hbest l. revert best Hbest.
    induction l as [|r l IH]; intros best Hbest Hl; simpl; [done|].
    apply IH.
    - destruct (path_weight g r <? path_weight g best); [|done].
      apply Hl. by left.
    - intros r' Hr'. apply Hl. by right. }
  apply Hwalks, Hpick; [by left|]. intros r Hr. by right.
Defined.

(** Sessions built from these inputs. *)
Definition blank : OSPFSyn :=
  {| base := registry [] nx.empty; network_graph := nx.empty;
     solver := z3.new_solver; initial_configs := []; reqs := [] |}.

Definition built (r : Res OSPFSyn) : OSPFSyn :=
  match r with
  | Ok self => self
  | Raise _ => blank
  end.

Definition after (r : Res (unit * OSPFSyn)) : OSPFSyn :=
  match r with
  | Ok (_, self) => self
  | Raise _ => blank
  end.

(** The triangle with the cost 5 fixed on a -> b and the requirement
    [a, b, c], solved with the costs 5, 10 and 1. *)
Definition tri0 : OSPFSyn :=
  built (__init__ registry None (Some (triangle (Some 5))) None).
Definition tri1 : OSPFSyn := after (add_path_req tri0 (PathReq ["a"; "b"; "c"])).
Definition tri2 : OSPFSyn := after (push_requirements tri1).
Definition tri3 : OSPFSyn := checked tri2 (triangle_model 5 10 1).

(** The triangle with the cost 0 given to a -> b by the initial
    configurations, solved with the cost 7 on that edge. *)
Definition zero0 : OSPFSyn :=
  built (__init__ registry (Some [SetOSPFEdgeCost "a" "b" 0])
           (Some (triangle None)) None).
Definition zero1 : OSPFSyn := checked zero0 (triangle_model 7 10 1).

(** Two routers without a link and the requirement [a, b]. *)
Definition unlinked0 : OSPFSyn :=
  built (__init__ registry None (Some unlinked_graph) None).
Definition unlinked1 : OSPFSyn :=
  after (add_path_req unlinked0 (PathReq ["a"; "b"])).





(** A store that holds the graph and the solver of the checked triangle
    session, and the object that refers to them. *)
Definition store3 : heap.Store :=
  {| heap.next := 2;
     heap.graphs := {[ 0%nat := network_graph tri3 ]};
     heap.solvers := {[ 1%nat := solver tri3 ]};
     heap.lists := ∅;
     heap.dicts := ∅ |}.
Definition self3 : heap.Self :=
  {| heap.registry := base tri3; heap.network_graph := 0;
     heap.solver := 1 |}.

End Examples.

(** * Properties *)

(** ** Loops in the exception monad *)

Lemma bind_Ok {A B} (m : Res A) (f : A → Res B) b :
  m ≫= f = Ok b ↔ ∃ a, m = Ok a ∧ f a = Ok b.
Proof.
  destruct m as [a|e]; simpl; split.
  - eauto.
  - intros (a' & [= ->] & ?); done.
  - done.
  - intros (? & ? & ?); done.
Qed.

Lemma foldM_app {A B} (f : B → A → Res B) b l1 l2 :
  foldM f b (l1 ++ l2) = (b1 ← foldM f b l1; foldM f b1 l2).
Proof.
  revert b. induction l1 as [|x l1 IH]; intros b; simpl; [done|].
  destruct (f b x) as [b'|e]; simpl; [apply IH | done].
Qed.

(** An invariant of the accumulator, carried through a successful loop. *)
Lemma foldM_inv {A B} (P : B → Prop) (f : B → A → Res B) l b b' :
  (∀ x b1 b2, x ∈ l → P b1 → f b1 x = Ok b2 → P b2) →
  P b → foldM f b l = Ok b' → P b'.
Proof.
  revert b. induction l as [|x l IH]; intros b Hstep Hb; simpl.
  - intros [= <-]; done.
  - intros (b1 & Hx & Hrest)%bind_Ok.
    apply (IH b1); [|by eapply Hstep; [left|..]|done].
    intros y ? ? Hy; apply Hstep; by right.
Qed.

(** A successful loop went through each of its elements. *)
Lemma foldM_visit {A B} (f : B → A → Res B) l b b' x :
  x ∈ l → foldM f b l = Ok b' →
  ∃ l1 l2 b1 b2, l = l1 ++ x :: l2 ∧ foldM f b l1 = Ok b1 ∧
    f b1 x = Ok b2 ∧ foldM f b2 l2 = Ok b'.
Proof.
  intros (l1 & l2 & ->)%list_elem_of_split.
  rewrite foldM_app. intros (b1 & H1 & H2)%bind_Ok. simpl in H2.
  apply bind_Ok in H2 as (b2 & ? & ?). by exists l1, l2, b1, b2.
Qed.

(** A loop raises as soon as one of its elements always does. *)
Lemma foldM_raises {A B} (f : B → A → Res B) l b x :
  x ∈ l → (∀ b1, raises (f b1 x)) → raises (foldM f b l).
Proof.
  intros Hx Hf. revert b. induction Hx as [x l|x y l _ IH]; intros b; simpl.
  - destruct (Hf b) as [e ->]. by exists e.
  - destruct (f b y) as [b1|e]; simpl; [by apply IH | by exists e].
Qed.

Lemma traverse_raises {A B} (f : A → Res B) l x :
  x ∈ l → raises (f x) → raises (traverse f l).
Proof.
  intros Hx [e He]. induction Hx as [x l|x y l _ IH]; simpl.
  - rewrite He. by exists e.
  - destruct (f y) as [b|e1]; simpl; [|by exists e1].
    destruct (IH He) as [e2 ->]. by exists e2.
Qed.

(** A loop whose body can only raise [ex] raises [ex] if it raises. *)
Lemma foldM_raise_kind {A B} (ex : Exn) (f : B → A → Res B) l b e :
  (∀ b1 y e', f b1 y = Raise e' → e' = ex) →
  foldM f b l = Raise e → e = ex.
Proof.
  intros Hf. revert b. induction l as [|y l IH]; intros b; simpl; [done|].
  destruct (f b y) as [b1|e'] eqn:Hy; simpl.
  - apply IH.
  - intros [= <-]. by eapply Hf.
Qed.

Lemma traverse_raise_kind {A B} (ex : Exn) (f : A → Res B) l e :
  (∀ y e', f y = Raise e' → e' = ex) →
  traverse f l = Raise e → e = ex.
Proof.
  intros Hf. induction l as [|y l IH]; simpl; [done|].
  destruct (f y) as [b|e'] eqn:Hy; simpl.
  - destruct (traverse f l) as [bs|e'']; simpl; [done|].
    intros [= <-]. by apply IH.
  - intros [= <-]. by eapply Hf.
Qed.

Lemma traverse_Ok {A B} (f : A → Res B) l ys :
  traverse f l = Ok ys → Forall2 (λ x y, f x = Ok y) l ys.
Proof.
  revert ys. induction l as [|x l IH]; intros ys; simpl.
  - intros [= <-]. constructor.
  - intros (y & Hy & (ys' & Hys & [= <-])%bind_Ok)%bind_Ok.
    constructor; [done | by apply IH].
Qed.

(** ** Loading the graph *)

Lemma load_graph_step_raise_kind g nd e :
  _load_graph_step g nd = Raise e → e = KeyError.
Proof.
  unfold _load_graph_step, nx.del_node_entry.
  destruct (nd.2 !! VERTEX_TYPE); [|by intros [= <-]].
  case_bool_decide; [|done].
  destruct (nx.node g !! nd.1); [done | by intros [= <-]].
Qed.

(** C7: a graph with a node that carries no vertex-type annotation makes
    [_load_graph] raise (the [KeyError] of [data[VERTEX_TYPE]]), and with it
    the construction that calls it; the node is not skipped and nothing is
    deferred. *)
Theorem load_graph_untyped_node_raises (g : nx.DiGraph) (n : string)
  (d : gmap string string) :
  nx.node g !! n = Some d → d !! VERTEX_TYPE = None →
  _load_graph (Some g) = Raise KeyError ∧
  ∀ cv cfgs slv, __init__ cv cfgs (Some g) slv = Raise KeyError.
Proof.
  intros Hn Hd.
  assert (_load_graph (Some g) = Raise KeyError) as Hload.
  { unfold _load_graph.
    destruct (Nat.eqb_spec (nx.len g) 0) as [Hlen|_].
    { apply map_size_empty_inv in Hlen. rewrite Hlen in Hn.
      by rewrite lookup_empty in Hn. }
    assert (raises (foldM _load_graph_step g (nx.nodes_data g))) as [e He].
    { apply (foldM_raises _ _ _ (n, d)).
      - by apply elem_of_map_to_list.
      - intros b. exists KeyError. unfold _load_graph_step. simpl.
        by rewrite Hd. }
    rewrite He. f_equal.
    eapply foldM_raise_kind; [|exact He].
    intros ? ? ?. apply load_graph_step_raise_kind. }
  split; [done|]. intros cv cfgs slv. unfold __init__. by rewrite Hload.
Qed.

Lemma load_graph_untyped_node_raises_witness :
  _load_graph (Some Examples.untyped_graph) = Raise KeyError ∧
  ∀ cv cfgs slv,
    __init__ cv cfgs (Some Examples.untyped_graph) slv = Raise KeyError.
Proof.
  apply (load_graph_untyped_node_raises Examples.untyped_graph "b" ∅);
    reflexivity.
Defined.

(** C6, on the graph with the peer P: [_load_graph] drops P from the node
    dictionary, but the edges R1 -> P and P -> R2 stay in the adjacency, and
    the simple-path enumeration from R1 to R2 walks through P. *)
Theorem load_graph_keeps_edges_of_removed_nodes :
  ∃ g, _load_graph (Some Examples.peer_graph) = Ok g ∧
    nx.has_node g "P" = false ∧
    nx.has_edge g "R1" "P" = true ∧ nx.has_edge g "P" "R2" = true ∧
    nx.all_simple_paths g "R1" "R2"
      = Ok [["R1"; "R3"; "R2"]; ["R1"; "P"; "R2"]].
Proof. eexists. repeat split; vm_compute; reflexivity. Qed.

(** ** Registering and pushing requirements *)

(** C3, as the code has it: [add_path_req] never looks at the path.  It
    accepts every [PathReq], whatever the length of its path, and appends it
    to the requirements; it fails only for an argument that is not a
    [PathReq], and then with [AssertionError].  For the empty path the error
    is deferred: once it is registered [push_requirements] raises, with the
    [IndexError] of [path[0]] when the earlier requirements can be pushed. *)
Theorem add_path_req_accepts_any_path (self : OSPFSyn) (path : list string) :
  let self' :=
    {| base := base self; network_graph := network_graph self;
       solver := solver self; initial_configs := initial_configs self;
       reqs := reqs self ++ [PathReq path] |} in
  add_path_req self (PathReq path) = Ok (tt, self') ∧
  add_path_req self OtherReq = Raise AssertionError ∧
  (∀ req e, add_path_req self req = Raise e →
     req = OtherReq ∧ e = AssertionError) ∧
  (∀ s, push_req self' s (PathReq []) = Raise IndexError) ∧
  (path = [] → raises (push_requirements self')) ∧
  (path = [] → ∀ self1, push_requirements self = Ok (tt, self1) →
     push_requirements self' = Raise IndexError).
Proof.
  intros self'. split_and!; [reflexivity|reflexivity| |reflexivity| |].
  - intros [p|] e; simpl; [done|]. by intros [= <-].
  - intros ->.
    assert (raises (foldM (push_req self') (z3.push (solver self'))
                      (reqs self'))) as [e He].
    { apply (foldM_raises _ _ _ (PathReq [])).
      - apply elem_of_app. right. left.
      - intros s. by exists IndexError. }
    exists e. unfold push_requirements. by rewrite He.
  - intros -> self1. unfold push_requirements, self'. simpl.
    intros (s & Hs & _)%bind_Ok. rewrite foldM_app.
    change (push_req _) with (push_req self) at 2.
    by rewrite Hs.
Qed.

Lemma get_edge_no_edge g u v :
  nx.has_edge g u v = false → nx.get_edge g u v = Raise KeyError.
Proof.
  unfold nx.has_edge, nx.get_edge. destruct (nx.adj g !! u) as [nbrs|]; [|done].
  destruct (nbrs !! v) eqn:Hv; [|done].
  intros Hb. apply bool_decide_eq_false in Hb. destruct Hb. by eexists.
Qed.

Lemma get_edge_cost_raise_kind self u v e :
  _get_edge_cost self u v = Raise e → e = KeyError.
Proof.
  unfold _get_edge_cost, nx.get_edge, get_vertex.
  destruct (nx.adj (network_graph self) !! u) as [nbrs|]; simpl;
    [|by intros [= <-]].
  destruct (nbrs !! v); simpl; [|by intros [= <-]].
  case_bool_decide; [done|].
  destruct (name_to_vertex (base self) !! u); simpl; [|by intros [= <-]].
  destruct (name_to_vertex (base self) !! v); simpl; [done|by intros [= <-]].
Qed.

Lemma get_path_cost_no_edge self path u v :
  (u, v) ∈ consecutive path →
  nx.has_edge (network_graph self) u v = false →
  _get_path_cost self path = Raise KeyError.
Proof.
  intros Huv Hno. unfold _get_path_cost.
  destruct (traverse_raises (λ sd, _get_edge_cost self sd.1 sd.2)
              (consecutive path) (u, v) Huv) as [e He].
  { exists KeyError. unfold _get_edge_cost. simpl.
    by rewrite (get_edge_no_edge _ _ _ Hno). }
  rewrite He. simpl. f_equal.
  eapply traverse_raise_kind; [|exact He].
  intros [a b] e'. apply get_edge_cost_raise_kind.
Qed.

(** C4, as the code has it: when a registered requirement has a consecutive
    pair (u, v) without an edge u -> v in the graph, the adjacency lookup of
    [_get_edge_cost] raises [KeyError] while the cost of that path is built,
    and [push_requirements] ends with an exception. *)
Theorem push_requirements_missing_edge_raises (self : OSPFSyn)
  (path : list string) (u v : string) :
  PathReq path ∈ reqs self →
  (u, v) ∈ consecutive path →
  nx.has_edge (network_graph self) u v = false →
  _get_path_cost self path = Raise KeyError ∧ raises (push_requirements self).
Proof.
  intros Hreq Huv Hno.
  pose proof (get_path_cost_no_edge self path u v Huv Hno) as Hcost.
  split; [done|].
  assert (raises (foldM (push_req self) (z3.push (solver self)) (reqs self)))
    as [e He].
  { apply (foldM_raises _ _ _ (PathReq path)); [done|].
    intros s. simpl. destruct (py_first path) as [src|e]; simpl;
      [|by exists e].
    destruct (py_last path) as [dst|e]; simpl; [|by exists e].
    rewrite Hcost. by exists KeyError. }
  exists e. unfold push_requirements. by rewrite He.
Qed.

(** ** What [_load_graph] keeps *)

Lemma load_loop_spec l : ∀ g g',
  NoDup l.*1 →
  (∀ n d, (n, d) ∈ l → nx.node g !! n = Some d) →
  foldM _load_graph_step g l = Ok g' →
  nx.adj g' = nx.adj g ∧
  ∀ n, nx.node g' !! n =
    if bool_decide (n ∈ l.*1) then
      d ← nx.node g !! n;
      if bool_decide (d !! VERTEX_TYPE = Some NODE_TYPE) then Some d else None
    else nx.node g !! n.
Proof.
  induction l as [|[n d] l IH]; intros g g' Hnd Hl.
  - intros [= <-]. split; [done|]. intros n.
    case_bool_decide as Hin; [|done]. by apply not_elem_of_nil in Hin.
  - simpl. apply NoDup_cons in Hnd as [Hn Hnd].
    intros (g1 & Hstep & Hrest)%bind_Ok.
    assert (nx.node g !! n = Some d) as Hgn by (apply Hl; left).
    unfold _load_graph_step in Hstep. simpl in Hstep.
    destruct (d !! VERTEX_TYPE) as [ty|] eqn:Hty; [|done].
    case_bool_decide as Hne.
    + unfold nx.del_node_entry in Hstep. rewrite Hgn in Hstep.
      injection Hstep as <-.
      apply IH in Hrest as [Hadj Hnode]; [|done|].
      * split; [done|]. intros x. rewrite Hnode. simpl.
        destruct (decide (x = n)) as [->|Hx].
        -- rewrite (bool_decide_eq_false_2 _ Hn), lookup_delete_eq.
           rewrite bool_decide_eq_true_2 by left. rewrite Hgn. simpl.
           rewrite Hty. rewrite bool_decide_eq_false_2; [done|].
           intros [= ->]. done.
        -- rewrite lookup_delete_ne by done.
           destruct (decide (x ∈ l.*1)) as [Hin|Hin].
           ++ rewrite !bool_decide_eq_true_2; [done|by right|done].
           ++ rewrite !bool_decide_eq_false_2; [done| |done].
              by intros [?|?]%elem_of_cons.
      * intros n' d' Hin. simpl. rewrite lookup_delete_ne; [apply Hl; by right|].
        intros <-. apply Hn. apply list_elem_of_fmap. by exists (n, d').
    + subst ty. injection Hstep as <-.
      apply IH in Hrest as [Hadj Hnode]; [|done|].
      * split; [done|]. intros x. rewrite Hnode. simpl.
        destruct (decide (x = n)) as [->|Hx].
        -- rewrite (bool_decide_eq_false_2 _ Hn).
           rewrite bool_decide_eq_true_2 by left. rewrite Hgn. simpl.
           by rewrite Hty, bool_decide_eq_true_2.
        -- destruct (decide (x ∈ l.*1)) as [Hin|Hin].
           ++ rewrite !bool_decide_eq_true_2; [done|by right|done].
           ++ rewrite !bool_decide_eq_false_2; [done| |done].
              by intros [?|?]%elem_of_cons.
      * intros n' d' Hin. apply Hl. by right.
Qed.

(** The node dictionary of the loaded graph holds exactly the nodes tagged
    as routers, with their data; the adjacency is the one of the input. *)
Lemma load_graph_spec g g' :
  _load_graph (Some g) = Ok g' →
  (∀ n, nx.node g' !! n =
     d ← nx.node g !! n;
     if bool_decide (d !! VERTEX_TYPE = Some NODE_TYPE) then Some d
     else None) ∧
  (nx.len g ≠ 0%nat → nx.adj g' = nx.adj g).
Proof.
  unfold _load_graph. destruct (Nat.eqb_spec (nx.len g) 0) as [Hlen|Hlen].
  - pose proof (map_size_empty_inv _ Hlen) as Hempty.
    unfold nx.nodes_data. simpl. rewrite map_to_list_empty. simpl.
    intros [= <-]. split; [|done]. intros n. simpl.
    by rewrite Hempty, lookup_empty.
  - intros Hload. apply load_loop_spec in Hload as [Hadj Hnode].
    + split; [|done]. intros n. rewrite Hnode.
      case_bool_decide as Hin; [done|].
      destruct (nx.node g !! n) as [d|] eqn:Hn; [|done].
      destruct Hin. apply list_elem_of_fmap. exists (n, d).
      split; [done|]. by apply elem_of_map_to_list.
    + apply NoDup_fst_map_to_list.
    + intros n d Hin. by apply elem_of_map_to_list.
Qed.

Lemma elem_of_nodes g n : n ∈ nx.nodes g ↔ is_Some (nx.node g !! n).
Proof.
  unfold nx.nodes, nx.nodes_data. rewrite list_elem_of_fmap. split.
  - intros ([n' d] & -> & Hin). apply elem_of_map_to_list in Hin. by eexists.
  - intros [d Hd]. exists (n, d). split; [done|]. by apply elem_of_map_to_list.
Qed.

Lemma load_graph_nodes g g' n :
  _load_graph (Some g) = Ok g' → n ∈ nx.nodes g' ↔ router_node g n.
Proof.
  intros [Hnode _]%load_graph_spec. rewrite elem_of_nodes, Hnode.
  unfold router_node. destruct (nx.node g !! n) as [d|]; simpl.
  - case_bool_decide; split.
    + intros _. by exists d.
    + by eexists.
    + by intros [? ?].
    + intros (d' & [= <-] & ?). done.
  - split; [by intros [? ?] | by intros (? & ? & ?)].
Qed.

(** ** The solver only accumulates assertions *)

Lemma elem_of_assertions_add s c c' :
  c' ∈ z3.assertions (z3.add s c) ↔ c' = c ∨ c' ∈ z3.assertions s.
Proof.
  unfold z3.assertions, z3.add. destruct (z3.scopes s) as [|top rest]; simpl.
  - set_solver.
  - rewrite !elem_of_app, list_elem_of_singleton. tauto.
Qed.

Lemma assertions_push s : z3.assertions (z3.push s) = z3.assertions s.
Proof. reflexivity. Qed.

Lemma grows_refl s : grows s s.
Proof. by intros c. Qed.

Lemma grows_trans s1 s2 s3 : grows s1 s2 → grows s2 s3 → grows s1 s3.
Proof. intros H1 H2 c Hc. by apply H2, H1. Qed.

Lemma grows_add s c : grows s (z3.add s c).
Proof. intros c' Hc'. apply elem_of_assertions_add. by right. Qed.

Lemma grows_add_r s1 s2 c : grows s1 s2 → grows s1 (z3.add s2 c).
Proof. intros H. eapply grows_trans; [done | apply grows_add]. Qed.

Lemma foldM_grows {A} (f : z3.Solver → A → Res z3.Solver) l s s' :
  (∀ x s1 s2, f s1 x = Ok s2 → grows s1 s2) →
  foldM f s l = Ok s' → grows s s'.
Proof.
  intros Hf. apply (foldM_inv (grows s)); [|apply grows_refl].
  intros x s1 s2 _ H1 H2. eapply grows_trans; [done | by eapply Hf].
Qed.

Lemma encode_pair_grows b g src s dst s' :
  encode_pair b g src s dst = Ok s' → grows s s'.
Proof.
  unfold encode_pair. case_bool_decide.
  { intros [= <-]. apply grows_refl. }
  destruct (get_vertex b src) as [sv|]; simpl; [|done].
  destruct (get_vertex b dst) as [dv|]; simpl; [|done].
  destruct (nx.has_edge g src dst).
  - destruct (nx.get_edge g src dst) as [d|]; simpl; [|done].
    destruct (nx.cost d) as [c|]; [case_bool_decide|];
      intros [= <-]; apply grows_add_r, grows_add.
  - intros [= <-]. apply grows_add.
Qed.

Lemma encode_row_grows b g s src s' :
  encode_row b g s src = Ok s' → grows s s'.
Proof.
  unfold encode_row. case_bool_decide.
  { intros [= <-]. apply grows_refl. }
  apply foldM_grows. intros x s1 s2. apply encode_pair_grows.
Qed.

Lemma push_alternative_grows self path pc s sp s' :
  push_alternative self path pc s sp = Ok s' → grows s s'.
Proof.
  unfold push_alternative. case_bool_decide.
  - destruct (_get_path_cost self sp); simpl; [|done].
    intros [= <-]. apply grows_add.
  - intros [= <-]. apply grows_refl.
Qed.

Lemma push_req_grows self s req s' :
  push_req self s req = Ok s' → grows s s'.
Proof.
  destruct req as [path|]; simpl; [|intros [= <-]; apply grows_refl].
  destruct (py_first path); simpl; [|done].
  destruct (py_last path); simpl; [|done].
  destruct (_get_path_cost self path); simpl; [|done].
  destruct (nx.all_simple_paths _ _ _); simpl; [|done].
  apply foldM_grows. intros x s1 s2. apply push_alternative_grows.
Qed.

Lemma models_of_modelsb m s : z3.modelsb m s = true → z3.models m s.
Proof.
  unfold z3.modelsb, z3.models. rewrite forallb_forall.
  intros H c Hc. apply H. by apply list_elem_of_In.
Qed.

(** ** What the annotation loop does to the graph *)

Lemma set_edge_cost_get_edge g s d c g1 u v :
  nx.set_edge_cost g s d c = Ok g1 →
  nx.get_edge g1 u v =
    if bool_decide (u = s ∧ v = d) then
      e ← nx.get_edge g s d;
      Ok {| nx.cost := Some c; nx.edge_attrs := nx.edge_attrs e |}
    else nx.get_edge g u v.
Proof.
  unfold nx.set_edge_cost. destruct (nx.get_edge g s d) as [e|] eqn:He;
    simpl; [|done].
  intros [= <-]. unfold nx.get_edge in *. simpl.
  destruct (nx.adj g !! s) as [nbrs|] eqn:Hs; [|done]. simpl.
  destruct (decide (u = s)) as [->|Hu].
  - rewrite lookup_insert_eq. destruct (decide (v = d)) as [->|Hv].
    + by rewrite lookup_insert_eq, bool_decide_eq_true_2.
    + rewrite lookup_insert_ne by done. rewrite Hs.
      rewrite bool_decide_eq_false_2; [done|]. by intros [_ ?].
  - rewrite lookup_insert_ne by done.
    rewrite bool_decide_eq_false_2; [done|]. by intros [? _].
Qed.

Lemma has_edge_get_edge g u v :
  nx.has_edge g u v = true ↔ ∃ d, nx.get_edge g u v = Ok d.
Proof.
  unfold nx.has_edge, nx.get_edge. destruct (nx.adj g !! u) as [nbrs|].
  - destruct (nbrs !! v) as [d|] eqn:Hv.
    + rewrite bool_decide_eq_true. split; [by exists d | by eexists].
    + rewrite bool_decide_eq_true. split; [by intros [? ?] | by intros [? ?]].
  - split; [done | by intros [? ?]].
Qed.

Lemma has_edge_true_iff g1 g2 u v :
  ((∃ d, nx.get_edge g1 u v = Ok d) ↔ (∃ d, nx.get_edge g2 u v = Ok d)) →
  nx.has_edge g1 u v = nx.has_edge g2 u v.
Proof.
  rewrite <- !has_edge_get_edge.
  destruct (nx.has_edge g1 u v), (nx.has_edge g2 u v); intuition congruence.
Qed.

Lemma set_edge_cost_has_edge g s d c g1 u v :
  nx.set_edge_cost g s d c = Ok g1 →
  nx.has_edge g1 u v = nx.has_edge g u v.
Proof.
  intros Hset. apply has_edge_true_iff.
  rewrite (set_edge_cost_get_edge _ _ _ _ _ u v Hset).
  unfold nx.set_edge_cost in Hset.
  destruct (nx.get_edge g s d) as [e|] eqn:He; [|done]. simpl.
  case_bool_decide as Huv; [|done]. destruct Huv as [-> ->].
  rewrite He. split; intros _; by eexists.
Qed.

Lemma annotate_spec cfgs : ∀ g g',
  foldM annotate_cost g cfgs = Ok g' →
  nx.node g' = nx.node g ∧
  (∀ u v, nx.has_edge g' u v = nx.has_edge g u v) ∧
  (∀ u v, edge_cost_of g' u v = fixed_cost cfgs g u v).
Proof.
  unfold fixed_cost.
  induction cfgs as [|cfg cfgs IH]; intros g g'; simpl.
  - intros [= <-]. done.
  - intros (g1 & Hstep & Hrest)%bind_Ok.
    apply IH in Hrest as (Hnode & Hedge & Hcost).
    destruct cfg as [s d c|]; simpl in Hstep.
    + split; [|split].
      * rewrite Hnode. unfold nx.set_edge_cost in Hstep.
        destruct (nx.get_edge g s d); [|done]. by injection Hstep as <-.
      * intros u v. rewrite Hedge. by eapply set_edge_cost_has_edge.
      * intros u v. rewrite Hcost. f_equal. unfold edge_cost_of.
        rewrite (set_edge_cost_get_edge _ _ _ _ _ u v Hstep).
        unfold nx.set_edge_cost in Hstep.
        destruct (nx.get_edge g s d) as [e|] eqn:He; [|done]. simpl.
        case_bool_decide as Huv.
        -- destruct Huv as [-> ->]. by rewrite bool_decide_eq_true_2.
        -- rewrite bool_decide_eq_false_2; [done|]. intros [<- <-]. by apply Huv.
    + injection Hstep as <-. done.
Qed.

(** ** The baseline encoding *)

Lemma get_vertex_Ok b n v : get_vertex b n = Ok v ↔ name_to_vertex b !! n = Some v.
Proof.
  unfold get_vertex. destruct (name_to_vertex b !! n); split; congruence.
Qed.

Lemma encode_pair_asserts self u s v s' :
  encode_pair (base self) (network_graph self) u s v = Ok s' →
  v ∉ network_names (base self) →
  grows s' (solver self) →
  pair_encoded self u v.
Proof.
  unfold encode_pair, pair_encoded. intros Henc Hv Hgrow.
  rewrite bool_decide_eq_false_2 in Henc by done.
  destruct (get_vertex (base self) u) as [su|] eqn:Hsu; simpl in Henc; [|done].
  destruct (get_vertex (base self) v) as [sv|] eqn:Hsv; simpl in Henc; [|done].
  apply get_vertex_Ok in Hsu, Hsv. exists su, sv. split; [done|]. split; [done|].
  unfold edge_cost_of.
  destruct (nx.has_edge (network_graph self) u v).
  - destruct (nx.get_edge (network_graph self) u v) as [d|]; simpl in Henc;
      [|done].
    destruct (nx.cost d) as [c|]; [case_bool_decide|];
      injection Henc as <-; split; apply Hgrow;
      rewrite !elem_of_assertions_add; auto.
  - injection Henc as <-. apply Hgrow.
    rewrite !elem_of_assertions_add; auto.
Qed.

Lemma encode_loops_assert self s0 :
  foldM (encode_row (base self) (network_graph self)) s0
    (nx.nodes (network_graph self)) = Ok (solver self) →
  baseline_asserted self.
Proof.
  intros Hfold u v [Hu Hnu] [Hv Hnv].
  destruct (foldM_visit _ _ _ _ u Hu Hfold)
    as (l1 & l2 & s1 & s2 & _ & _ & Hrow & Hrest).
  apply foldM_grows in Hrest;
    [|intros x a b; apply encode_row_grows].
  unfold encode_row in Hrow. rewrite bool_decide_eq_false_2 in Hrow by done.
  destruct (foldM_visit _ _ _ _ v Hv Hrow)
    as (k1 & k2 & t1 & t2 & _ & _ & Hpair & Hrest').
  apply foldM_grows in Hrest';
    [|intros x a b; apply encode_pair_grows].
  eapply encode_pair_asserts; [done..|].
  by eapply grows_trans.
Qed.

Lemma read_input_graph_spec self self' :
  _read_input_graph self = Ok self' →
  base self' = base self ∧ reqs self' = reqs self ∧
  foldM annotate_cost (network_graph self) (initial_configs self)
    = Ok (network_graph self') ∧
  grows (solver self) (solver self') ∧
  baseline_asserted self'.
Proof.
  unfold _read_input_graph.
  intros (g & Hg & (s & Hs & [= <-])%bind_Ok)%bind_Ok. simpl.
  repeat split; try done.
  - eapply foldM_grows; [|exact Hs]. intros x a b. apply encode_row_grows.
  - by eapply encode_loops_assert.
Qed.

(** What construction establishes. *)
Lemma init_spec cv cfgs og slv self0 :
  __init__ cv cfgs og slv = Ok self0 →
  ∃ g1, _load_graph og = Ok g1 ∧
    base self0 = cv (default [] cfgs) g1 ∧
    reqs self0 = [] ∧
    foldM annotate_cost g1 (default [] cfgs) = Ok (network_graph self0) ∧
    grows (default z3.new_solver slv) (solver self0) ∧
    baseline_asserted self0.
Proof.
  unfold __init__. intros (g1 & Hload & Hread)%bind_Ok.
  apply read_input_graph_spec in Hread as (? & ? & ? & ? & ?).
  exists g1. done.
Qed.

(** ** Sessions *)

Lemma step_spec self self' :
  step self self' →
  base self' = base self ∧ network_graph self' = network_graph self ∧
  grows (solver self) (solver self').
Proof.
  intros [s req s' Hadd|s s' Hpush|s slv Hcheck].
  - destruct req; simpl in Hadd; [|done]. injection Hadd as <-. simpl.
    repeat split. apply grows_refl.
  - unfold push_requirements in Hpush.
    apply bind_Ok in Hpush as (slv & Hfold & [= <-]). simpl.
    repeat split. intros c Hc. eapply foldM_grows; [|exact Hfold|].
    + intros x a b. apply push_req_grows.
    + by rewrite assertions_push.
  - destruct Hcheck. simpl. repeat split. by intros c Hc.
Qed.

Lemma session_spec self0 self :
  session self0 self →
  base self = base self0 ∧ network_graph self = network_graph self0 ∧
  grows (solver self0) (solver self).
Proof.
  induction 1 as [s|s1 s2 s3 Hstep _ IH].
  - repeat split. apply grows_refl.
  - apply step_spec in Hstep as (Hb & Hg & Hgrow).
    destruct IH as (Hb' & Hg' & Hgrow').
    repeat split; [congruence..|]. by eapply grows_trans.
Qed.

Lemma pair_encoded_mono self self' u v :
  base self' = base self → network_graph self' = network_graph self →
  grows (solver self) (solver self') →
  pair_encoded self u v → pair_encoded self' u v.
Proof.
  unfold pair_encoded. intros -> -> Hgrow (su & sv & Hsu & Hsv & H).
  exists su, sv. split; [done|]. split; [done|].
  destruct (nx.has_edge _ u v).
  - destruct H as [He Hc]. split; [by apply Hgrow|].
    destruct (edge_cost_of _ u v); [case_bool_decide|]; by apply Hgrow.
  - by apply Hgrow.
Qed.

(** The baseline assertions stay in place for the whole session. *)
Lemma session_baseline cv cfgs og slv self0 self :
  __init__ cv cfgs og slv = Ok self0 → session self0 self →
  baseline_asserted self.
Proof.
  intros (g1 & _ & _ & _ & _ & _ & Hbase)%init_spec
    (Hb & Hg & Hgrow)%session_spec u v [Hu Hnu] [Hv Hnv].
  eapply pair_encoded_mono; [done..|].
  apply Hbase; split; congruence.
Qed.

Lemma router_node_nonempty g n : router_node g n → nx.len g ≠ 0%nat.
Proof.
  intros (d & Hd & _) Hlen. apply map_size_empty_inv in Hlen.
  rewrite Hlen in Hd. by rewrite lookup_empty in Hd.
Qed.

Lemma has_edge_adj g1 g2 u v :
  nx.adj g1 = nx.adj g2 → nx.has_edge g1 u v = nx.has_edge g2 u v.
Proof. unfold nx.has_edge. by intros ->. Qed.

Lemma edge_cost_of_adj g1 g2 u v :
  nx.adj g1 = nx.adj g2 → edge_cost_of g1 u v = edge_cost_of g2 u v.
Proof. unfold edge_cost_of, nx.get_edge. by intros ->. Qed.

(** The graph the session reasons over, in terms of the input graph. *)
Lemma init_topology cv cfgs g slv self0 :
  __init__ cv cfgs (Some g) slv = Ok self0 →
  (∀ n, n ∈ nx.nodes (network_graph self0) ↔ router_node g n) ∧
  (nx.len g ≠ 0%nat → ∀ u v,
     nx.has_edge (network_graph self0) u v = nx.has_edge g u v ∧
     edge_cost_of (network_graph self0) u v
       = fixed_cost (default [] cfgs) g u v).
Proof.
  intros (g1 & Hload & _ & _ & Hann & _)%init_spec.
  apply annotate_spec in Hann as (Hnode & Hedge & Hcost).
  split.
  - intros n. rewrite <- (load_graph_nodes g g1 n Hload).
    by rewrite !elem_of_nodes, Hnode.
  - intros Hlen u v. apply load_graph_spec in Hload as [_ Hadj].
    specialize (Hadj Hlen). split.
    + rewrite Hedge. by apply has_edge_adj.
    + rewrite Hcost. unfold fixed_cost. f_equal. by apply edge_cost_of_adj.
Qed.

(** ** The flat list of edge costs *)

Lemma elem_of_vertex_items self n v :
  (n, v) ∈ vertex_items self ↔ name_to_vertex (base self) !! n = Some v.
Proof. apply elem_of_map_to_list. Qed.

Lemma elem_of_flat_map {A B} (f : A → list B) l y :
  y ∈ flat_map f l ↔ ∃ x, x ∈ l ∧ y ∈ f x.
Proof.
  rewrite list_elem_of_In, in_flat_map. split; intros (x & Hx & Hy); exists x.
  - by rewrite !list_elem_of_In.
  - by rewrite <- !list_elem_of_In.
Qed.

Lemma elem_of_output_configs self m out self' u v c :
  solved self m → get_output_configs self = Ok (out, self') →
  SetOSPFEdgeCost u v c ∈ out ↔
  ∃ su sv, name_to_vertex (base self) !! u = Some su ∧
    name_to_vertex (base self) !! v = Some sv ∧
    z3.edge_interp m su sv = true ∧ c = z3.cost_interp m su sv.
Proof.
  intros [Hm _]. unfold get_output_configs, z3.model. rewrite Hm. simpl.
  intros [= <- <-]. rewrite elem_of_flat_map. split.
  - intros ([u' su] & Hu & Hin). apply elem_of_flat_map in Hin
      as ([v' sv] & Hv & Hin).
    unfold output_config in Hin. simpl in Hin.
    destruct (z3.edge_interp m su sv) eqn:He; [|by apply elem_of_nil in Hin].
    apply list_elem_of_singleton in Hin. injection Hin as -> -> ->.
    apply elem_of_vertex_items in Hu, Hv. by exists su, sv.
  - intros (su & sv & Hu & Hv & He & ->).
    exists (u, su). split; [by apply elem_of_vertex_items|].
    apply elem_of_flat_map. exists (v, sv).
    split; [by apply elem_of_vertex_items|].
    unfold output_config. simpl. rewrite He. by left.
Qed.

(** C5: for routers u and v of the input graph (tagged as routers, not
    destination networks), after a satisfiable solve [get_output_configs]
    lists a triple for (u, v) exactly when the input graph has the edge
    u -> v; without the edge no triple for (u, v) is ever listed. *)
Theorem output_configs_follow_topology cv cfgs g slv self0 self m out self'
  (u v : string) :
  __init__ cv cfgs (Some g) slv = Ok self0 →
  session self0 self →
  solved self m →
  get_output_configs self = Ok (out, self') →
  router_node g u → router_node g v →
  u ∉ network_names (base self) → v ∉ network_names (base self) →
  (nx.has_edge g u v = false → ∀ c, SetOSPFEdgeCost u v c ∉ out) ∧
  (nx.has_edge g u v = true → ∃ c, SetOSPFEdgeCost u v c ∈ out).
Proof.
  intros Hinit Hsess Hsolved Hout Hu Hv Hnu Hnv.
  pose proof (session_baseline _ _ _ _ _ _ Hinit Hsess) as Hbase.
  pose proof (session_spec _ _ Hsess) as (_ & Hg & _).
  pose proof (init_topology _ _ _ _ _ Hinit) as [Hnodes Hedges].
  specialize (Hedges (router_node_nonempty _ _ Hu) u v) as [Hedge _].
  destruct (Hbase u v) as (su & sv & Hsu & Hsv & Henc).
  { split; [|done]. rewrite Hg. by apply Hnodes. }
  { split; [|done]. rewrite Hg. by apply Hnodes. }
  rewrite Hg, Hedge in Henc. destruct Hsolved as [Hm Hmodels].
  split; intros Hhas; rewrite Hhas in Henc.
  - intros c Hin.
    apply (elem_of_output_configs self m out self') in Hin
      as (su' & sv' & Hsu' & Hsv' & He & _); [|done..].
    apply Hmodels in Henc. simpl in Henc.
    assert (su' = su) as -> by congruence.
    assert (sv' = sv) as -> by congruence.
    by rewrite He in Henc.
  - destruct Henc as [Henc _]. apply Hmodels in Henc. simpl in Henc.
    exists (z3.cost_interp m su sv).
    apply (elem_of_output_configs self m out self'); [done..|].
    by exists su, sv.
Qed.

(** ** The example sessions *)

Lemma tri0_built :
  __init__ Examples.registry None (Some (Examples.triangle (Some 5))) None
  = Ok Examples.tri0.
Proof. vm_compute. reflexivity. Qed.

Lemma tri_session : session Examples.tri0 Examples.tri3.
Proof.
  eapply rtc_l.
  { apply (step_add_path_req _ (PathReq ["a"; "b"; "c"]) Examples.tri1).
    reflexivity. }
  eapply rtc_l.
  { apply (step_push_requirements _ Examples.tri2). vm_compute. reflexivity. }
  eapply rtc_l; [|apply rtc_refl].
  apply step_check, (z3.check_sat_model _ (Examples.triangle_model 5 10 1)).
  apply models_of_modelsb. vm_compute. reflexivity.
Qed.

Lemma tri3_solved : solved Examples.tri3 (Examples.triangle_model 5 10 1).
Proof.
  split; [reflexivity|]. apply models_of_modelsb. vm_compute. reflexivity.
Qed.

Lemma not_elem_of_network_names (x : string) :
  x ≠ "n" → x ∉ network_names (base Examples.tri3).
Proof. intros Hx Hin. apply list_elem_of_singleton in Hin. done. Qed.

Lemma output_configs_follow_topology_witness :
  ∃ out self',
    get_output_configs Examples.tri3 = Ok (out, self') ∧
    (nx.has_edge (Examples.triangle (Some 5)) "b" "a" = false →
     ∀ c, SetOSPFEdgeCost "b" "a" c ∉ out) ∧
    (nx.has_edge (Examples.triangle (Some 5)) "b" "a" = true →
     ∃ c, SetOSPFEdgeCost "b" "a" c ∈ out).
Proof.
  eexists _, _. split; [vm_compute; reflexivity|].
  eapply (output_configs_follow_topology _ _ _ _ _ _ _ _ _ "b" "a"
            tri0_built tri_session tri3_solved).
  - vm_compute. reflexivity.
  - eexists. split; reflexivity.
  - eexists. split; reflexivity.
  - by apply not_elem_of_network_names.
  - by apply not_elem_of_network_names.
Defined.

Lemma add_path_req_accepts_any_path_witness :
  raises (push_requirements
            (Examples.after (add_path_req Examples.tri0 (PathReq [])))) ∧
  push_requirements
    (Examples.after (add_path_req Examples.tri0 (PathReq [])))
  = Raise IndexError.
Proof.
  destruct (add_path_req_accepts_any_path Examples.tri0 [])
    as (_ & _ & _ & _ & H1 & H2).
  split; [exact (H1 eq_refl)|].
  eapply (H2 eq_refl). vm_compute. reflexivity.
Defined.

(** C3 as stated fails: the empty path has fewer than two nodes and
    [add_path_req] registers it without raising. *)
Lemma add_path_req_short_path_accepted :
  (length (@nil string) < 2)%nat ∧
  ¬ raises (add_path_req Examples.tri0 (PathReq [])).
Proof. split; [simpl; lia|]. intros [e He]. discriminate He. Qed.

(** C4 as stated fails: with the requirement [a, b] on two routers without
    a link, [push_requirements] raises [KeyError]. *)
Lemma push_requirements_missing_edge_counterexample :
  PathReq ["a"; "b"] ∈ reqs Examples.unlinked1 ∧
  nx.has_edge (network_graph Examples.unlinked1) "a" "b" = false ∧
  push_requirements Examples.unlinked1 = Raise KeyError.
Proof. repeat split; vm_compute; [left | reflexivity..]. Qed.

Lemma push_requirements_missing_edge_raises_witness :
  _get_path_cost Examples.unlinked1 ["a"; "b"] = Raise KeyError ∧
  raises (push_requirements Examples.unlinked1).
Proof.
  apply (push_requirements_missing_edge_raises Examples.unlinked1
           ["a"; "b"] "a" "b").
  - vm_compute. left.
  - left.
  - reflexivity.
Defined.

(** ** Building a graph with [add_node] and [add_edge] *)

Lemma get_edge_ensure_node g n u v :
  nx.get_edge (nx.ensure_node g n) u v = nx.get_edge g u v.
Proof.
  unfold nx.ensure_node, nx.get_edge.
  destruct (nx.adj g !! n) eqn:Hn; [done|]. simpl.
  destruct (decide (u = n)) as [->|Hu].
  - by rewrite lookup_insert_eq, Hn, lookup_empty.
  - by rewrite lookup_insert_ne.
Qed.

Lemma get_edge_add_node g n a g' u v :
  nx.add_node g n a = Ok g' → nx.get_edge g' u v = nx.get_edge g u v.
Proof.
  unfold nx.add_node, nx.get_edge.
  destruct (nx.adj g !! n) eqn:Hn.
  - destruct (nx.node g !! n); [|done]. by intros [= <-].
  - intros [= <-]. simpl. destruct (decide (u = n)) as [->|Hu].
    + by rewrite lookup_insert_eq, Hn, lookup_empty.
    + by rewrite lookup_insert_ne.
Qed.

Lemma get_edge_set_edge g1 s d c a u v :
  nx.get_edge
    {| nx.graph := nx.graph g1; nx.node := nx.node g1;
       nx.adj :=
         <[s := <[d := {| nx.cost := Some c;
                          nx.edge_attrs :=
                            a ∪ default ∅
                                  (nx.edge_attrs <$>
                                     default ∅ (nx.adj g1 !! s) !! d) |}]>
                  (default ∅ (nx.adj g1 !! s))]> (nx.adj g1) |} u v =
    if bool_decide (u = s ∧ v = d) then
      Ok {| nx.cost := Some c;
            nx.edge_attrs :=
              a ∪ match nx.get_edge g1 s d with
                  | Ok e => nx.edge_attrs e
                  | Raise _ => ∅
                  end |}
    else nx.get_edge g1 u v.
Proof.
  unfold nx.get_edge. simpl.
  destruct (decide (u = s)) as [->|Hu].
  - rewrite lookup_insert_eq. destruct (decide (v = d)) as [->|Hv].
    + rewrite lookup_insert_eq, bool_decide_eq_true_2 by done.
      do 2 f_equal. destruct (nx.adj g1 !! s) as [nbrs|]; simpl.
      * by destruct (nbrs !! d).
      * by rewrite lookup_empty.
    + rewrite lookup_insert_ne by done.
      rewrite bool_decide_eq_false_2 by (by intros [_ ?]).
      destruct (nx.adj g1 !! s) as [nbrs|]; simpl; [done|].
      by rewrite lookup_empty.
  - rewrite lookup_insert_ne by done.
    by rewrite bool_decide_eq_false_2 by (by intros [? _]).
Qed.

Lemma get_edge_add_edge g s d c a u v :
  nx.get_edge (nx.add_edge g s d c a) u v =
    if bool_decide (u = s ∧ v = d) then
      Ok {| nx.cost := Some c;
            nx.edge_attrs :=
              a ∪ match nx.get_edge g s d with
                  | Ok e => nx.edge_attrs e
                  | Raise _ => ∅
                  end |}
    else nx.get_edge g u v.
Proof.
  unfold nx.add_edge. cbv zeta. rewrite get_edge_set_edge.
  by rewrite !get_edge_ensure_node.
Qed.

Lemma consistent_empty : consistent nx.empty.
Proof. intros n [x Hx]. simpl in Hx. by rewrite lookup_empty in Hx. Qed.

Lemma add_node_consistent g n a :
  consistent g → ∃ g', nx.add_node g n a = Ok g' ∧ consistent g' ∧
    ∀ x, is_Some (nx.node g' !! x) ↔ x = n ∨ is_Some (nx.node g !! x).
Proof.
  intros Hc. unfold nx.add_node. destruct (nx.adj g !! n) eqn:Hn.
  - destruct (Hc n) as [old Hold]; [by eexists|]. rewrite Hold.
    eexists. split; [done|]. split.
    + intros x Hx. simpl in *. apply Hc in Hx.
      destruct (decide (x = n)) as [->|?].
      * rewrite lookup_insert_eq. by eexists.
      * by rewrite lookup_insert_ne.
    + intros x. simpl. destruct (decide (x = n)) as [->|?].
      * rewrite lookup_insert_eq. split; [by left | by eexists].
      * rewrite lookup_insert_ne by done. naive_solver.
  - eexists. split; [done|]. split.
    + intros x. simpl. destruct (decide (x = n)) as [->|?].
      * rewrite !lookup_insert_eq. by eexists.
      * rewrite !lookup_insert_ne by done. apply Hc.
    + intros x. simpl. destruct (decide (x = n)) as [->|?].
      * rewrite lookup_insert_eq. split; [by left | by eexists].
      * rewrite lookup_insert_ne by done. naive_solver.
Qed.

Lemma ensure_node_consistent g n :
  consistent g → consistent (nx.ensure_node g n) ∧
    ∀ x, is_Some (nx.node (nx.ensure_node g n) !! x)
         ↔ x = n ∨ is_Some (nx.node g !! x).
Proof.
  intros Hc. unfold nx.ensure_node. destruct (nx.adj g !! n) eqn:Hn.
  - split; [done|]. intros x. split; [by right|].
    intros [->|?]; [|done]. apply Hc. by eexists.
  - split.
    + intros x. simpl. destruct (decide (x = n)) as [->|?].
      * rewrite !lookup_insert_eq. by eexists.
      * rewrite !lookup_insert_ne by done. apply Hc.
    + intros x. simpl. destruct (decide (x = n)) as [->|?].
      * rewrite lookup_insert_eq. split; [by left | by eexists].
      * rewrite lookup_insert_ne by done. naive_solver.
Qed.

Lemma add_edge_consistent g s d c a :
  consistent g → consistent (nx.add_edge g s d c a) ∧
    ∀ x, is_Some (nx.node (nx.add_edge g s d c a) !! x)
         ↔ x = s ∨ x = d ∨ is_Some (nx.node g !! x).
Proof.
  intros Hc.
  destruct (ensure_node_consistent g s Hc) as [Hc1 Hn1].
  destruct (ensure_node_consistent _ d Hc1) as [Hc2 Hn2].
  unfold nx.add_edge.
  assert (is_Some (nx.adj (nx.ensure_node (nx.ensure_node g s) d) !! s))
    as Hs.
  { unfold nx.ensure_node at 1.
    destruct (nx.adj (nx.ensure_node g s) !! d) eqn:Hd.
    - unfold nx.ensure_node. destruct (nx.adj g !! s) eqn:Hs; [by eexists|].
      simpl. rewrite lookup_insert_eq. by eexists.
    - simpl. destruct (decide (s = d)) as [->|?].
      + rewrite lookup_insert_eq. by eexists.
      + rewrite lookup_insert_ne by done.
        unfold nx.ensure_node. destruct (nx.adj g !! s) eqn:Hs; [by eexists|].
        simpl. rewrite lookup_insert_eq. by eexists. }
  revert Hc2 Hn2 Hs.
  generalize (nx.ensure_node (nx.ensure_node g s) d). intros g1 Hc2 Hn2 Hs.
  split.
  - intros x. simpl. destruct (decide (x = s)) as [->|?].
    + intros _. by apply Hc2.
    + rewrite lookup_insert_ne by done. apply Hc2.
  - intros x. simpl. rewrite Hn2, Hn1. naive_solver.
Qed.

Lemma extends_refl g : extends g g.
Proof. by split. Qed.

Lemma extends_trans g1 g2 g3 : extends g1 g2 → extends g2 g3 → extends g1 g3.
Proof. intros [H1 H2] [H3 H4]. split; eauto. Qed.

Lemma add_node_extends g n a g' : nx.add_node g n a = Ok g' → extends g g'.
Proof.
  intros Hadd. split.
  - intros x. unfold nx.add_node in Hadd.
    destruct (nx.adj g !! n); [destruct (nx.node g !! n) eqn:Hn; [|done]|];
      injection Hadd as <-; simpl;
      (destruct (decide (x = n)) as [->|?];
       [rewrite lookup_insert_eq; by eexists
       |by rewrite lookup_insert_ne by done]).
  - intros u v. rewrite !has_edge_get_edge.
    by rewrite (get_edge_add_node _ _ _ _ u v Hadd).
Qed.

Lemma add_edge_extends g s d c a : extends g (nx.add_edge g s d c a).
Proof.
  split.
  - intros x Hx. unfold nx.add_edge. simpl.
    assert (∀ g0 n, is_Some (nx.node g0 !! x)
                    → is_Some (nx.node (nx.ensure_node g0 n) !! x)) as Hens.
    { intros g0 n Hg0. unfold nx.ensure_node.
      destruct (nx.adj g0 !! n); [done|]. simpl.
      destruct (decide (x = n)) as [->|?].
      - rewrite lookup_insert_eq. by eexists.
      - by rewrite lookup_insert_ne. }
    by apply Hens, Hens.
  - intros u v. rewrite !has_edge_get_edge, get_edge_add_edge.
    case_bool_decide; [by eexists | done].
Qed.

(** A loop that cannot raise under the invariant [P], moves the
    accumulator along the preorder [R], and leaves for each element a fact
    [Q] that [R] preserves. *)
Lemma foldM_loop {A B} (P : B → Prop) (R : B → B → Prop) (Q : A → B → Prop)
  (f : B → A → Res B) l b :
  (∀ b1, R b1 b1) →
  (∀ b1 b2 b3, R b1 b2 → R b2 b3 → R b1 b3) →
  (∀ x b1 b2, R b1 b2 → Q x b1 → Q x b2) →
  (∀ x b1, x ∈ l → P b1 → ∃ b2, f b1 x = Ok b2 ∧ P b2 ∧ R b1 b2 ∧ Q x b2) →
  P b →
  ∃ b', foldM f b l = Ok b' ∧ P b' ∧ R b b' ∧ ∀ x, x ∈ l → Q x b'.
Proof.
  intros Hrefl Htrans Hmono. revert b.
  induction l as [|y l IH]; intros b Hstep Hb; simpl.
  - exists b. repeat split; [done..|]. intros x Hx. by apply elem_of_nil in Hx.
  - destruct (Hstep y b) as (b1 & Hy & Hb1 & Hr & Hq); [by left|done|].
    rewrite Hy. simpl.
    destruct (IH b1) as (b' & Hfold & Hb' & Hr' & Hq'); [|done|].
    { intros x b2 Hx. apply Hstep. by right. }
    exists b'. repeat split; [done..|by eapply Htrans|].
    intros x [->|Hx]%elem_of_cons; [by eapply Hmono | by apply Hq'].
Qed.

(** ** The output topology graph *)

Section output_graph.
Variables (self : OSPFSyn) (m : z3.ModelRef).

Lemma model_edge_cost_Some u v su sv :
  name_to_vertex (base self) !! u = Some su →
  name_to_vertex (base self) !! v = Some sv →
  z3.edge_interp m su sv = true →
  model_edge_cost self m u v = Some (z3.cost_interp m su sv).
Proof. unfold model_edge_cost. by intros -> -> ->. Qed.

Lemma output_graph_pair_spec sv g dv :
  sv ∈ vertex_items self → dv ∈ vertex_items self →
  output_graph_inv self m g →
  ∃ g', output_graph_pair self m sv g dv = Ok g' ∧
    output_graph_inv self m g' ∧ extends g g' ∧
    (is_Some (nx.node g' !! dv.1) ∧
     (z3.edge_interp m sv.2 dv.2 = true →
      nx.has_edge g' sv.1 dv.1 = true)).
Proof.
  destruct sv as [src src_v], dv as [dst dst_v].
  intros Hs%elem_of_vertex_items Hd%elem_of_vertex_items (Hc & Hn & He).
  unfold output_graph_pair. simpl.
  assert (∃ g1, (if nx.has_node g dst then Ok g
                 else nx.add_node g dst
                        (_get_vertex_attributes (base self)
                           (network_graph self) (ByVertex dst_v))) = Ok g1 ∧
            output_graph_inv self m g1 ∧ extends g g1 ∧
            is_Some (nx.node g1 !! dst))
    as (g1 & -> & (Hc1 & Hn1 & He1) & Hext & Hdst).
  { unfold nx.has_node. case_bool_decide as Hhas.
    - exists g. split_and!; [done| |apply extends_refl|done].
      by split_and!.
    - destruct (add_node_consistent g dst
                  (_get_vertex_attributes (base self) (network_graph self)
                     (ByVertex dst_v)) Hc) as (g1 & Hadd & Hc1 & Hn1).
      exists g1. split_and!; [done| |by eapply add_node_extends|].
      + split_and!; [done| |].
        * intros n [->|Hin]%Hn1; [by eexists | by apply Hn].
        * intros u v d. rewrite (get_edge_add_node _ _ _ _ u v Hadd).
          apply He.
      + apply Hn1. by left. }
  simpl. destruct (z3.edge_interp m src_v dst_v) eqn:Hedge.
  - eexists. split; [done|].
    destruct (add_edge_consistent g1 src dst (z3.cost_interp m src_v dst_v)
      (_get_edge_attributes (base self) (ByVertex src_v) (ByVertex dst_v)) Hc1)
      as [Hc2 Hn2].
    split_and!.
    + split_and!; [done| |].
      * intros n [->|[->|Hin]]%Hn2; [by eexists..|by apply Hn1].
      * intros u v d. rewrite get_edge_add_edge. case_bool_decide as Huv.
        -- destruct Huv as [-> ->]. intros [= <-]. simpl. eexists.
           split; [|done]. by apply model_edge_cost_Some.
        -- apply He1.
    + eapply extends_trans; [done | apply add_edge_extends].
    + apply Hn2. auto.
    + intros _. apply has_edge_get_edge. rewrite get_edge_add_edge.
      rewrite bool_decide_eq_true_2 by done. by eexists.
  - exists g1. split_and!; [done| |done..]. by split_and!.
Qed.

Lemma output_graph_row_spec g sv :
  sv ∈ vertex_items self →
  output_graph_inv self m g →
  ∃ g', output_graph_row self m g sv = Ok g' ∧
    output_graph_inv self m g' ∧ extends g g' ∧
    ∀ dv, dv ∈ vertex_items self →
      is_Some (nx.node g' !! dv.1) ∧
      (z3.edge_interp m sv.2 dv.2 = true → nx.has_edge g' sv.1 dv.1 = true).
Proof.
  intros Hs (Hc & Hn & He). unfold output_graph_row.
  destruct (add_node_consistent g sv.1
              (_get_vertex_attributes (base self) (network_graph self)
                 (ByVertex sv.2)) Hc) as (g1 & Hadd & Hc1 & Hn1).
  rewrite Hadd. simpl.
  destruct (foldM_loop (output_graph_inv self m) extends
    (λ dv g', is_Some (nx.node g' !! dv.1) ∧
       (z3.edge_interp m sv.2 dv.2 = true → nx.has_edge g' sv.1 dv.1 = true))
    (output_graph_pair self m sv) (vertex_items self) g1)
    as (g' & Hfold & Hinv & Hext & Hall).
  - apply extends_refl.
  - apply extends_trans.
  - intros x b1 b2 [Hnodes Hedges] [Hx Hxe]. split; [by apply Hnodes|].
    intros Htrue. by apply Hedges, Hxe.
  - intros x b1 Hx Hb1. by apply output_graph_pair_spec.
  - split_and!; [done| |].
    + destruct sv as [src src_v]. apply elem_of_vertex_items in Hs.
      intros n [->|Hin]%Hn1; [by eexists | by apply Hn].
    + intros u v d. rewrite (get_edge_add_node _ _ _ _ u v Hadd). apply He.
  - exists g'. split_and!; [done..| |done].
    eapply extends_trans; [by eapply add_node_extends | done].
Qed.

(** [get_output_network_graph] cannot raise once a model is there; the graph
    it builds has the registered names as nodes and exactly the edges the
    model switches on, each with the cost the model gives it. *)
Lemma output_graph_spec :
  z3.last_model (solver self) = Some m →
  ∃ g, get_output_network_graph self = Ok (g, self) ∧
    consistent g ∧
    (∀ n, is_Some (nx.node g !! n)
          ↔ is_Some (name_to_vertex (base self) !! n)) ∧
    (∀ u v, edge_cost_of g u v = model_edge_cost self m u v) ∧
    (∀ u v, nx.has_edge g u v = true
            ↔ is_Some (model_edge_cost self m u v)).
Proof.
  intros Hm. unfold get_output_network_graph, z3.model. rewrite Hm. simpl.
  destruct (foldM_loop (output_graph_inv self m) extends
    (λ sv g', ∀ dv, dv ∈ vertex_items self →
       is_Some (nx.node g' !! dv.1) ∧
       (z3.edge_interp m sv.2 dv.2 = true → nx.has_edge g' sv.1 dv.1 = true))
    (output_graph_row self m) (vertex_items self) nx.empty)
    as (g & Hfold & (Hc & Hn & He) & Hext & Hall).
  - apply extends_refl.
  - apply extends_trans.
  - intros x b1 b2 [Hnodes Hedges] Hx dv Hdv.
    destruct (Hx dv Hdv) as [H1 H2]. split; [by apply Hnodes|].
    intros Htrue. by apply Hedges, H2.
  - intros x b1 Hx Hb1. by apply output_graph_row_spec.
  - split_and!; [apply consistent_empty| |].
    + intros n [x Hx]. simpl in Hx. by rewrite lookup_empty in Hx.
    + intros u v d. unfold nx.get_edge. simpl. by rewrite lookup_empty.
  - rewrite Hfold. simpl. exists g. split; [done|]. split; [done|].
    assert (∀ u v, nx.has_edge g u v = true
                   ↔ is_Some (model_edge_cost self m u v)) as Hhas.
    { intros u v. split.
      - intros [d Hd]%has_edge_get_edge.
        destruct (He u v d Hd) as (c & -> & _). by eexists.
      - intros [c Hcost]. unfold model_edge_cost in Hcost.
        destruct (name_to_vertex (base self) !! u) as [su|] eqn:Hu; [|done].
        destruct (name_to_vertex (base self) !! v) as [sv|] eqn:Hv; [|done].
        destruct (z3.edge_interp m su sv) eqn:Hedge; [|done].
        destruct (Hall (u, su)) with (dv := (v, sv)) as [_ Hhas];
          [by apply elem_of_vertex_items..|].
        by apply Hhas. }
    split; [|split; [|done]].
    + intros n. split; [apply Hn|]. intros [sn Hsn].
      destruct (Hall (n, sn)) with (dv := (n, sn)) as [Hsome _];
        [by apply elem_of_vertex_items..|done].
    + intros u v. unfold edge_cost_of.
      destruct (nx.get_edge g u v) as [d|e] eqn:Hd.
      * destruct (He u v d Hd) as (c & -> & ->). done.
      * destruct (model_edge_cost self m u v) eqn:Hcost; [|done].
        assert (nx.has_edge g u v = true) as [d' Hd']%has_edge_get_edge
          by (apply Hhas; by eexists).
        congruence.
Qed.

End output_graph.

(** ** Pairs the constraints talk about *)

Lemma eval_bool_switch_on m a b c :
  (a, b) ∉ z3.edge_atoms c →
  z3.eval_bool (z3.switch_on m a b) c = z3.eval_bool m c.
Proof.
  assert (∀ e, z3.eval_int (z3.switch_on m a b) e = z3.eval_int m e) as Hint.
  { induction e as [| |e1 IH1 e2 IH2]; simpl; [done..|]. by rewrite IH1, IH2. }
  induction c as [| u v | c IH | | |]; simpl; rewrite ?Hint; try done.
  - intros Hab. rewrite bool_decide_eq_false_2; [done|].
    intros [-> ->]. apply Hab. by left.
  - intros Hab. by rewrite IH.
Qed.

Lemma edge_atoms_py_lt a b : z3.edge_atoms (z3.py_lt a b) = [].
Proof. by destruct a, b. Qed.

Lemma edge_atoms_atoms c ab : ab ∈ z3.edge_atoms c → ab ∈ z3.atoms c.
Proof. induction c; simpl; try done; by intros ?%elem_of_nil. Qed.

Lemma only_non_network_add b s c :
  only_non_network b s → (∀ ab, ab ∈ z3.atoms c → non_network_pair b ab) →
  only_non_network b (z3.add s c).
Proof.
  intros Hs Hc c' ab [->|Hin]%elem_of_assertions_add; [apply Hc | by apply Hs].
Qed.

Lemma encode_pair_only_non_network b g src s dst s' :
  src ∉ network_names b →
  encode_pair b g src s dst = Ok s' →
  only_non_network b s → only_non_network b s'.
Proof.
  intros Hsrc. unfold encode_pair. case_bool_decide as Hdst.
  { by intros [= <-]. }
  destruct (get_vertex b src) as [sv|] eqn:Hsv; simpl; [|done].
  destruct (get_vertex b dst) as [dv|] eqn:Hdv; simpl; [|done].
  apply get_vertex_Ok in Hsv, Hdv.
  assert (∀ ab, ab ∈ [(sv, dv)] → non_network_pair b ab) as Hpair.
  { intros ab ->%list_elem_of_singleton. by exists src, dst. }
  destruct (nx.has_edge g src dst).
  - destruct (nx.get_edge g src dst) as [d|]; simpl; [|done].
    destruct (nx.cost d) as [c|]; [case_bool_decide|];
      intros [= <-] Hs; repeat apply only_non_network_add; try done;
      simpl; by rewrite app_nil_r.
  - intros [= <-] Hs. by apply only_non_network_add.
Qed.

Lemma encode_row_only_non_network b g s src s' :
  encode_row b g s src = Ok s' →
  only_non_network b s → only_non_network b s'.
Proof.
  unfold encode_row. case_bool_decide as Hsrc.
  { by intros [= <-]. }
  intros Hfold Hs. eapply (foldM_inv (only_non_network b)); [|done|done].
  intros x s1 s2 _ H1 H2. by eapply encode_pair_only_non_network.
Qed.

(** With a solver of its own, construction asserts nothing about a pair
    with a destination network in it. *)
Lemma init_only_non_network cv cfgs og self0 :
  __init__ cv cfgs og None = Ok self0 →
  only_non_network (base self0) (solver self0).
Proof.
  unfold __init__. intros (g1 & _ & Hread)%bind_Ok.
  unfold _read_input_graph in Hread. simpl in Hread.
  apply bind_Ok in Hread as (g & _ & (s & Hs & [= <-])%bind_Ok). simpl.
  eapply (foldM_inv (only_non_network _)); [| |exact Hs].
  - intros x s1 s2 _ H1 H2. by eapply encode_row_only_non_network.
  - intros c ab Hc. by apply elem_of_nil in Hc.
Qed.

Lemma push_req_edges_non_network self s req s' :
  push_req self s req = Ok s' →
  edges_non_network (base self) s → edges_non_network (base self) s'.
Proof.
  destruct req as [path|]; simpl; [|by intros [= <-]].
  destruct (py_first path); simpl; [|done].
  destruct (py_last path); simpl; [|done].
  destruct (_get_path_cost self path) as [pc|]; simpl; [|done].
  destruct (nx.all_simple_paths _ _ _) as [sps|]; simpl; [|done].
  intros Hfold Hs.
  eapply (foldM_inv (edges_non_network (base self))); [|done|done].
  intros sp s1 s2 _ H1. unfold push_alternative. case_bool_decide.
  - destruct (_get_path_cost self sp); simpl; [|done]. intros [= <-].
    intros c ab [->|Hin]%elem_of_assertions_add; [|by apply H1].
    rewrite edge_atoms_py_lt. by intros ?%elem_of_nil.
  - by intros [= <-].
Qed.

Lemma session_edges_non_network self0 self :
  session self0 self →
  edges_non_network (base self0) (solver self0) →
  edges_non_network (base self) (solver self).
Proof.
  induction 1 as [s|s1 s2 s3 Hstep _ IH]; [done|].
  intros H1. apply IH. clear IH.
  destruct Hstep as [s req s' Hadd|s s' Hpush|s slv Hcheck].
  - destruct req; simpl in Hadd; [|done]. by injection Hadd as <-.
  - unfold push_requirements in Hpush.
    apply bind_Ok in Hpush as (slv & Hfold & [= <-]). simpl.
    eapply (foldM_inv (edges_non_network (base s))); [| |exact Hfold].
    + intros x a b _ Ha Hb. by eapply push_req_edges_non_network.
    + done.
  - by destruct Hcheck.
Qed.

Lemma checked_solver self m :
  z3.assertions (solver (checked self m)) = z3.assertions (solver self).
Proof. reflexivity. Qed.

(** C10: construction (with a solver of its own) asserts something about
    the edge predicate or the cost function only at pairs of names that are
    not destination networks, while the output views run over every
    registered name.  So when the constraints of a session are satisfiable
    and [n] is a registered destination network, some model of the
    constraints switches on the edge from [n] to any registered [x]: after
    that check [get_output_configs] lists a triple for (n, x) and
    [get_output_network_graph] has the edge n -> x, although no assertion
    mentions the edge predicate at that pair. *)
Theorem network_vertex_edge_in_outputs cv cfgs og self0 self
  (n x : string) (vn vx : z3.Vertex) :
  __init__ cv cfgs og None = Ok self0 →
  session self0 self →
  z3.satisfiable (solver self) →
  n ∈ network_names (base self) →
  name_to_vertex (base self) !! n = Some vn →
  name_to_vertex (base self) !! x = Some vx →
  (∀ u su, u ∉ network_names (base self) →
     name_to_vertex (base self) !! u = Some su → su ≠ vn) →
  only_non_network (base self0) (solver self0) ∧
  (∀ c, c ∈ z3.assertions (solver self) → (vn, vx) ∉ z3.edge_atoms c) ∧
  ∃ m, z3.check_sat (solver self) (solver (checked self m)) ∧
    solved (checked self m) m ∧
    ∃ out g,
      get_output_configs (checked self m) = Ok (out, checked self m) ∧
      (∃ c, SetOSPFEdgeCost n x c ∈ out) ∧
      get_output_network_graph (checked self m) = Ok (g, checked self m) ∧
      nx.has_edge g n x = true.
Proof.
  intros Hinit Hsess [m0 Hm0] Hn Hvn Hvx Hdistinct.
  pose proof (init_only_non_network _ _ _ _ Hinit) as Hbase.
  pose proof (session_spec _ _ Hsess) as (Hb & _ & _).
  assert (∀ c, c ∈ z3.assertions (solver self) → (vn, vx) ∉ z3.edge_atoms c)
    as Hfree.
  { intros c Hc Hin.
    assert (edges_non_network (base self) (solver self)) as Hedges.
    { apply (session_edges_non_network self0); [done|].
      intros c' ab Hc' Hab. eapply Hbase; [done|]. by apply edge_atoms_atoms. }
    destruct (Hedges c (vn, vx) Hc Hin) as (u & v & Hu & _ & Hsu & _).
    by eapply Hdistinct. }
  split; [done|]. split; [done|].
  set (m := z3.switch_on m0 vn vx).
  assert (z3.models m (solver self)) as Hm.
  { intros c Hc. unfold m. rewrite eval_bool_switch_on by by apply Hfree.
    by apply Hm0. }
  assert (z3.edge_interp m vn vx = true) as Hedge.
  { simpl. by rewrite bool_decide_eq_true_2. }
  exists m. split; [by constructor|].
  assert (solved (checked self m) m) as Hsolved by done.
  split; [done|].
  destruct (output_graph_spec (checked self m) m)
    as (g & Hg & _ & _ & _ & Hhas); [done|].
  eexists _, g. split; [reflexivity|]. split; [|split; [done|]].
  - exists (z3.cost_interp m vn vx).
    apply (elem_of_output_configs (checked self m) m _ (checked self m));
      [done..|].
    by exists vn, vx.
  - apply Hhas.
    rewrite (model_edge_cost_Some (checked self m) m n x vn vx) by done.
    by eexists.
Qed.

Lemma registry_network_vertex cfgs g u :
  name_to_vertex (Examples.registry cfgs g) !! u = Some (z3.EnumVal 3) →
  u = "n".
Proof.
  unfold Examples.registry. simpl. rewrite !lookup_insert, lookup_empty.
  repeat case_decide; congruence.
Qed.

Lemma network_vertex_edge_in_outputs_witness :
  ∃ m out g,
    solved (checked Examples.tri2 m) m ∧
    get_output_configs (checked Examples.tri2 m)
      = Ok (out, checked Examples.tri2 m) ∧
    (∃ c, SetOSPFEdgeCost "n" "a" c ∈ out) ∧
    get_output_network_graph (checked Examples.tri2 m)
      = Ok (g, checked Examples.tri2 m) ∧
    nx.has_edge g "n" "a" = true.
Proof.
  destruct (network_vertex_edge_in_outputs Examples.registry None
    (Some (Examples.triangle (Some 5))) Examples.tri0 Examples.tri2
    "n" "a" (z3.EnumVal 3) (z3.EnumVal 0))
    as (_ & _ & m & _ & Hs & out & g & H1 & H2 & H3 & H4).
  - vm_compute. reflexivity.
  - eapply rtc_l.
    { apply (step_add_path_req _ (PathReq ["a"; "b"; "c"]) Examples.tri1).
      reflexivity. }
    eapply rtc_l; [|apply rtc_refl].
    apply (step_push_requirements _ Examples.tri2). vm_compute. reflexivity.
  - exists (Examples.triangle_model 5 10 1).
    apply models_of_modelsb. vm_compute. reflexivity.
  - left.
  - reflexivity.
  - reflexivity.
  - intros u su Hu Hsu ->. apply Hu.
    assert (base Examples.tri2 = Examples.registry [] nx.empty) as Hb
      by (vm_compute; reflexivity).
    rewrite Hb in Hsu |- *. clear Hu Hb.
    apply registry_network_vertex in Hsu as ->. left.
  - exists m, out, g. exact (conj Hs (conj H1 (conj H2 (conj H3 H4)))).
Defined.

(** ** Reading twice: the read side on a store of objects *)

Lemma graph_at_set_graph σ r g r' :
  heap.graph_at (heap.set_graph σ r g) r'
  = if decide (r = r') then g else heap.graph_at σ r'.
Proof.
  unfold heap.graph_at, heap.set_graph. simpl. rewrite lookup_insert.
  by case_decide.
Qed.

Lemma set_graph_set_graph σ r g g' :
  heap.set_graph (heap.set_graph σ r g) r g' = heap.set_graph σ r g'.
Proof. unfold heap.set_graph. simpl. by rewrite insert_insert_eq. Qed.

Lemma list_at_set_list σ r l :
  heap.list_at (heap.set_list σ r l) r = l.
Proof. unfold heap.list_at, heap.set_list. simpl. by rewrite lookup_insert_eq. Qed.

Lemma set_list_set_list σ r l l' :
  heap.set_list (heap.set_list σ r l) r l' = heap.set_list σ r l'.
Proof. unfold heap.set_list. simpl. by rewrite insert_insert_eq. Qed.

Lemma for_cons {A} (x : A) l (body : A → heap.M unit) σ :
  heap.for_ (x :: l) body σ
  = match body x σ with
    | Ok (_, σ') => heap.for_ l body σ'
    | Raise e => Raise e
    end.
Proof. reflexivity. Qed.

Lemma foldM_cons {A B} (f : B → A → Res B) b x l :
  foldM f b (x :: l)
  = match f b x with
    | Ok b' => foldM f b' l
    | Raise e => Raise e
    end.
Proof. reflexivity. Qed.

(** A loop that keeps its state in one object of the store runs as the
    fold of its body over that state. *)
Lemma for_foldM {A S} (st : S → heap.Store) (body : A → heap.M unit)
  (fbody : S → A → Res S) (l : list A) :
  (∀ x s, x ∈ l →
     body x (st s) = match fbody s x with
                     | Ok s' => Ok (tt, st s')
                     | Raise e => Raise e
                     end) →
  ∀ s, heap.for_ l body (st s) = match foldM fbody s l with
                                 | Ok s' => Ok (tt, st s')
                                 | Raise e => Raise e
                                 end.
Proof.
  induction l as [|x l IH]; intros Hbody s; [done|].
  rewrite for_cons, foldM_cons, Hbody by left.
  destruct (fbody s x) as [s'|e]; [|done].
  apply IH. intros y s1 Hy. apply Hbody. by right.
Qed.

(** The same for a loop whose store is only related to the state of the
    fold. *)
Lemma for_sim {A S} (R : S → heap.Store → Prop) (body : A → heap.M unit)
  (fbody : S → A → Res S) (l : list A) :
  (∀ x s σ, x ∈ l → R s σ →
     match fbody s x with
     | Ok s' => ∃ σ', body x σ = Ok (tt, σ') ∧ R s' σ'
     | Raise e => body x σ = Raise e
     end) →
  ∀ s σ, R s σ →
    match foldM fbody s l with
    | Ok s' => ∃ σ', heap.for_ l body σ = Ok (tt, σ') ∧ R s' σ'
    | Raise e => heap.for_ l body σ = Raise e
    end.
Proof.
  induction l as [|x l IH]; intros Hbody s σ HR; [by exists σ|].
  rewrite for_cons, foldM_cons.
  pose proof (Hbody x s σ (list_elem_of_here _ _) HR) as Hx.
  destruct (fbody s x) as [s'|e].
  - destruct Hx as (σ' & -> & HR').
    apply IH; [|done]. intros y s1 σ1 Hy. apply Hbody. by right.
  - by rewrite Hx.
Qed.

(** *** [get_output_configs] *)

Lemma output_config_run m σ0 r sv l : ∀ acc,
  heap.for_ l (heap.output_config m r sv) (heap.set_list σ0 r acc)
  = Ok (tt, heap.set_list σ0 r (acc ++ flat_map (output_config m sv) l)).
Proof.
  induction l as [|dv l IH]; intros acc.
  - simpl. by rewrite app_nil_r.
  - rewrite for_cons. unfold heap.output_config at 1. simpl flat_map.
    unfold output_config at 1.
    destruct (z3.eval_bool m (z3.EdgePhyOSPF sv.2 dv.2)); simpl.
    + rewrite list_at_set_list, set_list_set_list.
      rewrite IH. by rewrite <- app_assoc.
    + apply IH.
Qed.

Lemma output_configs_run m σ0 r (items l : list (string * z3.Vertex)) :
  ∀ acc,
  heap.for_ l (λ sv, heap.for_ items (heap.output_config m r sv))
    (heap.set_list σ0 r acc)
  = Ok (tt, heap.set_list σ0 r
              (acc ++ flat_map (λ sv, flat_map (output_config m sv) items) l)).
Proof.
  induction l as [|sv l IH]; intros acc.
  - simpl. by rewrite app_nil_r.
  - rewrite for_cons, output_config_run, IH. simpl.
    by rewrite <- app_assoc.
Qed.

(** On every store, [get_output_configs] allocates one list and returns
    it, holding the list of the functional reading. *)
Lemma get_output_configs_run self σ :
  heap.get_output_configs self σ
  = match get_output_configs (session_of σ self) with
    | Ok (out, _) =>
        Ok (heap.next σ, heap.set_list (heap.fresh σ) (heap.next σ) out)
    | Raise e => Raise e
    end.
Proof.
  unfold heap.get_output_configs, get_output_configs.
  unfold mbind at 1 2 3, heap.M_bind, heap.model, heap.lift. simpl.
  destruct (z3.model (heap.solver_at σ (heap.solver self))) as [m|e];
    simpl; [|done].
  unfold heap.new_list.
  change (heap.vertex_items self) with (vertex_items (session_of σ self)).
  by rewrite output_configs_run.
Qed.

(** *** [get_output_network_graph] *)

Lemma bind_run {A B} (m : heap.M A) (f : A → heap.M B) σ :
  (m ≫= f) σ = match m σ with
               | Ok (a, σ') => f a σ'
               | Raise e => Raise e
               end.
Proof. reflexivity. Qed.

Lemma has_node_run σ0 r g n :
  heap.has_node r n (heap.set_graph σ0 r g)
  = Ok (nx.has_node g n, heap.set_graph σ0 r g).
Proof.
  unfold heap.has_node. rewrite bind_run. unfold heap.read_graph.
  rewrite graph_at_set_graph. by rewrite decide_True.
Qed.

Lemma add_node_run σ0 r g n attr :
  heap.add_node r n attr (heap.set_graph σ0 r g)
  = match nx.add_node g n attr with
    | Ok g' => Ok (tt, heap.set_graph σ0 r g')
    | Raise e => Raise e
    end.
Proof.
  unfold heap.add_node, heap.update_graph.
  rewrite graph_at_set_graph, decide_True by done.
  destruct (nx.add_node g n attr); [|done]. by rewrite set_graph_set_graph.
Qed.

Lemma add_edge_run σ0 r g u v c attr :
  heap.add_edge r u v c attr (heap.set_graph σ0 r g)
  = Ok (tt, heap.set_graph σ0 r (nx.add_edge g u v c attr)).
Proof.
  unfold heap.add_edge, heap.update_graph.
  rewrite graph_at_set_graph, decide_True by done.
  by rewrite set_graph_set_graph.
Qed.

Lemma read_graph_run σ0 r g r' :
  r ≠ r' →
  heap.read_graph r' (heap.set_graph σ0 r g)
  = Ok (heap.graph_at σ0 r', heap.set_graph σ0 r g).
Proof.
  intros Hne. unfold heap.read_graph.
  by rewrite graph_at_set_graph, decide_False.
Qed.

Lemma output_graph_pair_run self m σ0 r sv dv g :
  r ≠ heap.network_graph self →
  heap.output_graph_pair self m r sv dv (heap.set_graph σ0 r g)
  = match output_graph_pair (session_of σ0 self) m sv g dv with
    | Ok g' => Ok (tt, heap.set_graph σ0 r g')
    | Raise e => Raise e
    end.
Proof.
  intros Hne. unfold heap.output_graph_pair, output_graph_pair.
  rewrite bind_run, has_node_run.
  destruct (z3.eval_bool m (z3.EdgePhyOSPF sv.2 dv.2));
    destruct (nx.has_node g dv.1); cbn [negb];
    rewrite !bind_run, ?read_graph_run, ?add_node_run by done;
    cbn [mret heap.M_ret mbind Res_bind];
    try destruct (nx.add_node g dv.1 _) as [g1|e]; cbn [mbind Res_bind];
    try done; apply add_edge_run.
Qed.

Lemma output_graph_row_run self m σ0 r sv g :
  r ≠ heap.network_graph self →
  heap.output_graph_row self m r sv (heap.set_graph σ0 r g)
  = match output_graph_row (session_of σ0 self) m g sv with
    | Ok g' => Ok (tt, heap.set_graph σ0 r g')
    | Raise e => Raise e
    end.
Proof.
  intros Hne. unfold heap.output_graph_row, output_graph_row.
  rewrite bind_run, read_graph_run by done. cbv beta iota.
  rewrite bind_run, add_node_run.
  destruct (nx.add_node g sv.1 _) as [g1|e]; simpl; [|done].
  apply (for_foldM (λ g, heap.set_graph σ0 r g)).
  intros dv g2 _. by apply output_graph_pair_run.
Qed.

(** On a store in which the graph of [self] exists,
    [get_output_network_graph] allocates one graph and returns it, holding
    the graph of the functional reading. *)
Lemma get_output_network_graph_run self σ :
  heap.next σ ≠ heap.network_graph self →
  heap.get_output_network_graph self σ
  = match get_output_network_graph (session_of σ self) with
    | Ok (g, _) =>
        Ok (heap.next σ, heap.set_graph (heap.fresh σ) (heap.next σ) g)
    | Raise e => Raise e
    end.
Proof.
  intros Hne. unfold heap.get_output_network_graph, get_output_network_graph.
  rewrite bind_run. unfold heap.model, heap.lift. simpl.
  destruct (z3.model (heap.solver_at σ (heap.solver self))) as [m|e];
    simpl; [|done].
  rewrite bind_run. unfold heap.new_graph. cbv beta iota.
  change (heap.vertex_items self) with (vertex_items (session_of σ self)).
  rewrite bind_run.
  rewrite (for_foldM (λ g, heap.set_graph (heap.fresh σ) (heap.next σ) g)
             _ (output_graph_row (session_of σ self) m)).
  - by destruct (foldM _ nx.empty _).
  - intros sv g _. by apply (output_graph_row_run self m (heap.fresh σ)).
Qed.

(** *** [get_output_routing_graphs] *)

Lemma lift_run {A} (r : Res A) σ :
  heap.lift r σ = match r with
                  | Ok a => Ok (a, σ)
                  | Raise e => Raise e
                  end.
Proof. reflexivity. Qed.

Section heap_routing.
Context `{nx.PathLibrary}.

Lemma routing_edge_run self fself m σ0 p r sd g :
  r ≠ p → base fself = heap.registry self →
  heap.routing_edge self m p r sd (heap.set_graph σ0 r g)
  = match routing_edge fself m (heap.graph_at σ0 p) g sd with
    | Ok g' => Ok (tt, heap.set_graph σ0 r g')
    | Raise e => Raise e
    end.
Proof.
  intros Hne Hbase. unfold heap.routing_edge, routing_edge. cbv zeta.
  rewrite Hbase.
  rewrite bind_run, has_node_run. cbv beta iota.
  assert (∀ n g0,
    (if negb (nx.has_node g0 n)
     then heap.read_graph p ≫= λ phy,
            heap.add_node r n
              (_get_vertex_attributes (heap.registry self) phy (ByName n))
     else mret tt) (heap.set_graph σ0 r g0)
    = match (if nx.has_node g0 n then Ok g0
             else nx.add_node g0 n
                    (_get_vertex_attributes (heap.registry self)
                       (heap.graph_at σ0 p) (ByName n))) with
      | Ok g' => Ok (tt, heap.set_graph σ0 r g')
      | Raise e => Raise e
      end) as Hensure.
  { intros n g0. destruct (nx.has_node g0 n); cbn [negb]; [done|].
    rewrite bind_run, read_graph_run by done. cbv beta iota.
    apply add_node_run. }
  rewrite bind_run, Hensure.
  destruct (if nx.has_node g sd.1 then _ else _) as [g1|e];
    cbn [mbind Res_bind]; [|done].
  rewrite bind_run, has_node_run. cbv beta iota.
  rewrite bind_run, Hensure.
  destruct (if nx.has_node g1 sd.2 then _ else _) as [g2|e];
    cbn [mbind Res_bind]; [|done].
  rewrite bind_run, lift_run.
  destruct (get_vertex (heap.registry self) sd.1) as [src_v|e];
    cbn [mbind Res_bind]; [|done].
  rewrite bind_run, lift_run.
  destruct (get_vertex (heap.registry self) sd.2) as [dst_v|e];
    cbn [mbind Res_bind]; [|done].
  apply add_edge_run.
Qed.

Lemma routing_node_run self fself m σ0 p name r nv g :
  r ≠ p → base fself = heap.registry self →
  heap.routing_node self m p name r nv (heap.set_graph σ0 r g)
  = match routing_node fself m (heap.graph_at σ0 p) name g nv with
    | Ok g' => Ok (tt, heap.set_graph σ0 r g')
    | Raise e => Raise e
    end.
Proof.
  intros Hne Hbase. unfold heap.routing_node, routing_node.
  rewrite bind_run, read_graph_run by done. cbv beta iota.
  rewrite bind_run, lift_run.
  destruct (nx.has_path (heap.graph_at σ0 p) nv.1 name) as [reachable|e];
    cbn [mbind Res_bind]; [|done].
  destruct reachable; cbn [negb]; [|done].
  rewrite bind_run, lift_run.
  destruct (nx.shortest_path (heap.graph_at σ0 p) nv.1 name) as [path|e];
    cbn [mbind Res_bind]; [|done].
  apply (for_foldM (λ g, heap.set_graph σ0 r g)).
  intros sd g1 _. by apply routing_edge_run.
Qed.

End heap_routing.

Section heap_trees.
Context `{nx.PathLibrary}.

Lemma routing_tree_run self fself m σb p d trees dst_net σ :
  heap.filling σb d trees σ → (p < heap.next σb)%nat →
  base fself = heap.registry self →
  match routing_tree fself m (heap.graph_at σb p) trees dst_net with
  | Ok trees' =>
      ∃ σ', heap.routing_tree self m p d dst_net σ = Ok (tt, σ') ∧
        heap.filling σb d trees' σ'
  | Raise e => heap.routing_tree self m p d dst_net σ = Raise e
  end.
Proof.
  intros (Hnext & Hold & Htrees & Hrefs) Hp Hbase.
  unfold heap.routing_tree, routing_tree, heap.vertex_items, vertex_items.
  cbv zeta. rewrite Hbase.
  set (name := get_name (heap.registry self) dst_net).
  set (g0 := {| nx.graph := {["dst" := name]}; nx.node := ∅; nx.adj := ∅ |}).
  set (dm := <[name := heap.next σ]> (heap.dict_at σ d)).
  set (σ1 := heap.set_dict (heap.fresh σ) d dm).
  assert (heap.graph_at σ1 p = heap.graph_at σb p) as Hphy.
  { unfold heap.graph_at, σ1. simpl. by destruct (Hold p Hp) as (-> & _). }
  assert (heap.next σ ≠ p) as Hne by lia.
  rewrite bind_run. unfold heap.new_graph. cbv beta iota.
  rewrite bind_run. unfold heap.set_graph_attr, heap.update_graph.
  rewrite graph_at_set_graph, decide_True by done. cbv beta iota.
  rewrite set_graph_set_graph.
  rewrite bind_run. unfold heap.dict_set. cbv beta iota.
  change (heap.set_dict _ d _) with (heap.set_graph σ1 (heap.next σ) g0).
  rewrite (for_foldM (λ g, heap.set_graph σ1 (heap.next σ) g) _
             (routing_node fself m (heap.graph_at σb p) name)).
  2: { intros nv g _. rewrite <- Hphy. by apply routing_node_run. }
  destruct (foldM _ g0 _) as [g|e]; cbn [mbind Res_bind]; [|done].
  eexists. split; [done|]. split_and!.
  - simpl. lia.
  - intros r Hr. destruct (Hold r Hr) as (Hg & Hs & Hl & Hd). simpl.
    split_and!; [|done|done|].
    + rewrite lookup_insert_ne by lia. done.
    + intros Hrd. rewrite lookup_insert_ne by done. by apply Hd.
  - unfold heap.trees_at, heap.dict_at. simpl. rewrite lookup_insert_eq.
    simpl. unfold dm. rewrite fmap_insert.
    erewrite graph_at_set_graph, decide_True by done.
    rewrite <- Htrees. f_equal. unfold heap.trees_at.
    apply map_fmap_ext. intros k r Hk.
    rewrite graph_at_set_graph, decide_False; [done|].
    apply Hrefs in Hk. lia.
  - intros k r. unfold heap.dict_at. simpl. rewrite lookup_insert_eq.
    simpl. unfold dm. rewrite lookup_insert. case_decide.
    + intros [= <-]. lia.
    + intros Hk%Hrefs. lia.
Qed.

(** On a store in which the graph of [self] exists,
    [get_output_routing_graphs] leaves every object of the store as it
    was and returns a new dictionary that holds, through references to new
    graphs, the trees of the functional reading. *)
Lemma get_output_routing_graphs_run self σ :
  heap.next σ ≠ heap.network_graph self →
  match get_output_routing_graphs (session_of σ self) with
  | Ok (trees, _) =>
      ∃ r σ', heap.get_output_routing_graphs self σ = Ok (r, σ') ∧
        heap.unchanged σ σ' ∧
        (heap.next σ ≤ r < heap.next σ')%nat ∧
        heap.trees_at σ' r = trees ∧
        (∀ k r', heap.dict_at σ' r !! k = Some r' →
           (r' < heap.next σ')%nat)
  | Raise e => heap.get_output_routing_graphs self σ = Raise e
  end.
Proof.
  intros Hne. unfold heap.get_output_routing_graphs, get_output_routing_graphs.
  rewrite bind_run. unfold heap.model. rewrite lift_run.
  change (solver (session_of σ self))
    with (heap.solver_at σ (heap.solver self)).
  destruct (z3.model (heap.solver_at σ (heap.solver self))) as [m|e];
    cbn [mbind Res_bind]; [|done].
  rewrite bind_run, get_output_network_graph_run by done.
  destruct (get_output_network_graph (session_of σ self)) as [[g_phy ?]|e];
    cbn [mbind Res_bind]; [|done].
  set (p := heap.next σ).
  set (σ1 := heap.set_graph (heap.fresh σ) p g_phy).
  rewrite bind_run. unfold heap.new_dict. cbv beta iota.
  set (d := heap.next σ1).
  set (σb := heap.set_dict (heap.fresh σ1) d ∅).
  assert (heap.graph_at σb p = g_phy) as Hphy.
  { unfold heap.graph_at. simpl. by rewrite lookup_insert_eq. }
  assert (heap.filling σb d ∅ σb) as Hinit.
  { split_and!; [done|done| |].
    - unfold heap.trees_at, heap.dict_at. simpl. rewrite lookup_insert_eq.
      simpl. apply fmap_empty.
    - intros k r. unfold heap.dict_at. simpl. rewrite lookup_insert_eq.
      simpl. by rewrite lookup_empty. }
  rewrite bind_run.
  pose proof (for_sim (heap.filling σb d)
    (heap.routing_tree self m p d)
    (routing_tree (session_of σ self) m g_phy)
    (networks (heap.registry self))) as Hloop.
  simpl fst.
  change (networks (base (session_of σ self)))
    with (networks (heap.registry self)).
  specialize (Hloop).
  destruct (foldM (routing_tree (session_of σ self) m g_phy) ∅
              (networks (heap.registry self))) as [trees|e] eqn:Hfold.
  2: { cbn [mbind Res_bind].
       assert (heap.for_ (networks (heap.registry self))
                 (heap.routing_tree self m p d) σb = Raise e) as ->; [|done].
       specialize (Hloop ltac:(intros x s σ2 _ Hs; rewrite <- Hphy;
         apply routing_tree_run; [done|simpl; unfold p; lia|done]) ∅ σb Hinit).
       by rewrite Hfold in Hloop. }
  cbn [mbind Res_bind].
  specialize (Hloop ltac:(intros x s σ2 _ Hs; rewrite <- Hphy;
    apply routing_tree_run; [done|simpl; unfold p; lia|done]) ∅ σb Hinit).
  rewrite Hfold in Hloop.
  destruct Hloop as (σ' & -> & Hnext & Hold & Htrees & Hrefs).
  exists d, σ'. split; [done|]. simpl in Hnext. split_and!.
  - split; [lia|]. intros r Hr.
    destruct (Hold r) as (Hg & Hs & Hl & Hd); [simpl; lia|].
    simpl in Hg, Hs, Hl, Hd. unfold p, d in *. simpl in *.
    rewrite Hg, Hs, Hl, Hd by lia.
    rewrite !lookup_insert_ne by lia. done.
  - unfold d. simpl. lia.
  - unfold d. simpl. lia.
  - done.
  - intros k r' Hk%Hrefs. lia.
Qed.

End heap_trees.

(** *** Calling twice *)

Lemma unchanged_session self σ σ' :
  heap.allocated self σ → heap.unchanged σ σ' →
  heap.allocated self σ' ∧ session_of σ' self = session_of σ self.
Proof.
  intros (Hg & Hs & Hgobj & Hsobj) [Hnext Hold].
  destruct (Hold _ Hg) as (Hgeq & _). destruct (Hold _ Hs) as (_ & Hseq & _).
  split; [split_and!; [lia|lia|by rewrite Hgeq|by rewrite Hseq]|].
  unfold session_of, heap.graph_at, heap.solver_at.
  destruct (Hold _ Hg) as (-> & _). by destruct (Hold _ Hs) as (_ & -> & _).
Qed.

Lemma unchanged_fresh σ : heap.unchanged σ (heap.fresh σ).
Proof. split; [simpl; lia|done]. Qed.

Lemma unchanged_set_graph σ σ' r g :
  heap.unchanged σ σ' → (heap.next σ ≤ r)%nat →
  heap.unchanged σ (heap.set_graph σ' r g).
Proof.
  intros [Hnext Hold] Hr. split; [done|]. intros r' Hr'.
  destruct (Hold r' Hr') as (Hg & Hs & Hl & Hd). simpl.
  by rewrite lookup_insert_ne by lia.
Qed.

Lemma unchanged_set_list σ σ' r l :
  heap.unchanged σ σ' → (heap.next σ ≤ r)%nat →
  heap.unchanged σ (heap.set_list σ' r l).
Proof.
  intros [Hnext Hold] Hr. split; [done|]. intros r' Hr'.
  destruct (Hold r' Hr') as (Hg & Hs & Hl & Hd). simpl.
  by rewrite lookup_insert_ne by lia.
Qed.

Lemma unchanged_trees σ σ' d :
  heap.unchanged σ σ' → (d < heap.next σ)%nat →
  (∀ k r, heap.dict_at σ d !! k = Some r → (r < heap.next σ)%nat) →
  heap.trees_at σ' d = heap.trees_at σ d ∧
  heap.dict_at σ' d = heap.dict_at σ d.
Proof.
  intros [Hnext Hold] Hd Hrefs.
  assert (heap.dict_at σ' d = heap.dict_at σ d) as Hdict.
  { unfold heap.dict_at. by destruct (Hold d Hd) as (_ & _ & _ & ->). }
  split; [|done]. unfold heap.trees_at. rewrite Hdict.
  apply map_fmap_ext. intros k r Hk. unfold heap.graph_at.
  by destruct (Hold r (Hrefs k r Hk)) as (-> & _).
Qed.

(** C9: each read-side method writes only to objects it creates.  On a
    store that holds the graph and the solver of [self], a call that
    returns leaves every object of the store as it was and returns a new
    object, which holds the output of the functional reading of the method.
    So a second call, on the store the first one left, returns as well: a
    different object with the same content, while the output of the first
    call is still what it was. *)
Theorem read_side_calls_repeat `{nx.PathLibrary} (self : heap.Self)
  (σ : heap.Store) :
  heap.allocated self σ →
  (∀ r1 σ1, heap.get_output_configs self σ = Ok (r1, σ1) →
     heap.unchanged σ σ1 ∧
     (∃ s, get_output_configs (session_of σ self)
           = Ok (heap.list_at σ1 r1, s)) ∧
     ∃ r2 σ2, heap.get_output_configs self σ1 = Ok (r2, σ2) ∧
       r2 ≠ r1 ∧ heap.unchanged σ1 σ2 ∧
       heap.list_at σ2 r2 = heap.list_at σ1 r1 ∧
       heap.list_at σ2 r1 = heap.list_at σ1 r1) ∧
  (∀ r1 σ1, heap.get_output_network_graph self σ = Ok (r1, σ1) →
     heap.unchanged σ σ1 ∧
     (∃ s, get_output_network_graph (session_of σ self)
           = Ok (heap.graph_at σ1 r1, s)) ∧
     ∃ r2 σ2, heap.get_output_network_graph self σ1 = Ok (r2, σ2) ∧
       r2 ≠ r1 ∧ heap.unchanged σ1 σ2 ∧
       heap.graph_at σ2 r2 = heap.graph_at σ1 r1 ∧
       heap.graph_at σ2 r1 = heap.graph_at σ1 r1) ∧
  (∀ r1 σ1, heap.get_output_routing_graphs self σ = Ok (r1, σ1) →
     heap.unchanged σ σ1 ∧
     (∃ s, get_output_routing_graphs (session_of σ self)
           = Ok (heap.trees_at σ1 r1, s)) ∧
     ∃ r2 σ2, heap.get_output_routing_graphs self σ1 = Ok (r2, σ2) ∧
       r2 ≠ r1 ∧ heap.unchanged σ1 σ2 ∧
       heap.trees_at σ2 r2 = heap.trees_at σ1 r1 ∧
       heap.trees_at σ2 r1 = heap.trees_at σ1 r1).
Proof.
  intros Halloc. split_and!.
  - intros r1 σ1 Hcall. rewrite get_output_configs_run in Hcall.
    destruct (get_output_configs (session_of σ self)) as [[out s]|e] eqn:Hf;
      [|done].
    injection Hcall as <- <-.
    assert (heap.unchanged σ
              (heap.set_list (heap.fresh σ) (heap.next σ) out)) as Hun.
    { apply unchanged_set_list; [apply unchanged_fresh|done]. }
    split; [done|]. split.
    { exists s. by rewrite list_at_set_list. }
    destruct (unchanged_session _ _ _ Halloc Hun) as [_ Hsame].
    rewrite get_output_configs_run, Hsame, Hf.
    eexists _, _. split; [done|]. simpl. split_and!.
    + lia.
    + apply unchanged_set_list; [apply unchanged_fresh|simpl; lia].
    + by rewrite !list_at_set_list.
    + unfold heap.list_at. simpl. by rewrite lookup_insert_ne by lia.
  - pose proof Halloc as (Hg & Hs & _). intros r1 σ1 Hcall.
    rewrite get_output_network_graph_run in Hcall by lia.
    destruct (get_output_network_graph (session_of σ self))
      as [[g s]|e] eqn:Hf; [|done].
    injection Hcall as <- <-.
    assert (heap.unchanged σ
              (heap.set_graph (heap.fresh σ) (heap.next σ) g)) as Hun.
    { apply unchanged_set_graph; [apply unchanged_fresh|done]. }
    split; [done|]. split.
    { exists s. by rewrite graph_at_set_graph, decide_True. }
    destruct (unchanged_session _ _ _ Halloc Hun) as [_ Hsame].
    rewrite get_output_network_graph_run, Hsame, Hf by (simpl; lia).
    eexists _, _. split; [done|]. simpl. split_and!.
    + lia.
    + apply unchanged_set_graph; [apply unchanged_fresh|simpl; lia].
    + by rewrite !graph_at_set_graph, !decide_True.
    + rewrite graph_at_set_graph, decide_False by lia. done.
  - pose proof Halloc as (Hg & Hs & _). intros r1 σ1 Hcall.
    pose proof (get_output_routing_graphs_run self σ ltac:(lia)) as Hrun.
    destruct (get_output_routing_graphs (session_of σ self))
      as [[trees s]|e] eqn:Hf; [|congruence].
    destruct Hrun as (r & σ' & Hcall' & Hun & Hr & Htrees & Hrefs).
    rewrite Hcall in Hcall'. injection Hcall' as <- <-.
    split; [done|]. split; [exists s; by rewrite Htrees|].
    destruct (unchanged_session _ _ _ Halloc Hun)
      as [(Hg1 & Hs1 & _) Hsame].
    pose proof (get_output_routing_graphs_run self σ1 ltac:(lia)) as Hrun.
    rewrite Hsame, Hf in Hrun.
    destruct Hrun as (r2 & σ2 & Hcall2 & Hun2 & Hr2 & Htrees2 & _).
    exists r2, σ2. split_and!; [done|lia|done|congruence|].
    apply (unchanged_trees σ1 σ2 r1); [done|lia|done].
Qed.

Lemma read_side_calls_repeat_witness :
  ∃ r1 σ1 r2 σ2,
    heap.get_output_configs Examples.self3 Examples.store3 = Ok (r1, σ1) ∧
    heap.get_output_configs Examples.self3 σ1 = Ok (r2, σ2) ∧
    r2 ≠ r1 ∧
    heap.list_at σ2 r2 = heap.list_at σ1 r1 ∧
    heap.list_at σ1 r1
    = [SetOSPFEdgeCost "c" "n" 1; SetOSPFEdgeCost "a" "c" 10;
       SetOSPFEdgeCost "a" "b" 5; SetOSPFEdgeCost "b" "c" 1].
Proof.
  destruct (read_side_calls_repeat (H := Examples.reference_paths)
              Examples.self3 Examples.store3) as (Hconfigs & _ & _).
  { split_and!; [simpl; lia|simpl; lia|..]; eexists;
      apply lookup_singleton_eq. }
  eassert (heap.get_output_configs Examples.self3 Examples.store3
           = Ok (_, _)) as Hcall by (vm_compute; reflexivity).
  destruct (Hconfigs _ _ Hcall) as (_ & _ & r2 & σ2 & Hcall2 & Hne & _ & Heq & _).
  eexists _, _, r2, σ2. split; [exact Hcall|].
  split; [exact Hcall2|]. split; [exact Hne|]. split; [exact Heq|].
  vm_compute. reflexivity.
Defined.

(** ** The routing trees *)

Lemma walk_suffix g (t : string) p : ∀ s u v,
  nx.is_walk g s t p → (u, v) ∈ consecutive p →
  (∃ p1, nx.is_walk g u t p1) ∧ (∃ p2, nx.is_walk g v t p2).
Proof.
  induction p as [|x [|y r] IH]; intros s u v (Hhead & Hlast & Hedges) Huv.
  - by apply elem_of_nil in Huv.
  - by apply elem_of_nil in Huv.
  - assert (nx.is_walk g y t (y :: r)) as Hrest.
    { split_and!; [done|done|]. intros a b Hab. apply Hedges. by right. }
    change (consecutive (x :: y :: r))
      with ((x, y) :: consecutive (y :: r)) in Huv.
    apply elem_of_cons in Huv as [[= -> ->]|Huv].
    + split; [|by exists (y :: r)]. exists (x :: y :: r).
      split_and!; done.
    + by apply (IH y).
Qed.

Lemma add_node_nodes g n a g' x :
  nx.add_node g n a = Ok g' →
  is_Some (nx.node g' !! x) ↔ x = n ∨ is_Some (nx.node g !! x).
Proof.
  unfold nx.add_node.
  destruct (nx.adj g !! n); [destruct (nx.node g !! n) eqn:Hn; [|done]|];
    intros [= <-]; simpl; (destruct (decide (x = n)) as [->|?];
      [rewrite lookup_insert_eq; split; [by left | by eexists]
      |rewrite lookup_insert_ne by done; naive_solver]).
Qed.

Lemma ensure_node_nodes g n x :
  is_Some (nx.node (nx.ensure_node g n) !! x) →
  x = n ∨ is_Some (nx.node g !! x).
Proof.
  unfold nx.ensure_node. destruct (nx.adj g !! n); [by right|]. simpl.
  destruct (decide (x = n)) as [->|?]; [by left|].
  rewrite lookup_insert_ne by done. by right.
Qed.

Lemma add_edge_nodes g s d c a x :
  is_Some (nx.node (nx.add_edge g s d c a) !! x) →
  x = s ∨ x = d ∨ is_Some (nx.node g !! x).
Proof.
  unfold nx.add_edge. simpl.
  intros [->|[->|?]%ensure_node_nodes]%ensure_node_nodes; auto.
Qed.

Lemma edge_cost_of_add_edge g s d c a u v :
  edge_cost_of (nx.add_edge g s d c a) u v =
    if bool_decide (u = s ∧ v = d) then Some c else edge_cost_of g u v.
Proof.
  unfold edge_cost_of. rewrite get_edge_add_edge. by case_bool_decide.
Qed.

Lemma has_edge_add_edge g s d c a u v :
  nx.has_edge (nx.add_edge g s d c a) u v =
    if bool_decide (u = s ∧ v = d) then true else nx.has_edge g u v.
Proof.
  case_bool_decide.
  - apply has_edge_get_edge. rewrite get_edge_add_edge.
    rewrite bool_decide_eq_true_2 by done. by eexists.
  - apply has_edge_true_iff. rewrite get_edge_add_edge.
    by rewrite bool_decide_eq_false_2.
Qed.

Lemma has_edge_add_node g n a g' u v :
  nx.add_node g n a = Ok g' → nx.has_edge g' u v = nx.has_edge g u v.
Proof.
  intros Hadd. apply has_edge_true_iff.
  by rewrite (get_edge_add_node _ _ _ _ u v Hadd).
Qed.

Lemma edge_cost_of_add_node g n a g' u v :
  nx.add_node g n a = Ok g' → edge_cost_of g' u v = edge_cost_of g u v.
Proof.
  intros Hadd. unfold edge_cost_of.
  by rewrite (get_edge_add_node _ _ _ _ u v Hadd).
Qed.

Lemma routing_tree_inv_add_node g_phy dst t n a t' :
  (∃ p, nx.is_walk g_phy n dst p) →
  (if nx.has_node t n then Ok t else nx.add_node t n a) = Ok t' →
  routing_tree_inv g_phy dst t → routing_tree_inv g_phy dst t'.
Proof.
  intros Hwalk Hadd [Hnodes Hedges].
  destruct (nx.has_node t n); [by injection Hadd as <-|].
  split.
  - intros x [->|Hx]%(add_node_nodes _ _ _ _ _ Hadd); [done | by apply Hnodes].
  - intros u v. rewrite (has_edge_add_node _ _ _ _ u v Hadd).
    rewrite (edge_cost_of_add_node _ _ _ _ u v Hadd). apply Hedges.
Qed.

Section routing_proofs.
Context `{nx.PathLibrary}.
Variables (self : OSPFSyn) (m : z3.ModelRef) (g_phy : nx.DiGraph).
Hypothesis g_phy_cost :
  ∀ u v, edge_cost_of g_phy u v = model_edge_cost self m u v.
Hypothesis g_phy_edges :
  ∀ u v, nx.has_edge g_phy u v = true ↔ is_Some (model_edge_cost self m u v).

Lemma routing_edge_inv dst t sd t' :
  (∃ p, nx.is_walk g_phy sd.1 dst p) →
  (∃ p, nx.is_walk g_phy sd.2 dst p) →
  nx.has_edge g_phy sd.1 sd.2 = true →
  routing_edge self m g_phy t sd = Ok t' →
  routing_tree_inv g_phy dst t → routing_tree_inv g_phy dst t'.
Proof.
  destruct sd as [src d]. simpl. intros Hsrc Hd Hedge.
  unfold routing_edge. simpl.
  intros (t1 & H1 & (t2 & H2 & (sv & Hsv & (dv & Hdv & [= <-])%bind_Ok)
    %bind_Ok)%bind_Ok)%bind_Ok Hinv.
  apply (routing_tree_inv_add_node _ _ _ _ _ _ Hsrc H1) in Hinv.
  apply (routing_tree_inv_add_node _ _ _ _ _ _ Hd H2) in Hinv.
  destruct Hinv as [Hnodes Hedges].
  apply get_vertex_Ok in Hsv, Hdv. split.
  - intros x [->|[->|Hx]]%add_edge_nodes; [done..|by apply Hnodes].
  - intros u v. rewrite has_edge_add_edge, edge_cost_of_add_edge.
    case_bool_decide as Huv; [|apply Hedges].
    destruct Huv as [-> ->]. intros _. split_and!; [done|by eexists|].
    rewrite g_phy_cost. apply g_phy_edges in Hedge as [c Hc].
    unfold model_edge_cost in *. rewrite Hsv, Hdv in *.
    by destruct (z3.edge_interp m sv dv).
Qed.

Lemma routing_node_inv dst t nv t' :
  routing_node self m g_phy dst t nv = Ok t' →
  routing_tree_inv g_phy dst t → routing_tree_inv g_phy dst t'.
Proof.
  unfold routing_node.
  intros (reach & _ & Hrest)%bind_Ok Hinv.
  destruct reach; simpl in Hrest; [|by injection Hrest as <-].
  apply bind_Ok in Hrest as (path & Hpath & Hfold).
  apply nx.shortest_path_walk in Hpath.
  eapply (foldM_inv (routing_tree_inv g_phy dst)); [|exact Hinv|exact Hfold].
  intros [u v] t1 t2 Huv Ht1 Hstep.
  destruct (walk_suffix _ _ _ _ u v Hpath Huv) as [Hu Hv].
  eapply (routing_edge_inv dst t1 (u, v)); [done|done| |done|done].
  destruct Hpath as (_ & _ & Hedges). by apply Hedges.
Qed.

Lemma routing_tree_step graphs dst_net graphs' :
  routing_tree self m g_phy graphs dst_net = Ok graphs' →
  ∃ t, graphs' = <[get_name (base self) dst_net := t]> graphs ∧
    routing_tree_inv g_phy (get_name (base self) dst_net) t.
Proof.
  unfold routing_tree. intros (t & Hfold & [= <-])%bind_Ok.
  exists t. split; [done|].
  eapply (foldM_inv (routing_tree_inv g_phy _)); [| |exact Hfold].
  - intros nv t1 t2 _ Ht1 Hstep. by eapply routing_node_inv.
  - split.
    + intros n [x Hx]. simpl in Hx. by rewrite lookup_empty in Hx.
    + intros u v. unfold nx.has_edge. simpl. by rewrite lookup_empty.
Qed.

Lemma routing_trees_inv graphs :
  foldM (routing_tree self m g_phy) ∅ (networks (base self)) = Ok graphs →
  (∀ dst t, graphs !! dst = Some t → routing_tree_inv g_phy dst t) ∧
  (∀ dst_net, dst_net ∈ networks (base self) →
     is_Some (graphs !! get_name (base self) dst_net)).
Proof.
  intros Hfold. split.
  - eapply (foldM_inv (λ gs : gmap string nx.DiGraph,
      ∀ dst t, gs !! dst = Some t → routing_tree_inv g_phy dst t));
      [| |exact Hfold].
    + intros dst_net gs1 gs2 _ Hgs1 (t & -> & Ht)%routing_tree_step dst t'.
      destruct (decide (dst = get_name (base self) dst_net)) as [->|Hne].
      * rewrite lookup_insert_eq. by intros [= <-].
      * rewrite lookup_insert_ne by done. apply Hgs1.
    + intros dst t. by rewrite lookup_empty.
  - intros dst_net Hin.
    destruct (foldM_visit _ _ _ _ dst_net Hin Hfold)
      as (l1 & l2 & gs1 & gs2 & _ & _ & Hstep & Hrest).
    eapply (foldM_inv (λ gs : gmap string nx.DiGraph,
      is_Some (gs !! get_name (base self) dst_net))); [| |exact Hrest].
    + intros y gs3 gs4 _ Hgs3 (t & -> & _)%routing_tree_step.
      destruct (decide (get_name (base self) dst_net
                        = get_name (base self) y)) as [->|Hne].
      * rewrite lookup_insert_eq. by eexists.
      * by rewrite lookup_insert_ne.
    + apply routing_tree_step in Hstep as (t & -> & _).
      rewrite lookup_insert_eq. by eexists.
Qed.

End routing_proofs.

(** C8: after a satisfiable solve there is a routing tree for every
    destination network; every node of the tree for a destination has a
    walk to that destination in the graph [get_output_network_graph]
    returns, and every edge of the tree is an edge of that graph with the
    same cost. *)
Theorem routing_trees_within_output_graph `{nx.PathLibrary}
  (self : OSPFSyn) (m : z3.ModelRef) (g_phy : nx.DiGraph)
  (graphs : gmap string nx.DiGraph) (self1 self2 : OSPFSyn) :
  solved self m →
  get_output_network_graph self = Ok (g_phy, self1) →
  get_output_routing_graphs self = Ok (graphs, self2) →
  (∀ dst_net, dst_net ∈ networks (base self) →
     is_Some (graphs !! get_name (base self) dst_net)) ∧
  ∀ dst t, graphs !! dst = Some t →
    (∀ n, n ∈ nx.nodes t → ∃ p, nx.is_walk g_phy n dst p) ∧
    (∀ u v, nx.has_edge t u v = true →
       nx.has_edge g_phy u v = true ∧
       ∃ c, edge_cost_of t u v = Some c ∧ edge_cost_of g_phy u v = Some c).
Proof.
  intros [Hm _] Hphy Hrouting.
  destruct (output_graph_spec self m Hm)
    as (g & Hg & _ & _ & Hcost & Hedges).
  rewrite Hg in Hphy. injection Hphy as <- <-.
  unfold get_output_routing_graphs, z3.model in Hrouting.
  rewrite Hm, Hg in Hrouting. simpl in Hrouting.
  apply bind_Ok in Hrouting as (gs & Hfold & [= <- <-]).
  destruct (routing_trees_inv self m g Hcost Hedges gs Hfold) as [Hinv Hkeys].
  split; [done|]. intros dst t Ht. destruct (Hinv dst t Ht) as [Hnodes Htree].
  split.
  - intros n Hn. by apply Hnodes, elem_of_nodes.
  - intros u v Huv. destruct (Htree u v Huv) as (Hphy & [c Hc] & Heq).
    split; [done|]. exists c. by rewrite Heq.
Qed.

Lemma routing_trees_within_output_graph_witness :
  ∃ g_phy graphs,
    get_output_network_graph Examples.tri3 = Ok (g_phy, Examples.tri3) ∧
    @get_output_routing_graphs Examples.reference_paths Examples.tri3
      = Ok (graphs, Examples.tri3) ∧
    (∀ dst_net, dst_net ∈ networks (base Examples.tri3) →
       is_Some (graphs !! get_name (base Examples.tri3) dst_net)) ∧
    ∀ dst t, graphs !! dst = Some t →
      (∀ n, n ∈ nx.nodes t → ∃ p, nx.is_walk g_phy n dst p) ∧
      (∀ u v, nx.has_edge t u v = true →
         nx.has_edge g_phy u v = true ∧
         ∃ c, edge_cost_of t u v = Some c ∧ edge_cost_of g_phy u v = Some c).
Proof.
  eexists _, _.
  split; [vm_compute; reflexivity|]. split; [vm_compute; reflexivity|].
  eapply (@routing_trees_within_output_graph Examples.reference_paths
            Examples.tri3 _ _ _ _ _ tri3_solved).
  - vm_compute. reflexivity.
  - vm_compute. reflexivity.
Defined.

(** ** Fixed costs in the output views *)

Section routing_spec.
Context `{nx.PathLibrary}.

Lemma routing_graphs_spec self m graphs self2 :
  z3.last_model (solver self) = Some m →
  get_output_routing_graphs self = Ok (graphs, self2) →
  ∃ g_phy, get_output_network_graph self = Ok (g_phy, self) ∧
    (∀ u v, edge_cost_of g_phy u v = model_edge_cost self m u v) ∧
    (∀ dst t, graphs !! dst = Some t → routing_tree_inv g_phy dst t).
Proof.
  intros Hm Hrouting.
  destruct (output_graph_spec self m Hm)
    as (g & Hg & _ & _ & Hcost & Hedges).
  unfold get_output_routing_graphs, z3.model in Hrouting.
  rewrite Hm, Hg in Hrouting. simpl in Hrouting.
  apply bind_Ok in Hrouting as (gs & Hfold & [= <- <-]).
  destruct (routing_trees_inv self m g Hcost Hedges gs Hfold) as [Hinv _].
  by exists g.
Qed.

End routing_spec.

(** A non-zero cost fixed on an edge between routers is the cost every
    model of the session gives that edge, and the edge is switched on. *)
Lemma fixed_cost_in_model cv cfgs g slv self0 self m u v c :
  __init__ cv cfgs (Some g) slv = Ok self0 →
  session self0 self →
  solved self m →
  router_node g u → router_node g v →
  u ∉ network_names (base self) → v ∉ network_names (base self) →
  fixed_cost (default [] cfgs) g u v = Some c → c ≠ 0 →
  model_edge_cost self m u v = Some c.
Proof.
  intros Hinit Hsess [Hm Hmodels] Hu Hv Hnu Hnv Hfixed Hc.
  pose proof (session_baseline _ _ _ _ _ _ Hinit Hsess) as Hbase.
  pose proof (session_spec _ _ Hsess) as (_ & Hg & _).
  pose proof (init_topology _ _ _ _ _ Hinit) as [Hnodes Hedges].
  specialize (Hedges (router_node_nonempty _ _ Hu) u v) as [Hedge Hcost].
  rewrite Hfixed in Hcost.
  destruct (Hbase u v) as (su & sv & Hsu & Hsv & Henc).
  { split; [|done]. rewrite Hg. by apply Hnodes. }
  { split; [|done]. rewrite Hg. by apply Hnodes. }
  rewrite Hg, Hcost in Henc.
  assert (nx.has_edge (network_graph self0) u v = true) as Hhas.
  { apply has_edge_get_edge. unfold edge_cost_of in Hcost.
    destruct (nx.get_edge (network_graph self0) u v); [by eexists | done]. }
  rewrite Hhas, bool_decide_eq_true_2 in Henc by done.
  destruct Henc as [He Heq]. apply Hmodels in He, Heq. simpl in He, Heq.
  apply Z.eqb_eq in Heq. unfold model_edge_cost.
  by rewrite Hsu, Hsv, He, Heq.
Qed.

(** C2, as the code has it: a non-zero cost fixed on an edge between two
    routers (by the graph attribute or, overriding it, by the last
    [SetOSPFEdgeCost] for that edge) is the cost each output view reports
    for the edge after a satisfiable solve: the list of
    [get_output_configs] has the triple with that cost and no other triple
    for the pair, the graph of [get_output_network_graph] carries it, and so
    does every routing tree that contains the edge. *)
Theorem nonzero_fixed_cost_kept `{nx.PathLibrary}
  cv cfgs g slv self0 self m (u v : string) (c : Z) :
  __init__ cv cfgs (Some g) slv = Ok self0 →
  session self0 self →
  solved self m →
  router_node g u → router_node g v →
  u ∉ network_names (base self) → v ∉ network_names (base self) →
  fixed_cost (default [] cfgs) g u v = Some c → c ≠ 0 →
  (∀ out self', get_output_configs self = Ok (out, self') →
     SetOSPFEdgeCost u v c ∈ out ∧
     ∀ c', SetOSPFEdgeCost u v c' ∈ out → c' = c) ∧
  (∀ g_phy self', get_output_network_graph self = Ok (g_phy, self') →
     edge_cost_of g_phy u v = Some c) ∧
  (∀ graphs self' dst t,
     get_output_routing_graphs self = Ok (graphs, self') →
     graphs !! dst = Some t → nx.has_edge t u v = true →
     edge_cost_of t u v = Some c).
Proof.
  intros Hinit Hsess Hsolved Hu Hv Hnu Hnv Hfixed Hc.
  pose proof (fixed_cost_in_model _ _ _ _ _ _ _ _ _ _ Hinit Hsess Hsolved
                Hu Hv Hnu Hnv Hfixed Hc) as Hmodel.
  destruct Hsolved as [Hm Hmodels].
  unfold model_edge_cost in Hmodel.
  destruct (name_to_vertex (base self) !! u) as [su|] eqn:Hsu; [|done].
  destruct (name_to_vertex (base self) !! v) as [sv|] eqn:Hsv; [|done].
  destruct (z3.edge_interp m su sv) eqn:Hedge; [|done].
  injection Hmodel as Hcost.
  split_and!.
  - intros out self' Hout. split.
    + apply (elem_of_output_configs self m out self'); [done..|].
      by exists su, sv.
    + intros c' Hin.
      apply (elem_of_output_configs self m out self') in Hin
        as (su' & sv' & Hsu' & Hsv' & _ & ->); [|done..].
      congruence.
  - intros g_phy self' Hphy.
    destruct (output_graph_spec self m Hm) as (g' & Hg' & _ & _ & Hcosts & _).
    rewrite Hg' in Hphy. injection Hphy as <- <-.
    rewrite Hcosts. unfold model_edge_cost. by rewrite Hsu, Hsv, Hedge, Hcost.
  - intros graphs self' dst t Hrouting Ht Htree.
    destruct (routing_graphs_spec self m graphs self' Hm Hrouting)
      as (g_phy & _ & Hcosts & Hinv).
    destruct (Hinv dst t Ht) as [_ Hedges].
    destruct (Hedges u v Htree) as (_ & _ & <-).
    rewrite Hcosts. unfold model_edge_cost. by rewrite Hsu, Hsv, Hedge, Hcost.
Qed.

Lemma nonzero_fixed_cost_kept_witness :
  (∀ out self', get_output_configs Examples.tri3 = Ok (out, self') →
     SetOSPFEdgeCost "a" "b" 5 ∈ out ∧
     ∀ c', SetOSPFEdgeCost "a" "b" c' ∈ out → c' = 5) ∧
  (∀ g_phy self', get_output_network_graph Examples.tri3 = Ok (g_phy, self') →
     edge_cost_of g_phy "a" "b" = Some 5) ∧
  (∀ graphs self' dst t,
     @get_output_routing_graphs Examples.reference_paths Examples.tri3
       = Ok (graphs, self') →
     graphs !! dst = Some t → nx.has_edge t "a" "b" = true →
     edge_cost_of t "a" "b" = Some 5).
Proof.
  apply (@nonzero_fixed_cost_kept Examples.reference_paths
           Examples.registry None (Examples.triangle (Some 5)) None
           Examples.tri0 Examples.tri3 (Examples.triangle_model 5 10 1)
           "a" "b" 5 tri0_built tri_session tri3_solved).
  - eexists. split; reflexivity.
  - eexists. split; reflexivity.
  - apply not_elem_of_network_names. discriminate.
  - apply not_elem_of_network_names. discriminate.
  - reflexivity.
  - lia.
Defined.

(** C2 as stated fails for a fixed cost of zero: with [SetOSPFEdgeCost a b 0]
    in the initial configurations, a model that gives a -> b the cost 7
    satisfies every constraint, and the output reports 7. *)
Lemma zero_fixed_cost_not_kept :
  fixed_cost [SetOSPFEdgeCost "a" "b" 0] (Examples.triangle None) "a" "b"
    = Some 0 ∧
  __init__ Examples.registry (Some [SetOSPFEdgeCost "a" "b" 0])
    (Some (Examples.triangle None)) None = Ok Examples.zero0 ∧
  session Examples.zero0 Examples.zero1 ∧
  solved Examples.zero1 (Examples.triangle_model 7 10 1) ∧
  ∃ out, get_output_configs Examples.zero1 = Ok (out, Examples.zero1) ∧
    SetOSPFEdgeCost "a" "b" 7 ∈ out.
Proof.
  split; [reflexivity|]. split; [vm_compute; reflexivity|]. split.
  { eapply rtc_l; [|apply rtc_refl].
    apply step_check, (z3.check_sat_model _ (Examples.triangle_model 7 10 1)).
    apply models_of_modelsb. vm_compute. reflexivity. }
  split.
  { split; [reflexivity|]. apply models_of_modelsb. vm_compute. reflexivity. }
  eexists. split; [vm_compute; reflexivity|].
  rewrite !elem_of_cons. auto 10.
Qed.

(** ** Path costs under a model *)

Lemma eval_py_add m a b :
  z3.eval_num m (z3.py_add a b) = z3.eval_num m a + z3.eval_num m b.
Proof. by destruct a, b. Qed.

Lemma eval_py_lt m a b :
  z3.eval_bool m (z3.py_lt a b) = (z3.eval_num m a <? z3.eval_num m b).
Proof. by destruct a, b. Qed.

Lemma eval_fold_py_add m l : ∀ acc,
  z3.eval_num m (fold_left z3.py_add l acc)
  = z3.eval_num m acc + foldr (λ n r, z3.eval_num m n + r) 0 l.
Proof.
  induction l as [|n l IH]; intros acc; simpl; [lia|].
  rewrite IH, eval_py_add. lia.
Qed.

Lemma eval_py_sum m l :
  z3.eval_num m (z3.py_sum l) = foldr (λ n r, z3.eval_num m n + r) 0 l.
Proof. unfold z3.py_sum. by rewrite eval_fold_py_add. Qed.

(** For an encoded pair, the term [_get_edge_cost] returns evaluates to the
    cost the outputs report for the pair. *)
Lemma get_edge_cost_resolved self m u v n :
  z3.models m (solver self) →
  pair_encoded self u v →
  _get_edge_cost self u v = Ok n →
  resolved_edge_cost self m (u, v) = Some (z3.eval_num m n).
Proof.
  intros Hmodels (su & sv & Hsu & Hsv & Henc). unfold _get_edge_cost.
  intros (d & Hd & Hrest)%bind_Ok.
  unfold resolved_edge_cost. simpl. rewrite Hsu, Hsv.
  assert (nx.has_edge (network_graph self) u v = true) as Hhas
    by (apply has_edge_get_edge; by eexists).
  rewrite Hhas in Henc. unfold edge_cost_of in Henc. rewrite Hd in Henc.
  destruct Henc as [_ Hcost]. simpl in Hrest. case_bool_decide as Hpos.
  - injection Hrest as <-. destruct (nx.cost d) as [c|]; simpl in *; [|lia].
    rewrite bool_decide_eq_true_2 in Hcost by lia.
    apply Hmodels in Hcost. simpl in Hcost. apply Z.eqb_eq in Hcost.
    by rewrite Hcost.
  - unfold get_vertex in Hrest. rewrite Hsu, Hsv in Hrest. simpl in Hrest.
    by injection Hrest as <-.
Qed.

Lemma traverse_costs_resolved self m l ns :
  z3.models m (solver self) →
  (∀ uv, uv ∈ l → pair_encoded self uv.1 uv.2) →
  Forall2 (λ uv n, _get_edge_cost self uv.1 uv.2 = Ok n) l ns →
  sum_resolved self m l = Some (foldr (λ n r, z3.eval_num m n + r) 0 ns).
Proof.
  intros Hmodels Henc Hall. induction Hall as [|[u v] n l ns Hn _ IH]; [done|].
  simpl. rewrite (get_edge_cost_resolved self m u v n); [|done| |done].
  - rewrite IH; [done|]. intros uv Huv. apply Henc. by right.
  - apply (Henc (u, v)). by left.
Qed.

(** The value of the term [_get_path_cost] builds is the sum of the
    resolved edge costs along the path. *)
Lemma get_path_cost_resolved self m p n :
  z3.models m (solver self) →
  (∀ uv, uv ∈ consecutive p → pair_encoded self uv.1 uv.2) →
  _get_path_cost self p = Ok n →
  resolved_path_cost self m p = Some (z3.eval_num m n).
Proof.
  intros Hmodels Henc. unfold _get_path_cost.
  intros (ns & Hns%traverse_Ok & [= <-])%bind_Ok.
  unfold resolved_path_cost. rewrite eval_py_sum.
  by apply traverse_costs_resolved.
Qed.

Lemma elem_of_consecutive {A} (l : list A) u v :
  (u, v) ∈ consecutive l → u ∈ l ∧ v ∈ l.
Proof.
  induction l as [|x [|y r] IH]; try by intros ?%elem_of_nil.
  change (consecutive (x :: y :: r)) with ((x, y) :: consecutive (y :: r)).
  intros [[= -> ->]|Hin]%elem_of_cons.
  - split; [left | right; left].
  - destruct (IH Hin). split; by right.
Qed.

(** ** What [push_requirements] asserts *)

Lemma push_req_asserts self s path s' :
  push_req self s (PathReq path) = Ok s' →
  ∃ src dst pc sps,
    py_first path = Ok src ∧ py_last path = Ok dst ∧
    _get_path_cost self path = Ok pc ∧
    nx.all_simple_paths (network_graph self) src dst = Ok sps ∧
    ∀ sp, sp ∈ sps → sp ≠ path →
      ∃ spc, _get_path_cost self sp = Ok spc ∧
        z3.py_lt pc spc ∈ z3.assertions s'.
Proof.
  simpl.
  intros (src & Hsrc & (dst & Hdst & (pc & Hpc & (sps & Hsps & Hfold)
    %bind_Ok)%bind_Ok)%bind_Ok)%bind_Ok.
  exists src, dst, pc, sps. split_and!; [done..|].
  intros sp Hsp Hne.
  destruct (foldM_visit _ _ _ _ sp Hsp Hfold)
    as (l1 & l2 & s1 & s2 & _ & _ & Hstep & Hrest).
  apply foldM_grows in Hrest;
    [|intros x a b; apply push_alternative_grows].
  unfold push_alternative in Hstep.
  rewrite bool_decide_eq_true_2 in Hstep by done.
  apply bind_Ok in Hstep as (spc & Hspc & [= <-]).
  exists spc. split; [done|]. apply Hrest, elem_of_assertions_add. by left.
Qed.

Lemma push_requirements_asserts self self' path :
  push_requirements self = Ok (tt, self') →
  PathReq path ∈ reqs self →
  ∃ src dst pc sps,
    py_first path = Ok src ∧ py_last path = Ok dst ∧
    _get_path_cost self path = Ok pc ∧
    nx.all_simple_paths (network_graph self) src dst = Ok sps ∧
    ∀ sp, sp ∈ sps → sp ≠ path →
      ∃ spc, _get_path_cost self sp = Ok spc ∧
        z3.py_lt pc spc ∈ z3.assertions (solver self').
Proof.
  unfold push_requirements. intros (s & Hfold & [= <-])%bind_Ok Hreq.
  destruct (foldM_visit _ _ _ _ _ Hreq Hfold)
    as (l1 & l2 & s1 & s2 & _ & _ & Hstep & Hrest).
  apply foldM_grows in Hrest; [|intros x a b; apply push_req_grows].
  apply push_req_asserts in Hstep
    as (src & dst & pc & sps & H1 & H2 & H3 & H4 & Hall).
  exists src, dst, pc, sps. split_and!; [done..|].
  intros sp Hsp Hne. destruct (Hall sp Hsp Hne) as (spc & Hspc & Hin).
  exists spc. split; [done|]. simpl. by apply Hrest.
Qed.

(** ** The enumeration of simple paths is complete *)

Lemma elem_of_successors g u v :
  nx.has_edge g u v = true → v ∈ nx.successors g u.
Proof.
  unfold nx.has_edge, nx.successors.
  destruct (nx.adj g !! u) as [nbrs|]; [|done]. simpl.
  intros [d Hd]%bool_decide_eq_true. apply list_elem_of_fmap.
  exists (v, d). split; [done|]. by apply elem_of_map_to_list.
Qed.

Lemma simple_paths_from_complete g (t : string) d : ∀ visited u tail,
  tail ≠ [] → last tail = Some t →
  (∀ a b, (a, b) ∈ consecutive (u :: tail) → nx.has_edge g a b = true) →
  NoDup (visited ++ tail) →
  (length tail ≤ S d)%nat →
  visited ++ tail ∈ nx.simple_paths_from g t d visited (nx.successors g u).
Proof.
  induction d as [|d IH]; intros visited u [|x tail] Hne Hlast Hedges Hnd Hlen;
    try done.
  - destruct tail as [|y tail]; [|simpl in Hlen; lia].
    injection Hlast as ->. simpl.
    rewrite bool_decide_eq_true_2; [left|].
    apply elem_of_successors, Hedges. left.
  - assert (x ∈ nx.successors g u) as Hx
      by (apply elem_of_successors, Hedges; left).
    simpl. apply elem_of_flat_map. exists x. split; [done|].
    case_bool_decide as Hxt.
    + subst x. destruct tail as [|y tail]; [left|].
      exfalso. apply NoDup_app in Hnd as (_ & _ & Hnd).
      apply NoDup_cons in Hnd as [Hnotin _]. apply Hnotin.
      change (last (t :: y :: tail)) with (last (y :: tail)) in Hlast.
      by apply last_Some_elem_of.
    + case_bool_decide as Hvis.
      { exfalso. apply NoDup_app in Hnd as (_ & Hdisj & _).
        apply (Hdisj x Hvis). left. }
      replace (visited ++ x :: tail) with ((visited ++ [x]) ++ tail)
        by (by rewrite <- app_assoc).
      destruct tail as [|y tail]; [by injection Hlast as ->|].
      apply IH; [done|done| | |simpl in *; lia].
      * intros a b Hab. apply Hedges.
        change (consecutive (u :: x :: y :: tail))
          with ((u, x) :: consecutive (x :: y :: tail)). by right.
      * by rewrite <- app_assoc.
Qed.

Lemma all_simple_paths_complete g s t sps sp :
  nx.all_simple_paths g s t = Ok sps →
  simple_path g s t sp → s ≠ t →
  (∀ n, n ∈ sp → n ∈ nx.nodes g) →
  sp ∈ sps.
Proof.
  intros Hall [(Hhead & Hlast & Hedges) Hnd] Hst Hnodes.
  destruct sp as [|x tail]; [done|]. injection Hhead as ->.
  assert (tail ≠ []) as Htail.
  { intros ->. injection Hlast as ->. done. }
  assert (length (s :: tail) ≤ nx.len g)%nat as Hlen.
  { unfold nx.len. rewrite <- length_map_to_list.
    rewrite <- (length_fmap fst (map_to_list (nx.node g))).
    apply submseteq_length, NoDup_submseteq; [done|]. apply Hnodes. }
  unfold nx.all_simple_paths in Hall.
  destruct (nx.has_node g s); simpl in Hall; [|done].
  destruct (nx.has_node g t); simpl in Hall; [|done].
  simpl in Hlen.
  destruct (nx.len g - 1)%nat as [|d] eqn:Hd.
  { destruct tail; [done | simpl in Hlen; lia]. }
  injection Hall as <-.
  apply (simple_paths_from_complete g t d [s] s tail); [done| |done|done|lia].
  destruct tail as [|y tail]; [done|]. done.
Qed.

(** ** The required path is the cheapest *)

(** X20: take a session built by [__init__] in which
    [push_requirements] succeeded, and a model of its constraints.  For a
    registered requirement with distinct endpoints whose path runs over
    routers, the sum of the resolved edge costs along the required path is
    strictly less than the sum along every other simple path over routers
    between the same endpoints. *)
Theorem required_path_strictly_cheapest cv cfgs og slv
  (self0 self1 self2 self3 : OSPFSyn) (m : z3.ModelRef)
  (path sp : list string) (src dst : string) :
  __init__ cv cfgs og slv = Ok self0 →
  session self0 self1 →
  push_requirements self1 = Ok (tt, self2) →
  session self2 self3 →
  solved self3 m →
  PathReq path ∈ reqs self1 →
  head path = Some src → last path = Some dst → src ≠ dst →
  (∀ n, n ∈ path → router self3 n) →
  simple_path (network_graph self3) src dst sp →
  (∀ n, n ∈ sp → router self3 n) →
  sp ≠ path →
  ∃ c1 c2,
    resolved_path_cost self3 m path = Some c1 ∧
    resolved_path_cost self3 m sp = Some c2 ∧
    c1 < c2.
Proof.
  intros Hinit Hs01 Hpush Hs23 [_ Hmodels] Hreq Hhead Hlast Hne Hpath Hsp
    Hrouters Hdiff.
  assert (session self0 self3) as Hs03.
  { eapply rtc_trans; [exact Hs01|]. eapply rtc_l; [|exact Hs23].
    by apply step_push_requirements. }
  pose proof (session_baseline _ _ _ _ _ _ Hinit Hs03) as Hbase.
  pose proof (session_spec _ _ Hs01) as (Hb1 & Hg1 & _).
  pose proof (session_spec _ _ Hs03) as (Hb3 & Hg3 & _).
  pose proof (session_spec _ _ Hs23) as (_ & _ & Hgrow).
  destruct (push_requirements_asserts _ _ _ Hpush Hreq)
    as (src' & dst' & pc & sps & Hsrc & Hdst & Hpc & Hsps & Hall).
  assert (src' = src) as ->.
  { destruct path; simpl in *; congruence. }
  assert (dst' = dst) as ->.
  { unfold py_last in Hdst. rewrite Hlast in Hdst. congruence. }
  assert (∀ p n, _get_path_cost self1 p = Ok n → _get_path_cost self3 p = Ok n)
    as Hsame.
  { intros p n. unfold _get_path_cost, _get_edge_cost.
    by rewrite Hb3, Hg3, <- Hb1, <- Hg1. }
  assert (sp ∈ sps) as Hin.
  { eapply all_simple_paths_complete; [exact Hsps| |done|].
    - by rewrite Hg1, <- Hg3.
    - intros n Hn. rewrite Hg1, <- Hg3. by apply Hrouters. }
  destruct (Hall sp Hin Hdiff) as (spc & Hspc & Hlt).
  apply Hgrow, Hmodels in Hlt. rewrite eval_py_lt in Hlt.
  apply Z.ltb_lt in Hlt.
  exists (z3.eval_num m pc), (z3.eval_num m spc). split_and!; [| |done].
  - apply get_path_cost_resolved; [done| |by apply Hsame].
    intros [u v] [Hu Hv]%elem_of_consecutive. apply Hbase; by apply Hpath.
  - apply get_path_cost_resolved; [done| |by apply Hsame].
    intros [u v] [Hu Hv]%elem_of_consecutive.
    apply Hbase; by apply Hrouters.
Qed.

Lemma tri3_router n : n ∈ ["a"; "b"; "c"] → router Examples.tri3 n.
Proof.
  intros Hn. split.
  - assert (nx.nodes (network_graph Examples.tri3) = ["c"; "a"; "b"]) as ->
      by (vm_compute; reflexivity).
    rewrite !elem_of_cons in Hn |- *. tauto.
  - apply not_elem_of_network_names. intros Heq. subst n.
    rewrite !elem_of_cons in Hn.
    destruct Hn as [?|[?|[?|Hn]]]; [discriminate..|].
    by apply elem_of_nil in Hn.
Qed.

Lemma required_path_strictly_cheapest_witness :
  ∃ c1 c2,
    resolved_path_cost Examples.tri3 (Examples.triangle_model 5 10 1)
      ["a"; "b"; "c"] = Some c1 ∧
    resolved_path_cost Examples.tri3 (Examples.triangle_model 5 10 1)
      ["a"; "c"] = Some c2 ∧
    c1 < c2.
Proof.
  apply (required_path_strictly_cheapest Examples.registry None
           (Some (Examples.triangle (Some 5))) None
           Examples.tri0 Examples.tri1 Examples.tri2 Examples.tri3
           (Examples.triangle_model 5 10 1) ["a"; "b"; "c"] ["a"; "c"]
           "a" "c" tri0_built).
  - apply rtc_once.
    apply (step_add_path_req _ (PathReq ["a"; "b"; "c"])). reflexivity.
  - vm_compute. reflexivity.
  - apply rtc_once, step_check.
    apply (z3.check_sat_model _ (Examples.triangle_model 5 10 1)).
    apply models_of_modelsb. vm_compute. reflexivity.
  - exact tri3_solved.
  - vm_compute. left.
  - reflexivity.
  - reflexivity.
  - discriminate.
  - apply tri3_router.
  - split.
    + split; [reflexivity|]. split; [reflexivity|].
      intros u v Huv. apply list_elem_of_singleton in Huv.
      injection Huv as -> ->. vm_compute. reflexivity.
    + apply NoDup_cons. split; [|apply NoDup_singleton].
      rewrite list_elem_of_singleton. discriminate.
  - intros n Hn. apply tri3_router. rewrite !elem_of_cons in Hn.
    destruct Hn as [->|[->|Hn]]; [left|do 2 right; left|].
    by apply elem_of_nil in Hn.
  - discriminate.
Defined.


(** * Further properties of the code *)

(** ** More on loops *)

Lemma foldM_id {A B} (f : B → A → Res B) l b :
  (∀ x b1, x ∈ l → f b1 x = Ok b1) → foldM f b l = Ok b.
Proof.
  induction l as [|x l IH]; intros Hf; simpl; [done|].
  rewrite Hf by left. simpl. apply IH. intros y b1 Hy. apply Hf. by right.
Qed.

Lemma foldM_total {A B} (P : B → Prop) (f : B → A → Res B) l b :
  (∀ x b1, x ∈ l → P b1 → ∃ b2, f b1 x = Ok b2 ∧ P b2) →
  P b → ∃ b', foldM f b l = Ok b' ∧ P b'.
Proof.
  revert b. induction l as [|x l IH]; intros b Hf Hb; simpl.
  - by exists b.
  - destruct (Hf x b) as (b1 & -> & Hb1); [by left|done|]. simpl.
    apply IH; [|done]. intros y b2 Hy. apply Hf. by right.
Qed.

(** A loop raises when an element raises on every accumulator that
    satisfies an invariant of the loop. *)
Lemma foldM_raises_inv {A B} (P : B → Prop) (f : B → A → Res B) l b x :
  (∀ y b1 b2, P b1 → f b1 y = Ok b2 → P b2) →
  (∀ b1, P b1 → raises (f b1 x)) →
  x ∈ l → P b → raises (foldM f b l).
Proof.
  intros Hinv Hx Hin. revert b.
  induction Hin as [x l|x y l _ IH]; intros b Hb; simpl.
  - destruct (Hx b Hb) as [e ->]. by exists e.
  - destruct (f b y) as [b1|e] eqn:Hy; simpl; [|by exists e].
    apply IH; [done|]. by eapply Hinv.
Qed.

(** ** Loading: success and composition *)

Lemma load_loop_total l : ∀ g,
  NoDup l.*1 →
  (∀ n d, (n, d) ∈ l →
     nx.node g !! n = Some d ∧ is_Some (d !! VERTEX_TYPE)) →
  ∃ g', foldM _load_graph_step g l = Ok g' ∧ nx.graph g' = nx.graph g.
Proof.
  induction l as [|[n d] l IH]; intros g Hnd Hl; simpl.
  - by exists g.
  - apply NoDup_cons in Hnd as [Hn Hnd].
    destruct (Hl n d) as [Hgn [ty Hty]]; [by left|].
    assert (∃ g1, _load_graph_step g (n, d) = Ok g1 ∧
              nx.graph g1 = nx.graph g ∧
              ∀ n' d', (n', d') ∈ l →
                nx.node g1 !! n' = Some d' ∧ is_Some (d' !! VERTEX_TYPE))
      as (g1 & -> & Hattr & Hl1).
    { unfold _load_graph_step, nx.del_node_entry. simpl. rewrite Hty.
      case_bool_decide as Hne.
      - rewrite Hgn. eexists. split; [done|]. split; [done|].
        intros n' d' Hin. simpl.
        destruct (Hl n' d') as [Hn' Hty']; [by right|].
        split; [|done]. rewrite lookup_delete_ne; [done|].
        intros <-. apply Hn. apply list_elem_of_fmap. by exists (n, d').
      - exists g. split; [done|]. split; [done|].
        intros n' d' Hin. apply Hl. by right. }
    simpl. destruct (IH g1 Hnd Hl1) as (g' & Hg' & Hattr').
    exists g'. split; [done|]. congruence.
Qed.

(** X1: when every node of a non-empty input graph carries a type tag,
    [_load_graph] succeeds; the node dictionary of the result holds exactly
    the nodes tagged as routers, with their data, while the adjacency and
    the graph attributes are those of the input. *)
Theorem load_graph_typed_succeeds (g : nx.DiGraph) :
  nx.len g ≠ 0%nat →
  (∀ n d, nx.node g !! n = Some d → is_Some (d !! VERTEX_TYPE)) →
  ∃ g', _load_graph (Some g) = Ok g' ∧
    (∀ n, n ∈ nx.nodes g' ↔ router_node g n) ∧
    (∀ n d, nx.node g' !! n = Some d → nx.node g !! n = Some d) ∧
    nx.adj g' = nx.adj g ∧ nx.graph g' = nx.graph g.
Proof.
  intros Hlen Htyped.
  assert (∃ g', _load_graph (Some g) = Ok g' ∧ nx.graph g' = nx.graph g)
    as (g' & Hload & Hattr).
  { unfold _load_graph. destruct (Nat.eqb_spec (nx.len g) 0) as [?|_]; [done|].
    apply load_loop_total; [apply NoDup_fst_map_to_list|].
    intros n d Hin%elem_of_map_to_list. split; [done|]. by eapply Htyped. }
  exists g'. split; [done|].
  pose proof (load_graph_spec g g' Hload) as [Hnode Hadj].
  split_and!; [|  |by apply Hadj|done].
  - intros n. by apply load_graph_nodes.
  - intros n d. rewrite Hnode. destruct (nx.node g !! n) as [d'|]; [|done].
    simpl. case_bool_decide; [done|done].
Qed.

Lemma load_graph_typed_succeeds_witness :
  ∃ g', _load_graph (Some Examples.peer_graph) = Ok g' ∧
    (∀ n, n ∈ nx.nodes g' ↔ router_node Examples.peer_graph n) ∧
    (∀ n d, nx.node g' !! n = Some d →
       nx.node Examples.peer_graph !! n = Some d) ∧
    nx.adj g' = nx.adj Examples.peer_graph ∧
    nx.graph g' = nx.graph Examples.peer_graph.
Proof.
  apply (load_graph_typed_succeeds Examples.peer_graph).
  - vm_compute. discriminate.
  - intros n d Hn. simpl in Hn.
    repeat (rewrite lookup_insert in Hn; case_decide;
            [injection Hn as <-; by eexists|]).
    by rewrite lookup_empty in Hn.
Defined.

(** X2: loading is idempotent on a non-empty result: a graph that
    [_load_graph] returned, when it still has nodes, is returned unchanged by
    a second [_load_graph]. *)
Theorem load_graph_idempotent (g g' : nx.DiGraph) :
  _load_graph (Some g) = Ok g' → nx.len g' ≠ 0%nat →
  _load_graph (Some g') = Ok g'.
Proof.
  intros Hload Hlen. pose proof (load_graph_spec g g' Hload) as [Hnode _].
  unfold _load_graph. destruct (Nat.eqb_spec (nx.len g') 0) as [?|_]; [done|].
  apply foldM_id. intros [n d] b Hin%elem_of_map_to_list.
  unfold _load_graph_step. simpl.
  rewrite Hnode in Hin. destruct (nx.node g !! n) as [d'|]; [|done].
  simpl in Hin. case_bool_decide as Hty; [|done]. injection Hin as <-.
  rewrite Hty. by rewrite bool_decide_eq_false_2 by (by intros ?).
Qed.

Lemma load_graph_idempotent_witness :
  ∃ g', _load_graph (Some Examples.peer_graph) = Ok g' ∧
    _load_graph (Some g') = Ok g'.
Proof.
  eexists. split; [vm_compute; reflexivity|].
  eapply (load_graph_idempotent Examples.peer_graph).
  - vm_compute. reflexivity.
  - vm_compute. discriminate.
Defined.

(** X3: a non-empty graph whose nodes are all tagged as routers passes
    through [_load_graph] unchanged. *)
Theorem load_graph_routers_unchanged (g : nx.DiGraph) :
  nx.len g ≠ 0%nat →
  (∀ n d, nx.node g !! n = Some d → d !! VERTEX_TYPE = Some NODE_TYPE) →
  _load_graph (Some g) = Ok g.
Proof.
  intros Hlen Hall. unfold _load_graph.
  destruct (Nat.eqb_spec (nx.len g) 0) as [?|_]; [done|].
  apply foldM_id. intros [n d] b Hin%elem_of_map_to_list.
  unfold _load_graph_step. simpl. rewrite (Hall n d Hin).
  by rewrite bool_decide_eq_false_2 by (by intros ?).
Qed.

Lemma load_graph_routers_unchanged_witness :
  _load_graph (Some (Examples.triangle None)) = Ok (Examples.triangle None).
Proof.
  apply (load_graph_routers_unchanged (Examples.triangle None)).
  - vm_compute. discriminate.
  - intros n d Hn. apply elem_of_map_to_list in Hn.
    apply list_elem_of_In in Hn. vm_compute in Hn.
    repeat (destruct Hn as [[= <- <-]|Hn]; [vm_compute; reflexivity|]).
    destruct Hn.
Defined.

(** ** Construction: failures and success *)

Lemma load_graph_raise_kind og e : _load_graph og = Raise e → e = KeyError.
Proof.
  unfold _load_graph. apply foldM_raise_kind.
  intros b nd e'. apply load_graph_step_raise_kind.
Qed.

Lemma annotate_cost_raise_kind g cfg e :
  annotate_cost g cfg = Raise e → e = KeyError.
Proof.
  destruct cfg as [u v c|]; simpl; [|done].
  unfold nx.set_edge_cost.
  destruct (nx.get_edge g u v) as [d|e'] eqn:Hd; simpl; [done|].
  intros [= <-]. unfold nx.get_edge in Hd.
  destruct (nx.adj g !! u) as [nbrs|]; [|by injection Hd as <-].
  destruct (nbrs !! v); [done | by injection Hd as <-].
Qed.

Lemma get_vertex_raise_kind b n e : get_vertex b n = Raise e → e = KeyError.
Proof.
  unfold get_vertex. destruct (name_to_vertex b !! n); [done|].
  by intros [= <-].
Qed.

Lemma get_edge_raise_kind g u v e : nx.get_edge g u v = Raise e → e = KeyError.
Proof.
  unfold nx.get_edge. destruct (nx.adj g !! u) as [nbrs|]; [|by intros [= <-]].
  destruct (nbrs !! v); [done | by intros [= <-]].
Qed.

Lemma encode_pair_raise_kind b g src s dst e :
  encode_pair b g src s dst = Raise e → e = KeyError.
Proof.
  unfold encode_pair. case_bool_decide; [done|].
  destruct (get_vertex b src) as [sv|e1] eqn:H1; simpl;
    [|intros [= <-]; by eapply get_vertex_raise_kind].
  destruct (get_vertex b dst) as [dv|e2] eqn:H2; simpl;
    [|intros [= <-]; by eapply get_vertex_raise_kind].
  destruct (nx.has_edge g src dst); [|done].
  destruct (nx.get_edge g src dst) as [d|e3] eqn:H3; simpl;
    [|intros [= <-]; by eapply get_edge_raise_kind].
  destruct (nx.cost d); [case_bool_decide|]; done.
Qed.

Lemma encode_row_raise_kind b g s src e :
  encode_row b g s src = Raise e → e = KeyError.
Proof.
  unfold encode_row. case_bool_decide; [done|].
  apply foldM_raise_kind. intros s1 dst e'. apply encode_pair_raise_kind.
Qed.

Lemma read_input_graph_raise_kind self e :
  _read_input_graph self = Raise e → e = KeyError.
Proof.
  unfold _read_input_graph.
  destruct (foldM annotate_cost _ _) as [g|e1] eqn:Hg; simpl.
  - destruct (foldM (encode_row _ _) _ _) as [s|e2] eqn:Hs; simpl; [done|].
    intros [= <-]. eapply foldM_raise_kind; [|exact Hs].
    intros s1 src e'. apply encode_row_raise_kind.
  - intros [= <-]. eapply foldM_raise_kind; [|exact Hg].
    intros g1 cfg e'. apply annotate_cost_raise_kind.
Qed.

(** Construction fails with [KeyError] or not at all. *)
Lemma init_raise_kind cv cfgs og slv e :
  __init__ cv cfgs og slv = Raise e → e = KeyError.
Proof.
  unfold __init__. destruct (_load_graph og) as [g|e1] eqn:Hload; simpl.
  - apply read_input_graph_raise_kind.
  - intros [= <-]. by eapply load_graph_raise_kind.
Qed.

Lemma raises_KeyError {A} (r : Res A) :
  raises r → (∀ e, r = Raise e → e = KeyError) → r = Raise KeyError.
Proof. intros [e He] Hkind. rewrite He. f_equal. by apply Hkind. Qed.

Lemma load_graph_no_edge g g1 u v :
  _load_graph (Some g) = Ok g1 → nx.has_edge g u v = false →
  nx.has_edge g1 u v = false.
Proof.
  intros Hload Hno. destruct (decide (nx.len g = 0%nat)) as [Hlen|Hlen].
  - unfold _load_graph in Hload. rewrite Hlen in Hload. simpl in Hload.
    unfold nx.nodes_data in Hload. simpl in Hload.
    rewrite map_to_list_empty in Hload. injection Hload as <-.
    unfold nx.has_edge. simpl. by rewrite lookup_empty.
  - apply load_graph_spec in Hload as [_ Hadj].
    by rewrite (has_edge_adj g1 g u v (Hadj Hlen)).
Qed.

(** X4: a [SetOSPFEdgeCost] in the initial configurations that names an edge
    the input graph does not have makes construction fail with [KeyError]
    (the lookup [self.network_graph.edge[src][dst]] of the annotation
    loop). *)
Theorem init_cost_for_missing_edge_raises cv (cfgs : list Config)
  (g : nx.DiGraph) slv (u v : string) (c : Z) :
  SetOSPFEdgeCost u v c ∈ cfgs →
  nx.has_edge g u v = false →
  __init__ cv (Some cfgs) (Some g) slv = Raise KeyError.
Proof.
  intros Hin Hno. apply raises_KeyError; [|intros e; apply init_raise_kind].
  unfold __init__. destruct (_load_graph (Some g)) as [g1|e] eqn:Hload;
    simpl; [|by exists e].
  pose proof (load_graph_no_edge g g1 u v Hload Hno) as Hno1.
  unfold _read_input_graph. simpl.
  assert (raises (foldM annotate_cost g1 cfgs)) as [e ->]; [|by exists e].
  apply (foldM_raises_inv (λ b, nx.has_edge b u v = false) _ _ _
           (SetOSPFEdgeCost u v c)); [| |done|done].
  - intros cfg b1 b2 Hb1 Hstep. destruct cfg as [s d k|]; simpl in Hstep.
    + by rewrite (set_edge_cost_has_edge _ _ _ _ _ u v Hstep).
    + by injection Hstep as <-.
  - intros b1 Hb1. simpl. unfold nx.set_edge_cost.
    rewrite (get_edge_no_edge _ _ _ Hb1). by exists KeyError.
Qed.

Lemma init_cost_for_missing_edge_raises_witness :
  __init__ Examples.registry (Some [SetOSPFEdgeCost "b" "a" 3])
    (Some (Examples.triangle None)) None = Raise KeyError.
Proof.
  apply (init_cost_for_missing_edge_raises _ _ _ _ "b" "a" 3).
  - left.
  - reflexivity.
Defined.

Lemma annotate_nodes cfgs g g' :
  foldM annotate_cost g cfgs = Ok g' → nx.nodes g' = nx.nodes g.
Proof.
  intros (Hnode & _)%annotate_spec. unfold nx.nodes, nx.nodes_data.
  by rewrite Hnode.
Qed.

(** X6: construction succeeds when the graph loads, every
    [SetOSPFEdgeCost] names an edge of the graph, and every node of the
    filtered graph that is not a destination-network name has a vertex.  The
    session starts without requirements, with the registry [_create_vertices]
    gave, on a graph with the nodes and edges of the filtered one. *)
Theorem init_succeeds cv cfgs og slv (g1 : nx.DiGraph) :
  _load_graph og = Ok g1 →
  (∀ u v c, SetOSPFEdgeCost u v c ∈ default [] cfgs →
     nx.has_edge g1 u v = true) →
  (∀ n, n ∈ nx.nodes g1 → n ∉ network_names (cv (default [] cfgs) g1) →
     is_Some (name_to_vertex (cv (default [] cfgs) g1) !! n)) →
  ∃ self0, __init__ cv cfgs og slv = Ok self0 ∧
    base self0 = cv (default [] cfgs) g1 ∧
    reqs self0 = [] ∧
    nx.nodes (network_graph self0) = nx.nodes g1 ∧
    ∀ u v, nx.has_edge (network_graph self0) u v = nx.has_edge g1 u v.
Proof.
  intros Hload Hcfgs Hreg.
  assert (∃ self0, __init__ cv cfgs og slv = Ok self0) as [self0 Hinit].
  { unfold __init__. rewrite Hload. simpl. unfold _read_input_graph. simpl.
    destruct (foldM_total (λ b, ∀ u v, nx.has_edge b u v = nx.has_edge g1 u v)
                annotate_cost (default [] cfgs) g1) as (g2 & Hann & Hg2);
      [|done|].
    { intros cfg b1 Hin Hb1. destruct cfg as [u v c|]; simpl; [|by exists b1].
      assert (nx.has_edge b1 u v = true) as [d Hd]%has_edge_get_edge
        by (rewrite Hb1; by eapply Hcfgs).
      unfold nx.set_edge_cost. rewrite Hd. simpl. eexists. split; [done|].
      intros u' v'. rewrite <- Hb1.
      eapply set_edge_cost_has_edge. unfold nx.set_edge_cost.
      by rewrite Hd. }
    rewrite Hann. simpl.
    pose proof (annotate_nodes _ _ _ Hann) as Hnodes.
    destruct (foldM_total (λ _, True)
                (encode_row (cv (default [] cfgs) g1) g2) (nx.nodes g2)
                (default z3.new_solver slv)) as (s & -> & _); [|done|].
    { intros src s1 Hsrc _. unfold encode_row.
      case_bool_decide as Hnet; [by exists s1|].
      destruct (foldM_total (λ _, True)
                  (encode_pair (cv (default [] cfgs) g1) g2 src) (nx.nodes g2)
                  s1) as (s2 & -> & _); [|done|by exists s2].
      intros dst s3 Hdst _. unfold encode_pair.
      case_bool_decide as Hnet'; [by exists s3|].
      rewrite Hnodes in Hsrc, Hdst.
      destruct (Hreg src Hsrc Hnet) as [sv Hsv].
      destruct (Hreg dst Hdst Hnet') as [dv Hdv].
      unfold get_vertex. rewrite Hsv, Hdv. simpl.
      destruct (nx.has_edge g2 src dst) eqn:Hedge; [|by eexists].
      apply has_edge_get_edge in Hedge as [d ->]. simpl.
      destruct (nx.cost d); [case_bool_decide|]; by eexists. }
    simpl. by eexists. }
  exists self0. split; [done|].
  destruct (init_spec _ _ _ _ _ Hinit) as (g1' & Hload' & Hb & Hr & Hann & _).
  rewrite Hload in Hload'. injection Hload' as <-.
  split_and!; [done|done|by eapply annotate_nodes|].
  by apply annotate_spec in Hann as (_ & Hedge & _).
Qed.

Lemma init_succeeds_witness :
  ∃ self0,
    __init__ Examples.registry (Some [SetOSPFEdgeCost "a" "b" 4])
      (Some (Examples.triangle None)) None = Ok self0 ∧
    reqs self0 = [] ∧
    ∀ u v, nx.has_edge (network_graph self0) u v
           = nx.has_edge (Examples.triangle None) u v.
Proof.
  edestruct (init_succeeds Examples.registry
               (Some [SetOSPFEdgeCost "a" "b" 4])
               (Some (Examples.triangle None)) None)
    as (self0 & Hinit & _ & Hreqs & _ & Hedges).
  - vm_compute. reflexivity.
  - intros u v c Hin. apply list_elem_of_singleton in Hin.
    injection Hin as -> -> ->. vm_compute. reflexivity.
  - intros n Hn _.
    apply list_elem_of_In in Hn. vm_compute in Hn.
    destruct Hn as [<-|[<-|[<-|[]]]]; by eexists.
  - exists self0. split; [exact Hinit|]. split; [exact Hreqs|].
    intros u v. rewrite Hedges. apply has_edge_adj. reflexivity.
Defined.

(** ** What construction asserts, and nothing else *)

Lemma encode_pair_baseline_form b g s0 src s dst s' :
  src ∈ nx.nodes g → dst ∈ nx.nodes g → src ∉ network_names b →
  encode_pair b g src s dst = Ok s' →
  (∀ c, c ∈ z3.assertions s → c ∈ z3.assertions s0 ∨ baseline_form b g c) →
  ∀ c, c ∈ z3.assertions s' → c ∈ z3.assertions s0 ∨ baseline_form b g c.
Proof.
  intros Hsrc Hdst Hnet. unfold encode_pair. case_bool_decide as Hnet'.
  { by intros [= <-]. }
  destruct (get_vertex b src) as [sv|] eqn:Hsv; simpl; [|done].
  destruct (get_vertex b dst) as [dv|] eqn:Hdv; simpl; [|done].
  apply get_vertex_Ok in Hsv, Hdv.
  assert (∀ c, (c = z3.EdgePhyOSPF sv dv ∧ nx.has_edge g src dst = true) ∨
     (c = z3.Not (z3.EdgePhyOSPF sv dv) ∧ nx.has_edge g src dst = false) ∨
     (∃ k, c = z3.Eq (z3.OSPFEdgeCost sv dv) (z3.IntVal k) ∧
        nx.has_edge g src dst = true ∧ edge_cost_of g src dst = Some k ∧
        k ≠ 0) ∨
     (c = z3.Ge (z3.OSPFEdgeCost sv dv) (z3.IntVal 0) ∧
        nx.has_edge g src dst = true ∧
        (edge_cost_of g src dst = None ∨ edge_cost_of g src dst = Some 0)) →
     baseline_form b g c) as Hform.
  { intros c Hc. by exists src, dst, sv, dv. }
  unfold edge_cost_of in Hform.
  destruct (nx.has_edge g src dst) eqn:Hedge.
  - destruct (nx.get_edge g src dst) as [d|] eqn:Hd; simpl; [|done].
    destruct (nx.cost d) as [k|] eqn:Hk; [case_bool_decide as Hz|];
      intros [= <-] Hs c [->|[->|Hc]%elem_of_assertions_add]
        %elem_of_assertions_add; try (by apply Hs); right; apply Hform.
    + right. right. left. by exists k.
    + by left.
    + right. right. right. split; [done|]. split; [done|]. right.
      f_equal. destruct (decide (k = 0)); [done|]. by destruct Hz.
    + by left.
    + right. right. right. split; [done|]. split; [done|]. by left.
    + by left.
  - intros [= <-] Hs c [->|Hc]%elem_of_assertions_add; [|by apply Hs].
    right. apply Hform. right. by left.
Qed.

Lemma init_baseline_form cv cfgs og slv (self0 : OSPFSyn)
  (c : z3.BoolRef) :
  __init__ cv cfgs og slv = Ok self0 →
  c ∈ z3.assertions (solver self0) →
  c ∈ z3.assertions (default z3.new_solver slv) ∨
  baseline_form (base self0) (network_graph self0) c.
Proof.
  unfold __init__. intros (g1 & _ & Hread)%bind_Ok.
  unfold _read_input_graph in Hread. simpl in Hread.
  apply bind_Ok in Hread as (g & _ & (s & Hs & [= <-])%bind_Ok). simpl.
  revert c.
  eapply (foldM_inv (λ s', ∀ c, c ∈ z3.assertions s' →
            c ∈ z3.assertions (default z3.new_solver slv) ∨
            baseline_form (cv (default [] cfgs) g1) g c)); [|by left|exact Hs].
  intros src s1 s2 Hsrc Hs1. unfold encode_row.
  case_bool_decide as Hnet; [by intros [= <-]|].
  eapply (foldM_inv (λ s', ∀ c, c ∈ z3.assertions s' →
            c ∈ z3.assertions (default z3.new_solver slv) ∨
            baseline_form (cv (default [] cfgs) g1) g c)); [|done].
  intros dst s3 s4 Hdst Hs3 Hpair.
  exact (encode_pair_baseline_form _ _ _ _ _ _ _ Hsrc Hdst Hnet Hpair Hs3).
Qed.

(** X7: construction adds to the solver nothing but baseline facts: every
    assertion of the new session was in the solver that was passed in, or
    is, for an ordered pair of nodes of the graph that are not destination
    networks, the edge literal that agrees with the graph, the equality
    with the edge's non-zero cost attribute, or the bound [cost >= 0] of an
    edge without one. *)
Theorem init_asserts_only_baseline cv cfgs og slv (self0 : OSPFSyn)
  (c : z3.BoolRef) :
  __init__ cv cfgs og slv = Ok self0 →
  c ∈ z3.assertions (solver self0) →
  c ∈ z3.assertions (default z3.new_solver slv) ∨
  baseline_form (base self0) (network_graph self0) c.
Proof. apply init_baseline_form. Qed.

Lemma init_asserts_only_baseline_witness :
  z3.Eq (z3.OSPFEdgeCost (z3.EnumVal 0) (z3.EnumVal 1)) (z3.IntVal 5)
    ∈ z3.assertions (default z3.new_solver None) ∨
  baseline_form (base Examples.tri0) (network_graph Examples.tri0)
    (z3.Eq (z3.OSPFEdgeCost (z3.EnumVal 0) (z3.EnumVal 1)) (z3.IntVal 5)).
Proof.
  apply (init_asserts_only_baseline Examples.registry None
           (Some (Examples.triangle (Some 5))) None).
  - exact tri0_built.
  - apply list_elem_of_In. vm_compute. auto 20.
Defined.

(** ** The annotation of the graph *)

Lemma annotate_edge_attrs cfgs : ∀ g g' u v d,
  foldM annotate_cost g cfgs = Ok g' →
  nx.get_edge g u v = Ok d →
  ∃ d', nx.get_edge g' u v = Ok d' ∧ nx.edge_attrs d' = nx.edge_attrs d.
Proof.
  induction cfgs as [|cfg cfgs IH]; intros g g' u v d; simpl.
  - intros [= <-] Hd. by exists d.
  - intros (g1 & Hstep & Hrest)%bind_Ok Hd.
    destruct cfg as [s t c|]; simpl in Hstep;
      [|injection Hstep as <-; by eapply IH].
    pose proof (set_edge_cost_get_edge _ _ _ _ _ u v Hstep) as Hg1.
    case_bool_decide as Huv.
    + destruct Huv as [-> ->]. rewrite Hd in Hg1. simpl in Hg1.
      destruct (IH _ _ _ _ _ Hrest Hg1) as (d' & Hd' & Hattrs).
      by exists d'.
    + rewrite Hd in Hg1. by eapply IH.
Qed.

(** X8: after construction on a non-empty input graph, the graph of the
    session has the edges of the input graph, each with its other
    attributes untouched and with the cost that [fixed_cost] computes: the
    cost of the last [SetOSPFEdgeCost] for that edge, or else the attribute
    of the input graph. *)
Theorem init_annotates_costs cv cfgs (g : nx.DiGraph) slv self0
  (u v : string) :
  __init__ cv cfgs (Some g) slv = Ok self0 →
  nx.len g ≠ 0%nat →
  nx.has_edge (network_graph self0) u v = nx.has_edge g u v ∧
  edge_cost_of (network_graph self0) u v
    = fixed_cost (default [] cfgs) g u v ∧
  ∀ d, nx.get_edge g u v = Ok d →
    ∃ d', nx.get_edge (network_graph self0) u v = Ok d' ∧
      nx.edge_attrs d' = nx.edge_attrs d.
Proof.
  intros Hinit Hlen.
  destruct (init_topology _ _ _ _ _ Hinit) as [_ Hedges].
  destruct (Hedges Hlen u v) as [Hedge Hcost]. split; [done|]. split; [done|].
  intros d Hd.
  destruct (init_spec _ _ _ _ _ Hinit) as (g1 & Hload & _ & _ & Hann & _).
  apply load_graph_spec in Hload as [_ Hadj]. specialize (Hadj Hlen).
  eapply annotate_edge_attrs; [exact Hann|].
  unfold nx.get_edge in *. by rewrite Hadj.
Qed.

Lemma init_annotates_costs_witness :
  nx.has_edge (network_graph Examples.zero0) "a" "b"
    = nx.has_edge (Examples.triangle None) "a" "b" ∧
  edge_cost_of (network_graph Examples.zero0) "a" "b"
    = fixed_cost (default [] (Some [SetOSPFEdgeCost "a" "b" 0]))
        (Examples.triangle None) "a" "b" ∧
  ∀ d, nx.get_edge (Examples.triangle None) "a" "b" = Ok d →
    ∃ d', nx.get_edge (network_graph Examples.zero0) "a" "b" = Ok d' ∧
      nx.edge_attrs d' = nx.edge_attrs d.
Proof.
  apply (init_annotates_costs Examples.registry
           (Some [SetOSPFEdgeCost "a" "b" 0]) (Examples.triangle None) None).
  - vm_compute. reflexivity.
  - vm_compute. discriminate.
Defined.

(** ** The scope of the requirements *)

Lemma scopes_add_nonempty s c top rest :
  z3.scopes s = top :: rest →
  z3.scopes (z3.add s c) = (top ++ [c]) :: rest.
Proof. unfold z3.add. by intros ->. Qed.

Lemma push_alternative_scope self path pc old src dst sps s sp s' :
  PathReq path ∈ reqs self →
  py_first path = Ok src → py_last path = Ok dst →
  nx.all_simple_paths (network_graph self) src dst = Ok sps →
  _get_path_cost self path = Ok pc →
  sp ∈ sps →
  push_alternative self path pc s sp = Ok s' →
  (∃ top, z3.scopes s = top :: old ∧
     ∀ c, c ∈ top → requirement_constraint self c) →
  ∃ top, z3.scopes s' = top :: old ∧
    ∀ c, c ∈ top → requirement_constraint self c.
Proof.
  intros Hreq Hsrc Hdst Hsps Hpc Hsp. unfold push_alternative.
  case_bool_decide as Hne; [|by intros [= <-]].
  intros (spc & Hspc & [= <-])%bind_Ok (top & Htop & Hall).
  exists (top ++ [z3.py_lt pc spc]).
  split; [by apply scopes_add_nonempty|].
  intros c [Hc| ->%list_elem_of_singleton]%elem_of_app; [by apply Hall|].
  by exists path, sp, pc, spc, src, dst, sps.
Qed.

Lemma successors_has_edge g u v :
  v ∈ nx.successors g u → nx.has_edge g u v = true.
Proof.
  unfold nx.successors, nx.has_edge.
  intros ([v' d] & -> & Hin%elem_of_map_to_list)%list_elem_of_fmap.
  destruct (nx.adj g !! u) as [nbrs|]; simpl in Hin.
  - apply bool_decide_eq_true. by eexists.
  - by rewrite lookup_empty in Hin.
Qed.

(** The enumeration only yields walks: a path it returns extends the
    visited nodes by fresh nodes up to the target, along edges. *)
Lemma simple_paths_from_sound g (t : string) d : ∀ visited u children p,
  NoDup visited →
  (∀ c, c ∈ children → nx.has_edge g u c = true) →
  p ∈ nx.simple_paths_from g t d visited children →
  ∃ mid, p = visited ++ mid ++ [t] ∧ NoDup (visited ++ mid) ∧ (t ∉ mid) ∧
    ∀ a b, (a, b) ∈ consecutive (u :: mid ++ [t]) →
      nx.has_edge g a b = true.
Proof.
  induction d as [|d IH]; intros visited u children p Hnd Hch; simpl.
  - case_bool_decide as Ht; [|by intros ?%elem_of_nil].
    intros ->%list_elem_of_singleton. exists [].
    split_and!; [done|by rewrite app_nil_r|apply not_elem_of_nil|].
    intros a b [= -> ->]%list_elem_of_singleton. by apply Hch.
  - intros (c & Hc & Hp)%elem_of_flat_map.
    case_bool_decide as Hct.
    + subst c. apply list_elem_of_singleton in Hp as ->. exists [].
      split_and!; [done|by rewrite app_nil_r|apply not_elem_of_nil|].
      intros a b [= -> ->]%list_elem_of_singleton. by apply Hch.
    + case_bool_decide as Hvis; [by apply elem_of_nil in Hp|].
      apply (IH _ c) in Hp as (mid & -> & Hnd' & Htmid & Hedges).
      * exists (c :: mid). rewrite <- !app_assoc in *. simpl in *.
        split_and!; [done|done| |].
        -- intros [?|?]%elem_of_cons; [by subst|done].
        -- intros a b Hab.
           change (consecutive (u :: c :: mid ++ [t]))
             with ((u, c) :: consecutive (c :: mid ++ [t])) in Hab.
           apply elem_of_cons in Hab as [[= -> ->]|Hab]; [by apply Hch|].
           by apply Hedges.
      * apply NoDup_app. split_and!; [done| |apply NoDup_singleton].
        intros x Hx ->%list_elem_of_singleton. done.
      * intros c'. apply successors_has_edge.
Qed.

Lemma all_simple_paths_sound g s t sps sp :
  nx.all_simple_paths g s t = Ok sps → sp ∈ sps →
  nx.is_walk g s t sp ∧ (s ≠ t → NoDup sp).
Proof.
  unfold nx.all_simple_paths.
  destruct (nx.has_node g s); simpl; [|done].
  destruct (nx.has_node g t); simpl; [|done].
  destruct (nx.len g - 1)%nat as [|d]; intros [= <-] Hsp;
    [by apply elem_of_nil in Hsp|].
  apply (simple_paths_from_sound g t d [s] s) in Hsp
    as (mid & -> & Hnd & Htmid & Hedges).
  - split.
    + split_and!; [done| |].
      * change ([s] ++ mid ++ [t]) with (s :: mid ++ [t]).
        rewrite app_comm_cons. apply last_snoc.
      * intros a b Hab. by apply Hedges.
    + intros Hst. rewrite app_assoc. apply NoDup_app. split_and!;
        [done| |apply NoDup_singleton].
      intros x Hx ->%list_elem_of_singleton.
      apply elem_of_app in Hx as [Hx%list_elem_of_singleton|Hx]; done.
  - apply NoDup_singleton.
  - intros c. apply successors_has_edge.
Qed.

(** X9: a successful [push_requirements] leaves the registry, the graph and
    the requirements as they were and puts exactly one new scope on top of
    the solver's stack, whose older scopes are untouched.  Every formula of
    the new scope states that the cost of a registered path is less than the
    cost of a different walk of the graph between the same two endpoints,
    one that repeats no node when the endpoints differ. *)
Theorem push_requirements_one_scope (self self' : OSPFSyn) :
  push_requirements self = Ok (tt, self') →
  base self' = base self ∧ network_graph self' = network_graph self ∧
  reqs self' = reqs self ∧
  ∃ top, z3.scopes (solver self') = top :: z3.scopes (solver self) ∧
    ∀ c, c ∈ top →
      ∃ path sp pc spc src dst,
        PathReq path ∈ reqs self ∧
        head path = Some src ∧ last path = Some dst ∧
        nx.is_walk (network_graph self) src dst sp ∧
        (src ≠ dst → NoDup sp) ∧ sp ≠ path ∧
        _get_path_cost self path = Ok pc ∧
        _get_path_cost self sp = Ok spc ∧
        c = z3.py_lt pc spc.
Proof.
  unfold push_requirements. intros (s & Hfold & [= <-])%bind_Ok. simpl.
  split_and!; [done..|].
  assert (∃ top, z3.scopes s = top :: z3.scopes (solver self) ∧
            ∀ c, c ∈ top → requirement_constraint self c)
    as (top & Htop & Hall).
  { revert Hfold.
    apply (foldM_inv (λ s', ∃ top,
              z3.scopes s' = top :: z3.scopes (solver self) ∧
              ∀ c, c ∈ top → requirement_constraint self c)).
    - intros req s1 s2 Hreq Hs1 Hstep.
      destruct req as [path|]; simpl in Hstep; [|by injection Hstep as <-].
      apply bind_Ok in Hstep as (src & Hsrc & Hstep).
      apply bind_Ok in Hstep as (dst & Hdst & Hstep).
      apply bind_Ok in Hstep as (pc & Hpc & Hstep).
      apply bind_Ok in Hstep as (sps & Hsps & Hstep).
      revert Hstep.
      apply (foldM_inv (λ s', ∃ top,
                z3.scopes s' = top :: z3.scopes (solver self) ∧
                ∀ c, c ∈ top → requirement_constraint self c)); [|exact Hs1].
      intros sp s3 s4 Hsp Hs3 Halt.
      exact (push_alternative_scope _ _ _ _ _ _ _ _ _ _
               Hreq Hsrc Hdst Hsps Hpc Hsp Halt Hs3).
    - exists []. split; [done|]. intros c Hc. by apply elem_of_nil in Hc. }
  exists top. split; [done|]. intros c Hc.
  destruct (Hall c Hc) as (path & sp & pc & spc & src & dst & sps & Hreq
    & Hsrc & Hdst & Hsps & Hsp & Hne & Hpc & Hspc & ->).
  destruct (all_simple_paths_sound _ _ _ _ _ Hsps Hsp) as [Hwalk Hnd].
  exists path, sp, pc, spc, src, dst. split_and!; try done.
  - destruct path; [done|]. simpl in Hsrc. by injection Hsrc as ->.
  - unfold py_last in Hdst. destruct (last path); [|done].
    by injection Hdst as ->.
Qed.

Lemma push_requirements_one_scope_witness :
  base Examples.tri2 = base Examples.tri1 ∧
  network_graph Examples.tri2 = network_graph Examples.tri1 ∧
  reqs Examples.tri2 = reqs Examples.tri1 ∧
  ∃ top, z3.scopes (solver Examples.tri2)
         = top :: z3.scopes (solver Examples.tri1) ∧
    ∀ c, c ∈ top →
      ∃ path sp pc spc src dst,
        PathReq path ∈ reqs Examples.tri1 ∧
        head path = Some src ∧ last path = Some dst ∧
        nx.is_walk (network_graph Examples.tri1) src dst sp ∧
        (src ≠ dst → NoDup sp) ∧ sp ≠ path ∧
        _get_path_cost Examples.tri1 path = Ok pc ∧
        _get_path_cost Examples.tri1 sp = Ok spc ∧
        c = z3.py_lt pc spc.
Proof.
  apply (push_requirements_one_scope Examples.tri1 Examples.tri2).
  vm_compute. reflexivity.
Defined.

(** ** What a successful push says about the requirements *)

Lemma traverse_Ok_elem {A B} (f : A → Res B) l ys x :
  traverse f l = Ok ys → x ∈ l → ∃ y, f x = Ok y.
Proof.
  intros Hall%traverse_Ok Hx. induction Hall as [|x' y l ys Hy _ IH].
  - by apply elem_of_nil in Hx.
  - apply elem_of_cons in Hx as [->|Hx]; [by exists y | by apply IH].
Qed.

Lemma get_path_cost_Ok_walk self p n u v :
  _get_path_cost self p = Ok n → (u, v) ∈ consecutive p →
  nx.has_edge (network_graph self) u v = true.
Proof.
  unfold _get_path_cost. intros (ns & Hns & _)%bind_Ok Huv.
  destruct (traverse_Ok_elem _ _ _ (u, v) Hns Huv) as [y Hy].
  unfold _get_edge_cost in Hy. simpl in Hy.
  apply bind_Ok in Hy as (d & Hd & _). apply has_edge_get_edge. by exists d.
Qed.

Lemma all_simple_paths_Ok_nodes g s t sps :
  nx.all_simple_paths g s t = Ok sps →
  nx.has_node g s = true ∧ nx.has_node g t = true.
Proof.
  unfold nx.all_simple_paths.
  destruct (nx.has_node g s); [|done]. by destruct (nx.has_node g t).
Qed.

(** X10: [push_requirements] succeeds only if every registered path
    requirement is well formed for the graph: its path is not empty, its
    first and last nodes are nodes of the filtered graph, and each
    consecutive pair of the path is an edge of the graph. *)
Theorem push_requirements_paths_are_walks (self self' : OSPFSyn)
  (path : list string) :
  push_requirements self = Ok (tt, self') →
  PathReq path ∈ reqs self →
  ∃ src dst,
    nx.is_walk (network_graph self) src dst path ∧
    nx.has_node (network_graph self) src = true ∧
    nx.has_node (network_graph self) dst = true.
Proof.
  intros Hpush Hreq.
  destruct (push_requirements_asserts _ _ _ Hpush Hreq)
    as (src & dst & pc & sps & Hsrc & Hdst & Hpc & Hsps & _).
  exists src, dst.
  destruct (all_simple_paths_Ok_nodes _ _ _ _ Hsps) as [Hs Ht].
  split; [|by split]. split_and!.
  - destruct path; [done|]. simpl in Hsrc. by injection Hsrc as ->.
  - unfold py_last in Hdst. destruct (last path); [|done].
    by injection Hdst as ->.
  - intros u v Huv. by eapply get_path_cost_Ok_walk.
Qed.

Lemma push_requirements_paths_are_walks_witness :
  ∃ src dst,
    nx.is_walk (network_graph Examples.tri1) src dst ["a"; "b"; "c"] ∧
    nx.has_node (network_graph Examples.tri1) src = true ∧
    nx.has_node (network_graph Examples.tri1) dst = true.
Proof.
  apply (push_requirements_paths_are_walks Examples.tri1 Examples.tri2).
  - vm_compute. reflexivity.
  - vm_compute. left.
Defined.

(** ** How a push can fail *)

Lemma foldM_Raise_elem {A B} (f : B → A → Res B) l b e :
  foldM f b l = Raise e → ∃ x b1, x ∈ l ∧ f b1 x = Raise e.
Proof.
  revert b. induction l as [|y l IH]; intros b; simpl; [done|].
  destruct (f b y) as [b1|e'] eqn:Hy; simpl.
  - intros (x & b2 & Hx & He)%IH. exists x, b2. split; [by right|done].
  - intros [= <-]. exists y, b. split; [by left|done].
Qed.

Lemma get_path_cost_raise_kind self p e :
  _get_path_cost self p = Raise e → e = KeyError.
Proof.
  unfold _get_path_cost.
  destruct (traverse _ (consecutive p)) as [ns|e'] eqn:Hns; simpl; [done|].
  intros [= <-]. revert Hns. apply traverse_raise_kind.
  intros [u v] e''. apply get_edge_cost_raise_kind.
Qed.

(** X11: [push_requirements] fails in three ways only.  It raises
    IndexError only when an empty path is registered, NetworkXError only
    when the first or the last node of a registered path is not a node of
    the filtered graph, and KeyError otherwise. *)
Theorem push_requirements_failures (self : OSPFSyn) (e : Exn) :
  push_requirements self = Raise e →
  (e = IndexError ∧ PathReq [] ∈ reqs self) ∨
  e = KeyError ∨
  (e = NetworkXError ∧
   ∃ path src dst, PathReq path ∈ reqs self ∧
     head path = Some src ∧ last path = Some dst ∧
     (nx.has_node (network_graph self) src = false ∨
      nx.has_node (network_graph self) dst = false)).
Proof.
  unfold push_requirements.
  destruct (foldM _ _ (reqs self)) as [s|e'] eqn:Hfold; simpl; [done|].
  intros [= <-].
  apply foldM_Raise_elem in Hfold as (req & s1 & Hreq & Hstep).
  destruct req as [path|]; simpl in Hstep; [|done].
  destruct path as [|src rest]; [left; by injection Hstep as <-|].
  simpl in Hstep. unfold py_last in Hstep.
  destruct (last (src :: rest)) as [dst|] eqn:Hlast; simpl in Hstep.
  2: { assert (is_Some (last (src :: rest))) as [x Hx]
         by (by apply last_is_Some).
       congruence. }
  destruct (_get_path_cost self (src :: rest)) as [pc|e1] eqn:Hpc;
    simpl in Hstep;
    [|right; left; injection Hstep as <-; by eapply get_path_cost_raise_kind].
  destruct (nx.all_simple_paths _ src dst) as [sps|e2] eqn:Hsps;
    simpl in Hstep.
  - right; left. apply foldM_Raise_elem in Hstep as (sp & s2 & _ & Halt).
    unfold push_alternative in Halt. case_bool_decide; [|done].
    destruct (_get_path_cost self sp) as [spc|e3] eqn:Hspc; simpl in Halt;
      [done|].
    injection Halt as <-. by eapply get_path_cost_raise_kind.
  - right; right. injection Hstep as <-.
    unfold nx.all_simple_paths in Hsps.
    destruct (nx.has_node _ src) eqn:Hs; simpl in Hsps.
    + destruct (nx.has_node _ dst) eqn:Ht; simpl in Hsps.
      * by destruct (nx.len _ - 1)%nat.
      * injection Hsps as <-. split; [done|].
        exists (src :: rest), src, dst. split_and!; [done..|by right].
    + injection Hsps as <-. split; [done|].
      exists (src :: rest), src, dst. split_and!; [done..|by left].
Qed.

Lemma push_requirements_failures_witness :
  (KeyError = IndexError ∧ PathReq [] ∈ reqs Examples.unlinked1) ∨
  KeyError = KeyError ∨
  (KeyError = NetworkXError ∧
   ∃ path src dst, PathReq path ∈ reqs Examples.unlinked1 ∧
     head path = Some src ∧ last path = Some dst ∧
     (nx.has_node (network_graph Examples.unlinked1) src = false ∨
      nx.has_node (network_graph Examples.unlinked1) dst = false)).
Proof.
  apply (push_requirements_failures Examples.unlinked1 KeyError).
  vm_compute. reflexivity.
Defined.

(** ** Path costs compose *)

Lemma consecutive_app {A} (p1 : list A) x p2 :
  consecutive (p1 ++ x :: p2)
  = consecutive (p1 ++ [x]) ++ consecutive (x :: p2).
Proof.
  induction p1 as [|a [|b r] IH]; [done|done|].
  change (consecutive ((a :: b :: r) ++ x :: p2))
    with ((a, b) :: consecutive ((b :: r) ++ x :: p2)).
  change (consecutive ((a :: b :: r) ++ [x]))
    with ((a, b) :: consecutive ((b :: r) ++ [x])).
  by rewrite IH.
Qed.

Lemma traverse_app {A B} (f : A → Res B) l1 l2 :
  traverse f (l1 ++ l2)
  = (ys1 ← traverse f l1; ys2 ← traverse f l2; Ok (ys1 ++ ys2)).
Proof.
  induction l1 as [|x l1 IH]; simpl.
  - by destruct (traverse f l2).
  - destruct (f x) as [y|e]; simpl; [|done]. rewrite IH.
    destruct (traverse f l1) as [ys1|e]; simpl; [|done].
    by destruct (traverse f l2).
Qed.

Lemma foldr_eval_app m (l1 l2 : list z3.PyNum) :
  foldr (λ n r, z3.eval_num m n + r) 0 (l1 ++ l2)
  = foldr (λ n r, z3.eval_num m n + r) 0 l1
    + foldr (λ n r, z3.eval_num m n + r) 0 l2.
Proof. induction l1 as [|n l1 IH]; simpl; [done|]. rewrite IH. lia. Qed.

(** X12: path costs add up along a path: when the costs of a path ending
    in [x] and of a path starting at [x] can be built, so can the cost of
    the joined path, and under every model its value is the sum of the two
    values. *)
Theorem path_cost_concat (self : OSPFSyn) (p1 p2 : list string) (x : string)
  (a b : z3.PyNum) :
  _get_path_cost self (p1 ++ [x]) = Ok a →
  _get_path_cost self (x :: p2) = Ok b →
  ∃ c, _get_path_cost self (p1 ++ x :: p2) = Ok c ∧
    ∀ m, z3.eval_num m c = z3.eval_num m a + z3.eval_num m b.
Proof.
  unfold _get_path_cost.
  intros (ns1 & H1 & [= <-])%bind_Ok (ns2 & H2 & [= <-])%bind_Ok.
  rewrite consecutive_app, traverse_app, H1, H2. simpl.
  eexists. split; [done|]. intros m.
  by rewrite !eval_py_sum, foldr_eval_app.
Qed.

Lemma path_cost_concat_witness :
  ∃ c, _get_path_cost Examples.tri1 (["a"] ++ "b" :: ["c"]) = Ok c ∧
    ∀ m, z3.eval_num m c
         = z3.eval_num m (z3.PyInt 5)
           + z3.eval_num m
               (z3.PyExpr (z3.Add (z3.IntVal 0)
                  (z3.OSPFEdgeCost (z3.EnumVal 1) (z3.EnumVal 2)))).
Proof.
  apply (path_cost_concat Examples.tri1 ["a"] ["c"] "b").
  - vm_compute. reflexivity.
  - vm_compute. reflexivity.
Defined.

(** ** The output graph, node by node and edge by edge *)

Section output_attrs.
Variables (self : OSPFSyn) (m : z3.ModelRef).

Lemma output_attrs_add_node g n vn g' :
  name_to_vertex (base self) !! n = Some vn →
  nx.add_node g n
    (_get_vertex_attributes (base self) (network_graph self) (ByVertex vn))
    = Ok g' →
  output_attrs_inv self g →
  output_attrs_inv self g' ∧ is_Some (nx.node g' !! n) ∧
  ∀ x, is_Some (nx.node g !! x) → is_Some (nx.node g' !! x).
Proof.
  intros Hn Hadd (Hadj & Hnode & Hedge).
  pose proof (add_node_nodes _ _ _ _ n Hadd) as Hn'.
  split; [|split; [apply Hn'; by left|]].
  - split_and!.
    + intros x. unfold nx.add_node in Hadd.
      destruct (nx.adj g !! n) eqn:Hadjn.
      * destruct (nx.node g !! n) eqn:Hnoden; [|done].
        injection Hadd as <-. simpl. destruct (decide (x = n)) as [->|?].
        -- intros _. by eexists.
        -- rewrite lookup_insert_ne by done. apply Hadj.
      * injection Hadd as <-. simpl. destruct (decide (x = n)) as [->|?].
        -- rewrite !lookup_insert_eq. by eexists.
        -- rewrite !lookup_insert_ne by done. apply Hadj.
    + intros x d. unfold nx.add_node in Hadd.
      destruct (nx.adj g !! n) eqn:Hadjn.
      * destruct (nx.node g !! n) as [old|] eqn:Hnoden; [|done].
        injection Hadd as <-. simpl. destruct (decide (x = n)) as [->|?].
        -- rewrite lookup_insert_eq. intros [= <-]. exists vn.
           split; [done|].
           destruct (Hnode n old Hnoden) as (v & Hv & ->).
           assert (v = vn) as -> by congruence.
           apply (map_eq _ _). intros k. rewrite lookup_union.
           by destruct (_ !! k).
        -- rewrite lookup_insert_ne by done. apply Hnode.
      * injection Hadd as <-. simpl. destruct (decide (x = n)) as [->|?].
        -- rewrite lookup_insert_eq. intros [= <-]. by exists vn.
        -- rewrite lookup_insert_ne by done. apply Hnode.
    + intros u v d. rewrite (get_edge_add_node _ _ _ _ u v Hadd). apply Hedge.
  - intros x Hx. apply (add_node_nodes _ _ _ _ x Hadd). by right.
Qed.

Lemma ensure_node_present g n :
  is_Some (nx.adj g !! n) → nx.ensure_node g n = g.
Proof. unfold nx.ensure_node. by intros [a ->]. Qed.

Lemma output_attrs_add_edge g s d su sd c :
  name_to_vertex (base self) !! s = Some su →
  name_to_vertex (base self) !! d = Some sd →
  is_Some (nx.node g !! s) → is_Some (nx.node g !! d) →
  output_attrs_inv self g →
  output_attrs_inv self
    (nx.add_edge g s d c
       (_get_edge_attributes (base self) (ByVertex su) (ByVertex sd))) ∧
  ∀ x, is_Some (nx.node g !! x) →
    is_Some (nx.node (nx.add_edge g s d c
       (_get_edge_attributes (base self) (ByVertex su) (ByVertex sd))) !! x).
Proof.
  intros Hs Hd Hps Hpd (Hadj & Hnode & Hedge).
  assert (nx.ensure_node (nx.ensure_node g s) d = g) as Hens.
  { rewrite (ensure_node_present g s) by by apply Hadj.
    apply ensure_node_present. by apply Hadj. }
  split; [|intros x Hx; unfold nx.add_edge; cbv zeta; by rewrite Hens].
  split_and!.
  - intros x Hx. unfold nx.add_edge in *. cbv zeta in *.
    rewrite Hens in *. simpl in *. destruct (decide (x = s)) as [->|?].
    + rewrite lookup_insert_eq. by eexists.
    + rewrite lookup_insert_ne by done. by apply Hadj.
  - intros x dx. unfold nx.add_edge. cbv zeta. rewrite Hens. simpl.
    apply Hnode.
  - intros u v e. rewrite get_edge_add_edge. case_bool_decide as Huv.
    + destruct Huv as [-> ->]. intros [= <-]. simpl. exists su, sd.
      split; [done|]. split; [done|].
      destruct (nx.get_edge g s d) as [old|] eqn:Hold.
      * destruct (Hedge s d old Hold) as (su' & sd' & Hsu' & Hsd' & ->).
        assert (su' = su) as -> by congruence.
        assert (sd' = sd) as -> by congruence.
        apply (map_eq _ _). intros k. rewrite lookup_union.
        by destruct (_ !! k).
      * apply (map_eq _ _). intros k. rewrite lookup_union, lookup_empty.
        by destruct (_ !! k).
    + apply Hedge.
Qed.

Lemma output_attrs_pair sv g dv g' :
  sv ∈ vertex_items self → dv ∈ vertex_items self →
  output_graph_pair self m sv g dv = Ok g' →
  output_attrs_inv self g ∧ is_Some (nx.node g !! sv.1) →
  output_attrs_inv self g' ∧ is_Some (nx.node g' !! sv.1).
Proof.
  destruct sv as [src src_v], dv as [dst dst_v]. simpl.
  intros Hs%elem_of_vertex_items Hd%elem_of_vertex_items.
  unfold output_graph_pair. simpl.
  intros (g1 & Hg1 & Hrest)%bind_Ok [Hinv Hsrc].
  assert (output_attrs_inv self g1 ∧ is_Some (nx.node g1 !! dst) ∧
          is_Some (nx.node g1 !! src)) as (Hinv1 & Hdst1 & Hsrc1).
  { unfold nx.has_node in Hg1. case_bool_decide as Hhas.
    - injection Hg1 as <-. done.
    - destruct (output_attrs_add_node g dst dst_v g1 Hd Hg1 Hinv)
        as (? & ? & Hkeep).
      split_and!; [done..|by apply Hkeep]. }
  simpl in Hrest. destruct (z3.edge_interp m src_v dst_v);
    injection Hrest as <-; [|done].
  destruct (output_attrs_add_edge g1 src dst src_v dst_v
              (z3.eval_int m (z3.OSPFEdgeCost src_v dst_v))
              Hs Hd Hsrc1 Hdst1 Hinv1) as [Hinv2 Hkeep].
  split; [done | by apply Hkeep].
Qed.

Lemma output_attrs_row g sv g' :
  sv ∈ vertex_items self →
  output_graph_row self m g sv = Ok g' →
  output_attrs_inv self g → output_attrs_inv self g'.
Proof.
  intros Hs. unfold output_graph_row.
  intros (g1 & Hg1 & Hfold)%bind_Ok Hinv.
  destruct sv as [src src_v]. simpl in *.
  pose proof Hs as Hs'%elem_of_vertex_items.
  destruct (output_attrs_add_node g src src_v g1 Hs' Hg1 Hinv)
    as (Hinv1 & Hsrc1 & _).
  eapply proj1.
  eapply (foldM_inv (λ g2, output_attrs_inv self g2 ∧
                           is_Some (nx.node g2 !! src)));
    [|split; [exact Hinv1 | exact Hsrc1]|exact Hfold].
  intros dv g2 g3 Hdv Hg2 Hpair.
  exact (output_attrs_pair (src, src_v) g2 dv g3 Hs Hdv Hpair Hg2).
Qed.

End output_attrs.

Lemma output_attrs_empty self : output_attrs_inv self nx.empty.
Proof.
  split_and!.
  - intros n [x Hx]. simpl in Hx. by rewrite lookup_empty in Hx.
  - intros n d Hd. simpl in Hd. by rewrite lookup_empty in Hd.
  - intros u v d. unfold nx.get_edge. simpl. by rewrite lookup_empty.
Qed.

(** X13: with a model available, [get_output_network_graph] cannot raise
    and its result decodes the model completely: the nodes are the
    registered names, each with the vertex attributes of its vertex, and
    the edge u -> v is present exactly when the model switches the edge
    predicate on for the two vertices, with the model's cost and the edge
    attributes of the pair. *)
Theorem output_network_graph_decodes_model (self : OSPFSyn)
  (m : z3.ModelRef) :
  z3.last_model (solver self) = Some m →
  ∃ g, get_output_network_graph self = Ok (g, self) ∧
    (∀ n, nx.node g !! n =
       v ← name_to_vertex (base self) !! n;
       Some (_get_vertex_attributes (base self) (network_graph self)
               (ByVertex v))) ∧
    (∀ u v, nx.get_edge g u v =
       match name_to_vertex (base self) !! u,
             name_to_vertex (base self) !! v with
       | Some su, Some sv =>
           if z3.edge_interp m su sv then
             Ok {| nx.cost := Some (z3.cost_interp m su sv);
                   nx.edge_attrs :=
                     _get_edge_attributes (base self)
                       (ByVertex su) (ByVertex sv) |}
           else Raise KeyError
       | _, _ => Raise KeyError
       end).
Proof.
  intros Hm.
  destruct (output_graph_spec self m Hm)
    as (g & Hg & _ & Hnodes & Hcost & Hhas).
  exists g. split; [done|].
  assert (output_attrs_inv self g) as (_ & Hnode & Hedge).
  { unfold get_output_network_graph, z3.model in Hg. rewrite Hm in Hg.
    simpl in Hg. apply bind_Ok in Hg as (g' & Hfold & [= <-]).
    eapply (foldM_inv (output_attrs_inv self));
      [|apply output_attrs_empty|exact Hfold].
    intros sv g1 g2 Hsv Hg1 Hrow.
    exact (output_attrs_row self m g1 sv g2 Hsv Hrow Hg1). }
  split.
  - intros n. destruct (nx.node g !! n) as [d|] eqn:Hd.
    + destruct (Hnode n d Hd) as (v & -> & ->). done.
    + destruct (name_to_vertex (base self) !! n) as [v|] eqn:Hv; [|done].
      assert (is_Some (nx.node g !! n)) as [d' Hd']
        by (apply Hnodes; by eexists).
      congruence.
  - intros u v. specialize (Hcost u v). specialize (Hhas u v).
    unfold edge_cost_of, model_edge_cost in *.
    destruct (nx.get_edge g u v) as [d|e] eqn:Hd.
    + destruct (Hedge u v d Hd) as (su & sv & Hsu & Hsv & Hattrs).
      rewrite Hsu, Hsv in *.
      destruct (z3.edge_interp m su sv).
      * destruct d as [c a]. simpl in *. by subst.
      * assert (nx.has_edge g u v = true) as Htrue
          by (apply has_edge_get_edge; by exists d).
        apply Hhas in Htrue as [? ?]. done.
    + assert (e = KeyError) as -> by (by eapply get_edge_raise_kind).
      destruct (name_to_vertex (base self) !! u) as [su|]; [|done].
      destruct (name_to_vertex (base self) !! v) as [sv|]; [|done].
      destruct (z3.edge_interp m su sv); [|done].
      assert (nx.has_edge g u v = true) as [d' Hd']%has_edge_get_edge
        by (apply Hhas; by eexists).
      congruence.
Qed.

Lemma output_network_graph_decodes_model_witness :
  ∃ g, get_output_network_graph Examples.tri3 = Ok (g, Examples.tri3) ∧
    nx.get_edge g "a" "b"
      = Ok {| nx.cost := Some 5; nx.edge_attrs := ∅ |} ∧
    nx.get_edge g "b" "a" = Raise KeyError.
Proof.
  destruct (output_network_graph_decodes_model Examples.tri3
              (Examples.triangle_model 5 10 1) eq_refl)
    as (g & Hg & _ & Hedges).
  exists g. split; [exact Hg|]. split.
  - rewrite Hedges. reflexivity.
  - rewrite Hedges. reflexivity.
Defined.

(** ** The output views agree *)

Lemma NoDup_flat_map {A B} (f : A → list B) l :
  NoDup l → (∀ x, x ∈ l → NoDup (f x)) →
  (∀ x1 x2 y, x1 ∈ l → x2 ∈ l → y ∈ f x1 → y ∈ f x2 → x1 = x2) →
  NoDup (flat_map f l).
Proof.
  induction 1 as [|x l Hx Hnd IH]; intros Hf Hdisj; simpl;
    [apply NoDup_nil_2|].
  apply NoDup_app. split_and!.
  - apply Hf. by left.
  - intros y Hy (x' & Hx' & Hy')%elem_of_flat_map.
    assert (x = x') as <-; [|done].
    apply (Hdisj x x' y); [by left|by right|done..].
  - apply IH.
    + intros x' Hx'. apply Hf. by right.
    + intros x1 x2 y H1 H2. apply Hdisj; by right.
Qed.

Lemma vertex_items_NoDup self : NoDup (vertex_items self).
Proof. apply NoDup_map_to_list. Qed.

Lemma vertex_items_name self n v v' :
  (n, v) ∈ vertex_items self → (n, v') ∈ vertex_items self → v = v'.
Proof. rewrite !elem_of_vertex_items. congruence. Qed.

Lemma output_configs_NoDup self m :
  NoDup (flat_map (λ sv, flat_map (output_config m sv) (vertex_items self))
           (vertex_items self)).
Proof.
  assert (∀ sv dv y, y ∈ output_config m sv dv →
            y = SetOSPFEdgeCost sv.1 dv.1
                  (z3.eval_int m (z3.OSPFEdgeCost sv.2 dv.2))) as Hcfg.
  { intros sv dv y. unfold output_config.
    destruct (z3.eval_bool m _); [|by intros ?%elem_of_nil].
    by intros ->%list_elem_of_singleton. }
  apply NoDup_flat_map; [apply vertex_items_NoDup| |].
  - intros sv Hsv. apply NoDup_flat_map; [apply vertex_items_NoDup| |].
    + intros dv _. unfold output_config.
      destruct (z3.eval_bool m _); [apply NoDup_singleton|apply NoDup_nil_2].
    + intros [d1 v1] [d2 v2] y H1 H2 Hy1%Hcfg Hy2%Hcfg. subst y.
      simpl in Hy2. injection Hy2 as <- _.
      by rewrite (vertex_items_name self d1 v1 v2 H1 H2).
  - intros [s1 v1] [s2 v2] y H1 H2
      (dv1 & _ & Hy1%Hcfg)%elem_of_flat_map
      (dv2 & _ & Hy2%Hcfg)%elem_of_flat_map.
    subst y. simpl in Hy2. injection Hy2 as <- _ _.
    by rewrite (vertex_items_name self s1 v1 v2 H1 H2).
Qed.

(** X14: the list of [get_output_configs] and the graph of
    [get_output_network_graph] show the same edges with the same costs: a
    triple (u, v, c) is listed exactly when the graph has the edge u -> v
    with cost c; the list holds nothing but such triples, lists none of
    them twice, and holds at most one cost for a pair. *)
Theorem output_configs_match_output_graph (self : OSPFSyn) (m : z3.ModelRef)
  (out : list Config) (g : nx.DiGraph) (self1 self2 : OSPFSyn) :
  solved self m →
  get_output_configs self = Ok (out, self1) →
  get_output_network_graph self = Ok (g, self2) →
  (∀ u v c, SetOSPFEdgeCost u v c ∈ out ↔ edge_cost_of g u v = Some c) ∧
  (OtherConfig ∉ out) ∧ NoDup out ∧
  (∀ u v c c', SetOSPFEdgeCost u v c ∈ out → SetOSPFEdgeCost u v c' ∈ out →
     c = c').
Proof.
  intros Hsolved Hout Hg. pose proof Hsolved as [Hm _].
  destruct (output_graph_spec self m Hm) as (g' & Hg' & _ & _ & Hcost & _).
  rewrite Hg' in Hg. injection Hg as <- <-.
  assert (∀ u v c, SetOSPFEdgeCost u v c ∈ out
                   ↔ edge_cost_of g' u v = Some c) as Hiff.
  { intros u v c.
    rewrite (elem_of_output_configs self m out self1 u v c Hsolved Hout).
    rewrite Hcost. unfold model_edge_cost. split.
    - intros (su & sv & -> & -> & -> & ->). done.
    - destruct (name_to_vertex (base self) !! u) as [su|]; [|done].
      destruct (name_to_vertex (base self) !! v) as [sv|]; [|done].
      destruct (z3.edge_interp m su sv) eqn:He; [|done].
      intros [= <-]. by exists su, sv. }
  split; [done|]. split_and!.
  - unfold get_output_configs, z3.model in Hout. rewrite Hm in Hout.
    simpl in Hout. injection Hout as <- <-.
    intros (sv & _ & (dv & _ & Hin)%elem_of_flat_map)%elem_of_flat_map.
    unfold output_config in Hin.
    destruct (z3.eval_bool m _); [|by apply elem_of_nil in Hin].
    by apply list_elem_of_singleton in Hin.
  - unfold get_output_configs, z3.model in Hout. rewrite Hm in Hout.
    simpl in Hout. injection Hout as <- <-. apply output_configs_NoDup.
  - intros u v c c' H1%Hiff H2%Hiff. congruence.
Qed.

Lemma output_configs_match_output_graph_witness :
  ∃ out g,
    get_output_configs Examples.tri3 = Ok (out, Examples.tri3) ∧
    get_output_network_graph Examples.tri3 = Ok (g, Examples.tri3) ∧
    (∀ u v c, SetOSPFEdgeCost u v c ∈ out ↔ edge_cost_of g u v = Some c) ∧
    (OtherConfig ∉ out) ∧ NoDup out ∧
    (∀ u v c c', SetOSPFEdgeCost u v c ∈ out → SetOSPFEdgeCost u v c' ∈ out →
       c = c').
Proof.
  eexists _, _.
  split; [vm_compute; reflexivity|]. split; [vm_compute; reflexivity|].
  eapply (output_configs_match_output_graph Examples.tri3 _ _ _ _ _
            tri3_solved).
  - vm_compute. reflexivity.
  - vm_compute. reflexivity.
Defined.

(** ** No model, no output *)

Lemma encode_pair_no_model b g src s dst s' :
  encode_pair b g src s dst = Ok s' →
  z3.last_model s = None → z3.last_model s' = None.
Proof.
  unfold encode_pair. case_bool_decide; [by intros [= <-]|].
  destruct (get_vertex b src); simpl; [|done].
  destruct (get_vertex b dst); simpl; [|done].
  assert (∀ s0 c, z3.last_model (z3.add s0 c) = None) as Hadd.
  { intros s0 c. unfold z3.add. by destruct (z3.scopes s0). }
  destruct (nx.has_edge g src dst).
  - destruct (nx.get_edge g src dst) as [d|]; simpl; [|done].
    destruct (nx.cost d); [case_bool_decide|]; intros [= <-] _; apply Hadd.
  - intros [= <-] _. apply Hadd.
Qed.

(** X15: a session that construction built with a solver of its own holds
    no model: until a check is made, each of the three read-side methods
    raises [Z3Exception]. *)
Theorem read_before_check_raises `{nx.PathLibrary} cv cfgs og
  (self0 : OSPFSyn) :
  __init__ cv cfgs og None = Ok self0 →
  get_output_configs self0 = Raise Z3Exception ∧
  get_output_network_graph self0 = Raise Z3Exception ∧
  get_output_routing_graphs self0 = Raise Z3Exception.
Proof.
  intros Hinit.
  assert (z3.last_model (solver self0) = None) as Hnone.
  { unfold __init__ in Hinit. apply bind_Ok in Hinit as (g1 & _ & Hread).
    unfold _read_input_graph in Hread. simpl in Hread.
    apply bind_Ok in Hread as (g & _ & (s & Hs & [= <-])%bind_Ok). simpl.
    apply (foldM_inv (λ s', z3.last_model s' = None)
             (encode_row (cv (default [] cfgs) g1) g) (nx.nodes g)
             z3.new_solver s); [|reflexivity|exact Hs].
    intros src s1 s2 _ Hs1. unfold encode_row.
    case_bool_decide; [by intros [= <-]|].
    apply (foldM_inv (λ s', z3.last_model s' = None)); [|exact Hs1].
    intros dst s3 s4 _ Hs3 Hpair.
    exact (encode_pair_no_model _ _ _ _ _ _ Hpair Hs3). }
  unfold get_output_configs, get_output_network_graph,
    get_output_routing_graphs, z3.model.
  by rewrite Hnone.
Qed.

Lemma read_before_check_raises_witness :
  get_output_configs Examples.tri0 = Raise Z3Exception ∧
  get_output_network_graph Examples.tri0 = Raise Z3Exception ∧
  @get_output_routing_graphs Examples.reference_paths Examples.tri0
    = Raise Z3Exception.
Proof.
  exact (@read_before_check_raises Examples.reference_paths _ _ _ _
           tri0_built).
Defined.

(** ** What a session keeps *)

(** X16: in every session that starts from construction, the registry and
    the graph stay those of the new session, no assertion of the solver is
    ever retracted, and the registered requirements are all [PathReq]
    objects. *)
Theorem session_keeps_construction cv cfgs og slv (self0 self : OSPFSyn) :
  __init__ cv cfgs og slv = Ok self0 →
  session self0 self →
  base self = base self0 ∧
  network_graph self = network_graph self0 ∧
  (∀ c, c ∈ z3.assertions (solver self0) → c ∈ z3.assertions (solver self)) ∧
  ∀ r, r ∈ reqs self → ∃ path, r = PathReq path.
Proof.
  intros Hinit Hsess.
  destruct (session_spec _ _ Hsess) as (Hb & Hg & Hgrow).
  split_and!; [done..|].
  destruct (init_spec _ _ _ _ _ Hinit) as (_ & _ & _ & Hreqs & _).
  assert (∀ r, r ∈ reqs self0 → ∃ path, r = PathReq path) as Hinv.
  { intros r Hr. rewrite Hreqs in Hr. by apply elem_of_nil in Hr. }
  clear Hinit Hb Hg Hgrow Hreqs. revert Hinv.
  induction Hsess as [s|s1 s2 s3 Hstep _ IH]; [done|].
  intros H1. apply IH. clear IH.
  destruct Hstep as [s req s' Hadd|s s' Hpush|s slv' Hcheck].
  - destruct req as [path|]; simpl in Hadd; [|done]. injection Hadd as <-.
    simpl. intros r [Hr| ->%list_elem_of_singleton]%elem_of_app;
      [by apply H1 | by exists path].
  - unfold push_requirements in Hpush.
    apply bind_Ok in Hpush as (s0 & _ & [= <-]). done.
  - done.
Qed.

Lemma session_keeps_construction_witness :
  base Examples.tri3 = base Examples.tri0 ∧
  network_graph Examples.tri3 = network_graph Examples.tri0 ∧
  (∀ c, c ∈ z3.assertions (solver Examples.tri0) →
     c ∈ z3.assertions (solver Examples.tri3)) ∧
  ∀ r, r ∈ reqs Examples.tri3 → ∃ path, r = PathReq path.
Proof.
  exact (session_keeps_construction _ _ _ _ _ _ tri0_built tri_session).
Defined.

(** ** The baseline alone is satisfiable *)

Lemma name_of_vertex b u a :
  (∀ x y c, name_to_vertex b !! x = Some c → name_to_vertex b !! y = Some c →
     x = y) →
  name_to_vertex b !! u = Some a → name_of b a = Some u.
Proof.
  intros Hinj Hu. unfold name_of.
  destruct (find _ _) as [[x c]|] eqn:Hfind; simpl.
  - apply find_some in Hfind as [Hin Hc]. simpl in Hc.
    apply bool_decide_eq_true in Hc. subst c.
    apply list_elem_of_In, elem_of_map_to_list in Hin.
    f_equal. by eapply Hinj.
  - exfalso.
    assert (bool_decide ((u, a).2 = a) = false) as Hfalse.
    { apply (find_none _ _ Hfind (u, a)).
      by apply list_elem_of_In, elem_of_map_to_list. }
    simpl in Hfalse. by rewrite bool_decide_eq_true_2 in Hfalse.
Qed.

(** X17: when the registry gives distinct names distinct vertices,
    construction with a solver of its own never produces an unsatisfiable
    solver: the model that reads edges and costs off the graph of the
    session satisfies every assertion. *)
Theorem baseline_satisfiable cv cfgs og (self0 : OSPFSyn) :
  __init__ cv cfgs og None = Ok self0 →
  (∀ x y c, name_to_vertex (base self0) !! x = Some c →
     name_to_vertex (base self0) !! y = Some c → x = y) →
  z3.models (graph_model (base self0) (network_graph self0)) (solver self0).
Proof.
  intros Hinit Hinj c Hc.
  destruct (init_baseline_form _ _ _ _ _ _ Hinit Hc) as [Hold|Hform].
  { by apply elem_of_nil in Hold. }
  destruct Hform as (u & v & su & sv & _ & _ & _ & _ & Hsu & Hsv & Hcases).
  pose proof (name_of_vertex _ _ _ Hinj Hsu) as Hnu.
  pose proof (name_of_vertex _ _ _ Hinj Hsv) as Hnv.
  destruct Hcases as [[-> He]|[[-> He]|[(k & -> & He & Hk & _)|(-> & He & Hk)]]];
    simpl; rewrite Hnu, Hnv.
  - done.
  - by rewrite He.
  - rewrite Hk. simpl. apply Z.eqb_refl.
  - destruct Hk as [->| ->]; simpl; reflexivity.
Qed.

Lemma baseline_satisfiable_witness :
  z3.models
    (graph_model (base Examples.tri0) (network_graph Examples.tri0))
    (solver Examples.tri0).
Proof.
  apply (baseline_satisfiable Examples.registry None
           (Some (Examples.triangle (Some 5))) Examples.tri0 tri0_built).
  intros x y c Hx Hy.
  assert (base Examples.tri0 = Examples.registry [] nx.empty) as Hb
    by (vm_compute; reflexivity).
  rewrite Hb in Hx, Hy. unfold Examples.registry in Hx, Hy.
  simpl in Hx, Hy. rewrite !lookup_insert, lookup_empty in Hx, Hy.
  repeat case_decide; congruence.
Defined.

(** ** The routing trees: keys, labels and failures *)

Lemma graph_attr_add_node g n a g' :
  nx.add_node g n a = Ok g' → nx.graph g' = nx.graph g.
Proof.
  unfold nx.add_node. destruct (nx.adj g !! n).
  - destruct (nx.node g !! n); [|done]. by intros [= <-].
  - by intros [= <-].
Qed.

Lemma graph_attr_ensure_node g n : nx.graph (nx.ensure_node g n) = nx.graph g.
Proof. unfold nx.ensure_node. by destruct (nx.adj g !! n). Qed.

Lemma graph_attr_add_edge g s d c a :
  nx.graph (nx.add_edge g s d c a) = nx.graph g.
Proof.
  unfold nx.add_edge. simpl. by rewrite !graph_attr_ensure_node.
Qed.

Section routing_extras.
Context `{nx.PathLibrary}.

Lemma routing_edge_graph_attr self m g_phy t sd t' :
  routing_edge self m g_phy t sd = Ok t' → nx.graph t' = nx.graph t.
Proof.
  unfold routing_edge.
  intros (t1 & H1 & (t2 & H2 & (sv & _ & (dv & _ & [= <-])%bind_Ok)
    %bind_Ok)%bind_Ok)%bind_Ok.
  rewrite graph_attr_add_edge.
  assert (nx.graph t2 = nx.graph t1) as ->.
  { destruct (nx.has_node t1 sd.2); [by injection H2 as <-|].
    by eapply graph_attr_add_node. }
  destruct (nx.has_node t sd.1); [by injection H1 as <-|].
  by eapply graph_attr_add_node.
Qed.

Lemma routing_node_graph_attr self m g_phy dst t nv t' :
  routing_node self m g_phy dst t nv = Ok t' → nx.graph t' = nx.graph t.
Proof.
  unfold routing_node. intros (reach & _ & Hrest)%bind_Ok.
  destruct reach; simpl in Hrest; [|by injection Hrest as <-].
  apply bind_Ok in Hrest as (path & _ & Hfold).
  revert Hfold. apply (foldM_inv (λ t1, nx.graph t1 = nx.graph t));
    [|reflexivity].
  intros sd t1 t2 _ Ht1 Hstep.
  rewrite <- Ht1. by eapply routing_edge_graph_attr.
Qed.

(** X18: [get_output_routing_graphs] returns one tree per destination
    network and nothing else: the keys of its result are exactly the names
    of [self.networks], and the tree stored under a name carries that name
    as its ['dst'] graph attribute. *)
Theorem routing_graphs_keys_and_labels (self : OSPFSyn)
  (graphs : gmap string nx.DiGraph) (self' : OSPFSyn) :
  get_output_routing_graphs self = Ok (graphs, self') →
  (∀ d, is_Some (graphs !! d)
        ↔ ∃ v, v ∈ networks (base self) ∧ get_name (base self) v = d) ∧
  (∀ d t, graphs !! d = Some t → nx.graph t = {["dst" := d]}).
Proof.
  unfold get_output_routing_graphs.
  intros (m & _ & (gs & _ & (graphs' & Hfold & [= <- <-])%bind_Ok)
    %bind_Ok)%bind_Ok.
  assert (∀ gs1 v gs2, routing_tree self m gs.1 gs1 v = Ok gs2 →
            ∃ t, gs2 = <[get_name (base self) v := t]> gs1 ∧
              nx.graph t = {["dst" := get_name (base self) v]}) as Hstep.
  { intros gs1 v gs2. unfold routing_tree.
    intros (t & Ht & [= <-])%bind_Ok. exists t. split; [done|].
    revert Ht. apply (foldM_inv (λ t1, nx.graph t1
              = {["dst" := get_name (base self) v]})); [|reflexivity].
    intros nv t1 t2 _ Ht1 Hnode. rewrite <- Ht1.
    by eapply routing_node_graph_attr. }
  split; [intros d; split|].
  - revert d.
    eapply (foldM_inv (λ gs1 : gmap string nx.DiGraph, ∀ d,
              is_Some (gs1 !! d) →
              ∃ v, v ∈ networks (base self) ∧ get_name (base self) v = d));
      [| |exact Hfold].
    + intros v gs1 gs2 Hv Hgs1 (t & -> & _)%Hstep d.
      destruct (decide (d = get_name (base self) v)) as [->|Hne].
      * intros _. by exists v.
      * rewrite lookup_insert_ne by done. apply Hgs1.
    + intros d [t Ht]. by rewrite lookup_empty in Ht.
  - intros (v & Hv & <-).
    destruct (foldM_visit _ _ _ _ v Hv Hfold)
      as (l1 & l2 & gs1 & gs2 & _ & _ & Hv' & Hrest).
    apply (foldM_inv (λ gs' : gmap string nx.DiGraph,
             is_Some (gs' !! get_name (base self) v))
             (routing_tree self m gs.1) l2 gs2 graphs'); [| |exact Hrest].
    + intros y gs3 gs4 _ Hgs3 (t & -> & _)%Hstep.
      destruct (decide (get_name (base self) v = get_name (base self) y))
        as [->|Hne].
      * rewrite lookup_insert_eq. by eexists.
      * by rewrite lookup_insert_ne.
    + apply Hstep in Hv' as (t & -> & _). rewrite lookup_insert_eq.
      by eexists.
  - eapply (foldM_inv (λ gs1 : gmap string nx.DiGraph, ∀ d t,
              gs1 !! d = Some t → nx.graph t = {["dst" := d]}));
      [| |exact Hfold].
    + intros v gs1 gs2 _ Hgs1 (t & -> & Ht)%Hstep d t'.
      destruct (decide (d = get_name (base self) v)) as [->|Hne].
      * rewrite lookup_insert_eq. by intros [= <-].
      * rewrite lookup_insert_ne by done. apply Hgs1.
    + intros d t. by rewrite lookup_empty.
Qed.

Lemma routing_edge_total self m g_phy t (sd : string * string) :
  consistent t →
  is_Some (name_to_vertex (base self) !! sd.1) →
  is_Some (name_to_vertex (base self) !! sd.2) →
  ∃ t', routing_edge self m g_phy t sd = Ok t' ∧ consistent t'.
Proof.
  intros Hc [sv Hsv] [dv Hdv]. unfold routing_edge.
  assert (∀ t0 n a, consistent t0 →
            ∃ t1, (if nx.has_node t0 n then Ok t0 else nx.add_node t0 n a)
                  = Ok t1 ∧ consistent t1) as Hadd.
  { intros t0 n a Ht0. destruct (nx.has_node t0 n); [by exists t0|].
    destruct (add_node_consistent t0 n a Ht0) as (t1 & ? & ? & _).
    by exists t1. }
  destruct (Hadd t sd.1 (_get_vertex_attributes (base self) g_phy
                           (ByName sd.1)) Hc) as (t1 & -> & Hc1).
  simpl.
  destruct (Hadd t1 sd.2 (_get_vertex_attributes (base self) g_phy
                            (ByName sd.2)) Hc1) as (t2 & -> & Hc2).
  simpl. unfold get_vertex. rewrite Hsv, Hdv. simpl.
  eexists. split; [done|]. by apply add_edge_consistent.
Qed.

(** X19: the extraction of the routing trees adds no failure of its own:
    when the output graph is available and the two path queries of the
    graph library do not raise on it (and a path is returned whenever one
    is reported to exist), [get_output_routing_graphs] returns; neither a
    vertex lookup nor a node insertion can fail. *)
Theorem routing_graphs_fail_only_in_library (self : OSPFSyn)
  (m : z3.ModelRef) (g_phy : nx.DiGraph) (self1 : OSPFSyn) :
  z3.last_model (solver self) = Some m →
  get_output_network_graph self = Ok (g_phy, self1) →
  (∀ n dst_net,
     is_Some (name_to_vertex (base self) !! n) →
     dst_net ∈ networks (base self) →
     ∃ b, nx.has_path g_phy n (get_name (base self) dst_net) = Ok b ∧
       (b = true →
        ∃ p, nx.shortest_path g_phy n (get_name (base self) dst_net)
             = Ok p)) →
  ∃ graphs, get_output_routing_graphs self = Ok (graphs, self).
Proof.
  intros Hm Hphy Hlib.
  destruct (output_graph_spec self m Hm) as (g & Hg & _ & _ & _ & Hhas).
  rewrite Hg in Hphy. injection Hphy as <- <-.
  unfold get_output_routing_graphs, z3.model. rewrite Hm, Hg. simpl.
  destruct (foldM_total (λ _, True) (routing_tree self m g)
              (networks (base self)) ∅) as (graphs & -> & _); [|done|].
  2: { by exists graphs. }
  intros dst_net gs1 Hdst _. unfold routing_tree.
  destruct (foldM_total consistent
    (routing_node self m g (get_name (base self) dst_net))
    (vertex_items self)
    {| nx.graph := {["dst" := get_name (base self) dst_net]};
       nx.node := ∅; nx.adj := ∅ |}) as (t & -> & _).
  - intros [n v] t1 Hn%elem_of_vertex_items Ht1. unfold routing_node. simpl.
    destruct (Hlib n dst_net) as (b & -> & Hpath); [by eexists|done|].
    simpl. destruct b; simpl; [|by exists t1].
    destruct (Hpath eq_refl) as (p & Hp). rewrite Hp. simpl.
    apply nx.shortest_path_walk in Hp as (_ & _ & Hedges).
    apply foldM_total; [|done].
    intros [a b] t2 Hab%Hedges Ht2.
    apply Hhas in Hab as [c Hc]. unfold model_edge_cost in Hc.
    destruct (name_to_vertex (base self) !! a) as [sa|] eqn:Ha; [|done].
    destruct (name_to_vertex (base self) !! b) as [sb|] eqn:Hb; [|done].
    apply routing_edge_total; [done|simpl; by eexists..].
  - intros n [x Hx]. simpl in Hx. by rewrite lookup_empty in Hx.
  - simpl. by eexists.
Qed.

End routing_extras.

Lemma routing_graphs_keys_and_labels_witness :
  ∃ graphs,
    @get_output_routing_graphs Examples.reference_paths Examples.tri3
      = Ok (graphs, Examples.tri3) ∧
    (∀ d, is_Some (graphs !! d)
          ↔ ∃ v, v ∈ networks (base Examples.tri3) ∧
              get_name (base Examples.tri3) v = d) ∧
    (∀ d t, graphs !! d = Some t → nx.graph t = {["dst" := d]}).
Proof.
  eexists. split; [vm_compute; reflexivity|].
  eapply (@routing_graphs_keys_and_labels Examples.reference_paths
            Examples.tri3).
  vm_compute. reflexivity.
Defined.

Lemma reference_paths_total g s t :
  nx.has_node g s = true → nx.has_node g t = true →
  ∃ b, Examples.ref_has_path g s t = Ok b ∧
    (b = true → ∃ p, Examples.ref_shortest_path g s t = Ok p).
Proof.
  intros Hs Ht. unfold Examples.ref_has_path, Examples.ref_shortest_path.
  rewrite Hs, Ht. simpl.
  destruct (Examples.candidates g s t) as [|p ps].
  - exists false. split; [done|]. discriminate.
  - exists true. split; [done|]. intros _. by eexists.
Qed.

Lemma routing_graphs_fail_only_in_library_witness :
  ∃ graphs,
    @get_output_routing_graphs Examples.reference_paths Examples.tri3
      = Ok (graphs, Examples.tri3).
Proof.
  destruct (output_graph_spec Examples.tri3
              (Examples.triangle_model 5 10 1) eq_refl)
    as (g & Hg & _ & Hnodes & _).
  apply (@routing_graphs_fail_only_in_library Examples.reference_paths
           Examples.tri3 (Examples.triangle_model 5 10 1) g Examples.tri3
           eq_refl Hg).
  intros n dst_net Hn Hd.
  apply (reference_paths_total g n (get_name (base Examples.tri3) dst_net)).
  - apply bool_decide_eq_true. apply Hnodes. exact Hn.
  - apply bool_decide_eq_true. apply Hnodes.
    apply list_elem_of_singleton in Hd. rewrite Hd.
    exists (z3.EnumVal 3). reflexivity.
Defined.
